(** * libtorrent: resume-data codec and auto-manage scheduler

    A shallow embedding of [src/write_resume_data.cpp] (the resume-data
    codec) and a model of the auto-manage scheduler exercised by
    [simulation/test_auto_manage.cpp], with the properties of the
    specification stated and proved over them. *)

From stdpp Require Import gmap strings list fin_maps.
From Stdlib Require Import ZArith Lia.
From Stdlib Require Ascii String.

#[local] Set Warnings "-register-all".
#[local] Open Scope Z_scope.

(* ===================================================================== *)
(** * Part I: definitions *)
(* ===================================================================== *)

(** ** The bencoded entry model ([libtorrent::entry]) *)

Module Entry.

(** Modelled from the spec: [libtorrent::entry] ([entry.hpp] is not among
    the sources), the recursive tagged value of section 4.3 with its
    preformatted leaf. A default-constructed entry, as [entry ret] and the
    elements that [std::vector<entry>::resize] appends, has no type yet
    ([undefined_t]); the accessors [dict()], [list()] and [string()] that
    [write_resume_data.cpp] applies to it turn an undefined entry into an
    empty value of the requested type and return a reference to it.
    Dictionaries are [std::map<std::string, entry>]. *)
Inductive entry : Type :=
  | undefined_t
  | int_t (i : Z)
  | string_t (s : string)
  | list_t (l : list entry)
  | dictionary_t (d : gmap string entry)
  | preformatted_t (b : string).

(** [e.dict()]: the dictionary held by [e]; an undefined entry is
    constructed as an empty dictionary. (On an entry of another type the
    accessor throws; the codec only applies it to [entry ret], which is
    undefined or a dictionary.) *)
Definition entry_dict (e : entry) : gmap string entry :=
  match e with dictionary_t d => d | _ => ∅ end.

(** [e.list()] and [e.string()], with the same convention. *)
Definition entry_list (e : entry) : list entry :=
  match e with list_t l => l | _ => [] end.

Definition entry_string (e : entry) : string :=
  match e with string_t s => s | _ => "" end.

(** [dictionary_type::operator[]]: find or default-construct. *)
Definition dict_at (k : string) (d : gmap string entry) : entry :=
  default undefined_t (d !! k).

(** [e[k]] read as a value. *)
Definition entry_at (k : string) (e : entry) : entry :=
  dict_at k (entry_dict e).

(** [e[k] = v]. *)
Definition entry_set (k : string) (v : entry) (e : entry) : entry :=
  dictionary_t (<[k := v]> (entry_dict e)).

(** Lookup of a top-level key, [None] when the key is absent (or when the
    entry is not a dictionary at all). *)
Definition entry_find (k : string) (e : entry) : option entry :=
  entry_dict e !! k.

(** A statement guarded by a condition: [if (c) stmt;]. *)
Definition when (c : bool) (stmt : entry → entry) (e : entry) : entry :=
  if c then stmt e else e.

(** [e[k].list()] followed by [push_back] of every element of [xs]. *)
Definition entry_list_append (k : string) (xs : list entry) (e : entry) : entry :=
  entry_set k (list_t (entry_list (entry_at k e) ++ xs)) e.

(** [e[k].string()] followed by appending [s]. *)
Definition entry_string_append (k : string) (s : string) (e : entry) : entry :=
  entry_set k (string_t (entry_string (entry_at k e) +:+ s)) e.

(** [std::vector<entry>::resize(n)] when growing: default-constructed
    (undefined) entries are appended. *)
Definition resize (l : list entry) (n : nat) : list entry :=
  take n l ++ replicate (n - length l) undefined_t.

Definition is_list (e : entry) : bool :=
  match e with list_t _ => true | _ => false end.

(** [preserves k f]: the statement [f] leaves the top-level key [k] of
    [ret] as it was (present with the same value, or absent). *)
Definition preserves (k : string) (f : entry → entry) : Prop :=
  ∀ e, entry_find k (f e) = entry_find k e.

End Entry.

(** ** The resume-data codec ([write_resume_data.cpp]) *)

Module Codec.
Import Entry.

(** The key sets written by the blocks of [write_resume_data]. *)
Definition info_keys : list string :=
  ["info"; "comment"; "creation date"; "created by"].

Definition torrent_keys : list string :=
  info_keys ++ ["piece layers"; "url-list"; "httpseeds"; "name";
                "announce"; "announce-list"].

Definition list_keys : list string :=
  ["trees"; "trackers"; "url-list"; "httpseeds"].

Definition scalar_keys : list string :=
  ["file-format"; "file-version"; "libtorrent-version"; "allocation";
   "total_uploaded"; "total_downloaded"; "active_time"; "finished_time";
   "seeding_time"; "last_seen_complete"; "last_download"; "last_upload";
   "num_complete"; "num_incomplete"; "num_downloaded"; "seed_mode";
   "upload_mode"; "share_mode"; "apply_ip_filter"; "paused"; "auto_managed";
   "super_seeding"; "sequential_download"; "stop_when_ready"; "disable_dht";
   "disable_lsd"; "disable_pex"; "added_time"; "completed_time"; "save_path";
   "url"; "info-hash"; "info-hash2"].

Definition state_keys : list string :=
  ["unfinished"; "pieces"; "mapped_files"; "peers"; "peers6"; "banned_peers";
   "banned_peers6"; "upload_rate_limit"; "download_rate_limit";
   "max_connections"; "max_uploads"; "file_priority"; "piece_priority"].

Inductive storage_mode_t := storage_mode_allocate | storage_mode_sparse.

(** The flags the codec tests in [add_torrent_params::flags]. *)
Inductive torrent_flag :=
  | seed_mode | upload_mode | share_mode | apply_ip_filter | paused
  | auto_managed | super_seeding | sequential_download | stop_when_ready
  | disable_dht | disable_lsd | disable_pex.

(** [file_storage], as far as the codec queries it. The class is declared
    elsewhere; its accessors are taken as they are, indexed by file. *)
Record file_storage := {
  pad_file_at : nat → bool;
  file_size : nat → Z;
  piece_length : Z;
  file_num_blocks : nat → Z;
  root_ptr : nat → string
}.

(** [torrent_info], as far as the codec queries it. *)
Record torrent_info := {
  info_section : string;
  comment : string;
  creation_date : Z;
  creator : string;
  files : file_storage
}.

(** What [write_resume_data.cpp] uses but does not define: endpoints and
    their serialisation ([socket_io.hpp]), the byte buffer of a bitfield,
    the version string, the block size, the ABI version the library is
    built with, the bit masks of [torrent_flags] and [aux::merkle_tree].
    A SHA-256 digest is represented by its raw bytes ([to_string()]). *)
Class Externals := {
  endpoint : Type;
  is_v6 : endpoint → bool;
  write_endpoint : endpoint → string;
  bitfield_data : list bool → string;
  version_str : string;
  default_block_size : Z;
  TORRENT_ABI_VERSION : Z;
  torrent_flags : torrent_flag → Z;
  merkle_tree : Type;
  merkle_tree_new : Z → Z → string → merkle_tree;
  load_sparse_tree : merkle_tree → list string → list bool → merkle_tree;
  load_tree : merkle_tree → list string → merkle_tree;
  get_piece_layer : merkle_tree → list string;
  root : merkle_tree → string
}.

Section WithExternals.
Context `{Ext : Externals}.

Record add_torrent_params := {
  ti : option torrent_info;
  merkle_trees : list (list string);
  verified_leaf_hashes : list (list bool);
  merkle_tree_mask : list (list bool);
  url_seeds : list string;
  http_seeds : list string;
  name : string;
  trackers : list string;
  tracker_tiers : list Z;
  storage_mode : storage_mode_t;
  total_uploaded : Z;
  total_downloaded : Z;
  active_time : Z;
  finished_time : Z;
  seeding_time : Z;
  last_seen_complete : Z;
  last_download : Z;
  last_upload : Z;
  num_complete : Z;
  num_incomplete : Z;
  num_downloaded : Z;
  flags : Z;
  added_time : Z;
  completed_time : Z;
  save_path : string;
  url : string;
  info_hashes_v1 : string;
  info_hashes_v2 : string;
  (* std::map<piece_index_t, bitfield>, in key order *)
  unfinished_pieces : list (Z * list bool);
  have_pieces : list bool;
  verified_pieces : list bool;
  (* std::map<file_index_t, std::string>, in key order *)
  renamed_files : list (nat * string);
  peers : list endpoint;
  banned_peers : list endpoint;
  upload_limit : Z;
  download_limit : Z;
  max_connections : Z;
  max_uploads : Z;
  file_priorities : list Z;
  piece_priorities : list Z
}.

(** [write_resume_flags]: bit 0 is [write_torrent_only]. *)
Definition write_torrent_only : Z := 1.

(** Small helpers for the conversions the function performs inline. *)

Definition entry_of_bool (b : bool) : entry := int_t (if b then 1 else 0).

(** [bool(atp.flags & torrent_flags::f)] *)
Definition has_flag (fl : Z) (f : torrent_flag) : bool :=
  negb (Z.land fl (torrent_flags f) =? 0).

(** [bit ? '1' : '0'] pushed for every bit. *)
Fixpoint bits_to_ascii (bits : list bool) : string :=
  match bits with
  | [] => ""
  | bit :: r => (if bit then "1" else "0") +:+ bits_to_ascii r
  end.

(** [for (auto const& n : tree) s.append(n.data(), n.size())] *)
Fixpoint concat_hashes (hs : list string) : string :=
  match hs with
  | [] => ""
  | h :: r => h +:+ concat_hashes r
  end.

(** [std::size_t(i)] for an [int] on a 64-bit target. *)
Definition size_t_of_int (i : Z) : Z := i mod 2 ^ 64.

(** [aux::clamp(v, lo, hi)] *)
Definition clamp (v lo hi : Z) : Z :=
  if v <? lo then lo else if hi <? v then hi else v.

(** One iteration of the loop over [atp.merkle_trees] (lines 79-137):
    the dictionary pushed onto [ret_trees] and the update of
    [piece_layers]. *)
Definition tree_dict (atp : add_torrent_params) (f : nat) (tree : list string)
  : gmap string entry :=
  let ret_dict : gmap string entry := {[ "hashes" := string_t (concat_hashes tree) ]} in
  let ret_dict :=
    match verified_leaf_hashes atp !! f with
    | Some verified =>
        if bool_decide (verified = []) then ret_dict
        else <["verified" := string_t (bits_to_ascii verified)]> ret_dict
    | None => ret_dict
    end in
  match merkle_tree_mask atp !! f with
  | Some mask =>
      if bool_decide (mask = []) then ret_dict
      else <["mask" := string_t (bits_to_ascii mask)]> ret_dict
  | None => ret_dict
  end.

(** The mask of file [f] when [f < end_index()] and it is not empty. *)
Definition sparse_mask (atp : add_torrent_params) (f : nat) : option (list bool) :=
  match merkle_tree_mask atp !! f with
  | Some mask => if bool_decide (mask = []) then None else Some mask
  | None => None
  end.

(** The tree rebuilt at lines 117-127. *)
Definition rebuilt_tree (atp : add_torrent_params) (fs : file_storage)
    (f : nat) (tree : list string) : merkle_tree :=
  let t := merkle_tree_new (file_num_blocks fs f)
             (piece_length fs / default_block_size) (root_ptr fs f) in
  match sparse_mask atp f with
  | Some mask => load_sparse_tree t tree mask
  | None => load_tree t tree
  end.

(** The test of line 115:
    [!fs.pad_file_at(f) && fs.file_size(f) > fs.piece_length()]. *)
Definition has_piece_layer (fs : file_storage) (f : nat) : bool :=
  negb (pad_file_at fs f) && (piece_length fs <? file_size fs f).

(** Lines 112-137. [piece_layers[key].string()] finds or creates the
    entry, and every hash of the piece layer is appended to it. *)
Definition piece_layer_step (atp : add_torrent_params) (f : nat)
    (tree : list string) (piece_layers : gmap string entry) : gmap string entry :=
  match ti atp with
  | Some info =>
      let fs := files info in
      if has_piece_layer fs f then
        let t := rebuilt_tree atp fs f tree in
        let key := root t in
        <[key := string_t (entry_string (dict_at key piece_layers)
                            +:+ concat_hashes (get_piece_layer t))]> piece_layers
      else piece_layers
  | None => piece_layers
  end.

(** The loop of lines 77-138, from file index [f] on. *)
Fixpoint write_trees (atp : add_torrent_params) (f : nat)
    (trees : list (list string)) (ret_trees : list entry)
    (piece_layers : gmap string entry) : list entry * gmap string entry :=
  match trees with
  | [] => (ret_trees, piece_layers)
  | tree :: rest =>
      write_trees atp (S f) rest
        (ret_trees ++ [dictionary_t (tree_dict atp f tree)])
        (piece_layer_step atp f tree piece_layers)
  end.

(** For the statement of the properties: the bytes that the files
    [f, f+1, ...] with the trees [trees] append under the key [k], in file
    order, and whether any of them writes under [k] at all. *)
Fixpoint layers_under (atp : add_torrent_params) (fs : file_storage) (k : string)
    (f : nat) (trees : list (list string)) : string :=
  match trees with
  | [] => ""
  | tree :: rest =>
      let t := rebuilt_tree atp fs f tree in
      (if has_piece_layer fs f && bool_decide (root t = k)
       then concat_hashes (get_piece_layer t) else "")
      +:+ layers_under atp fs k (S f) rest
  end.

Fixpoint writes_under (atp : add_torrent_params) (fs : file_storage) (k : string)
    (f : nat) (trees : list (list string)) : bool :=
  match trees with
  | [] => false
  | tree :: rest =>
      (has_piece_layer fs f && bool_decide (root (rebuilt_tree atp fs f tree) = k))
      || writes_under atp fs k (S f) rest
  end.

(** The loop of lines 174-183 over the trackers; [tier_it] is the rest of
    [tracker_tiers], [tier] the tier of the previous tracker. *)
Fixpoint write_tiers (trs : list string) (tier_it : list Z) (tier : Z)
    (tr_list : list entry) : list entry :=
  match trs with
  | [] => tr_list
  | tr :: rest =>
      let tier' :=
        match tier_it with
        | t :: _ => clamp (size_t_of_int t) 0 1024
        | [] => tier
        end in
      let tr_list :=
        if Z.of_nat (length tr_list) <=? tier'
        then resize tr_list (Z.to_nat (tier' + 1)) else tr_list in
      write_tiers rest (tail tier_it) tier'
        (alter (λ e, list_t (entry_list e ++ [string_t tr])) (Z.to_nat tier') tr_list)
  end.

(** For the statement of the properties: the trackers that the loop of
    lines 174-183 puts in the slot [j] of the tier list, in order. *)
Fixpoint trackers_in_tier (j : nat) (trs : list string) (tier_it : list Z)
    (tier : Z) : list string :=
  match trs with
  | [] => []
  | tr :: rest =>
      let tier' :=
        match tier_it with
        | t :: _ => clamp (size_t_of_int t) 0 1024
        | [] => tier
        end in
      (if bool_decide (Z.to_nat tier' = j) then [tr] else [])
      ++ trackers_in_tier j rest (tail tier_it) tier'
  end.

#[local] Notation "e |> f" := (f e) (at level 68, left associativity, only parsing).

(** Lines 59-69: the fields taken from the torrent_info object. *)
Definition write_info (info : torrent_info) (ret : entry) : entry :=
  ret
  |> entry_set "info" (preformatted_t (info_section info))
  |> when (negb (bool_decide (comment info = "")))
       (entry_set "comment" (string_t (comment info)))
  |> when (negb (creation_date info =? 0))
       (entry_set "creation date" (int_t (creation_date info)))
  |> when (negb (bool_decide (creator info = "")))
       (entry_set "created by" (string_t (creator info))).

(** Lines 161-185: [announce] or [announce-list]. *)
Definition write_announce (atp : add_torrent_params) (ret : entry) : entry :=
  match trackers atp with
  | [] => ret
  | [tr] => entry_set "announce" (string_t tr) ret
  | _ =>
      entry_set "announce-list"
        (list_t (write_tiers (trackers atp) (tracker_tiers atp) 0
                   (entry_list (entry_at "announce-list" ret) ++ [list_t []])))
        ret
  end.

(** The [piece_layers] dictionary and [ret_trees] built by lines 71-138. *)
Definition piece_layers_of (atp : add_torrent_params) : gmap string entry :=
  (write_trees atp 0 (merkle_trees atp) [] ∅).2.

Definition ret_trees_of (atp : add_torrent_params) : list entry :=
  (write_trees atp 0 (merkle_trees atp) [] ∅).1.

(** Lines 59-185: the fields of a .torrent file. *)
Definition write_torrent_fields (atp : add_torrent_params) : entry :=
  undefined_t
  |> (λ ret, match ti atp with Some info => write_info info ret | None => ret end)
  |> when (negb (bool_decide (merkle_trees atp = []))
           && negb (bool_decide (piece_layers_of atp = ∅)))
       (entry_set "piece layers" (dictionary_t (piece_layers_of atp)))
  |> when (negb (bool_decide (url_seeds atp = [])))
       (entry_list_append "url-list" (string_t <$> url_seeds atp))
  |> when (negb (bool_decide (http_seeds atp = [])))
       (entry_list_append "httpseeds" (string_t <$> http_seeds atp))
  |> when (negb (bool_decide (name atp = "")))
       (entry_set "name" (string_t (name atp)))
  |> write_announce atp.

(** Lines 286-302: the [pieces] string. [resize] fills with NUL bytes, the
    first loop stores, the second one ors. *)
Fixpoint write_have (bits : list bool) (piece : nat) (pieces : list Ascii.ascii)
  : list Ascii.ascii :=
  match bits with
  | [] => pieces
  | bit :: r =>
      write_have r (S piece)
        (<[piece := Ascii.ascii_of_N (if bit then 1 else 0)]> pieces)
  end.

Fixpoint write_verified (bits : list bool) (piece : nat) (pieces : list Ascii.ascii)
  : list Ascii.ascii :=
  match bits with
  | [] => pieces
  | bit :: r =>
      write_verified r (S piece)
        (alter (λ c, Ascii.ascii_of_N (N.lor (Ascii.N_of_ascii c) (if bit then 2 else 0)))
           piece pieces)
  end.

(** [std::string::resize(n)]: truncates, or pads with NUL bytes. *)
Definition resize_string (s : list Ascii.ascii) (n : nat) : list Ascii.ascii :=
  take n s ++ replicate (n - length s) Ascii.zero.

Definition write_pieces (atp : add_torrent_params) (pieces : list Ascii.ascii)
  : list Ascii.ascii :=
  let pieces := resize_string pieces
                  (length (have_pieces atp) `max` length (verified_pieces atp)) in
  let pieces := write_have (have_pieces atp) 0 pieces in
  write_verified (verified_pieces atp) 0 pieces.

(** Lines 273-282: one dictionary per unfinished piece. *)
Definition piece_struct (p : Z * list bool) : entry :=
  entry_set "bitmask"
    (string_t (String.substring 0 ((length p.2 + 7) / 8) (bitfield_data p.2)))
    (entry_set "piece" (int_t p.1) (dictionary_t ∅)).

(** Lines 308-313: the list of renamed files, grown on demand. *)
Fixpoint write_renamed (ents : list (nat * string)) (fl : list entry) : list entry :=
  match ents with
  | [] => fl
  | ent :: r =>
      let idx := ent.1 in
      let fl := if bool_decide (length fl ≤ idx)%nat then resize fl (idx + 1) else fl in
      write_renamed r (<[idx := string_t ent.2]> fl)
  end.

(** Lines 321-327 and 334-340: endpoints are appended to the IPv4 or to
    the IPv6 string. *)
Fixpoint write_endpoints (ps : list endpoint) (ptr ptr6 : string) : string * string :=
  match ps with
  | [] => (ptr, ptr6)
  | p :: r =>
      if is_v6 p then write_endpoints r ptr (ptr6 +:+ write_endpoint p)
      else write_endpoints r (ptr +:+ write_endpoint p) ptr6
  end.

Definition write_peer_lists (k k6 : string) (ps : list endpoint) (ret : entry) : entry :=
  let ret := entry_string_append k "" ret in
  let ret := entry_string_append k6 "" ret in
  let '(s, s6) := write_endpoints ps (entry_string (entry_at k ret))
                    (entry_string (entry_at k6 ret)) in
  entry_set k6 (string_t s6) (entry_set k (string_t s) ret).

Definition ascii_of_priority (p : Z) : Ascii.ascii :=
  Ascii.ascii_of_N (Z.to_N (p mod 256)).

(** Lines 193-213: [trees], [trackers] and the web-seed lists. *)
Definition write_resume_lists (atp : add_torrent_params) (ret_trees : list entry)
    (ret : entry) : entry :=
  ret
  |> when (negb (bool_decide (merkle_trees atp = [])))
       (entry_set "trees" (list_t ret_trees))
  |> (λ ret,
        match trackers atp with
        | [] => entry_list_append "trackers" [] ret
        | [_] =>
            let l := [entry_at "announce" ret] in
            entry_list_append "trackers" [list_t l] ret
        | _ => entry_set "trackers" (entry_at "announce-list" ret) ret
        end)
  |> when (bool_decide (url_seeds atp = [])) (entry_list_append "url-list" [])
  |> when (bool_decide (http_seeds atp = [])) (entry_list_append "httpseeds" []).

(** Lines 216-265: the fields written unconditionally. *)
Definition write_resume_scalars (atp : add_torrent_params) (ret : entry) : entry :=
  ret
  |> entry_set "file-format" (string_t "libtorrent resume file")
  |> entry_set "file-version" (int_t 1)
  |> entry_set "libtorrent-version" (string_t version_str)
  |> entry_set "allocation"
       (string_t (match storage_mode atp with
                  | storage_mode_allocate => "allocate"
                  | storage_mode_sparse => "sparse"
                  end))
  |> entry_set "total_uploaded" (int_t (total_uploaded atp))
  |> entry_set "total_downloaded" (int_t (total_downloaded atp))
  |> entry_set "active_time" (int_t (active_time atp))
  |> entry_set "finished_time" (int_t (finished_time atp))
  |> entry_set "seeding_time" (int_t (seeding_time atp))
  |> entry_set "last_seen_complete" (int_t (last_seen_complete atp))
  |> entry_set "last_download" (int_t (last_download atp))
  |> entry_set "last_upload" (int_t (last_upload atp))
  |> entry_set "num_complete" (int_t (num_complete atp))
  |> entry_set "num_incomplete" (int_t (num_incomplete atp))
  |> entry_set "num_downloaded" (int_t (num_downloaded atp))
  |> entry_set "seed_mode" (entry_of_bool (has_flag (flags atp) seed_mode))
  |> entry_set "upload_mode" (entry_of_bool (has_flag (flags atp) upload_mode))
  |> entry_set "share_mode" (entry_of_bool (has_flag (flags atp) share_mode))
  |> entry_set "apply_ip_filter" (entry_of_bool (has_flag (flags atp) apply_ip_filter))
  |> entry_set "paused" (entry_of_bool (has_flag (flags atp) paused))
  |> entry_set "auto_managed" (entry_of_bool (has_flag (flags atp) auto_managed))
  |> entry_set "super_seeding" (entry_of_bool (has_flag (flags atp) super_seeding))
  |> entry_set "sequential_download"
       (entry_of_bool (has_flag (flags atp) sequential_download))
  |> entry_set "stop_when_ready" (entry_of_bool (has_flag (flags atp) stop_when_ready))
  |> entry_set "disable_dht" (entry_of_bool (has_flag (flags atp) disable_dht))
  |> entry_set "disable_lsd" (entry_of_bool (has_flag (flags atp) disable_lsd))
  |> entry_set "disable_pex" (entry_of_bool (has_flag (flags atp) disable_pex))
  |> entry_set "added_time" (int_t (added_time atp))
  |> entry_set "completed_time" (int_t (completed_time atp))
  |> entry_set "save_path" (string_t (save_path atp))
  |> when ((TORRENT_ABI_VERSION =? 1) && negb (bool_decide (url atp = "")))
       (entry_set "url" (string_t (url atp)))
  |> entry_set "info-hash" (string_t (info_hashes_v1 atp))
  |> entry_set "info-hash2" (string_t (info_hashes_v2 atp)).

(** Lines 267-364: pieces, renamed files, peers, limits and priorities. *)
Definition write_resume_state (atp : add_torrent_params) (ret : entry) : entry :=
  ret
  |> when (negb (bool_decide (unfinished_pieces atp = [])))
       (entry_list_append "unfinished" (piece_struct <$> unfinished_pieces atp))
  |> (λ ret,
        entry_set "pieces"
          (string_t (String.string_of_list_ascii
                       (write_pieces atp
                          (String.list_ascii_of_string
                             (entry_string (entry_at "pieces" ret)))))) ret)
  |> when (negb (bool_decide (renamed_files atp = [])))
       (λ ret,
          entry_set "mapped_files"
            (list_t (write_renamed (renamed_files atp)
                       (entry_list (entry_at "mapped_files" ret)))) ret)
  |> when (negb (bool_decide (peers atp = [])))
       (write_peer_lists "peers" "peers6" (peers atp))
  |> when (negb (bool_decide (banned_peers atp = [])))
       (write_peer_lists "banned_peers" "banned_peers6" (banned_peers atp))
  |> entry_set "upload_rate_limit" (int_t (upload_limit atp))
  |> entry_set "download_rate_limit" (int_t (download_limit atp))
  |> entry_set "max_connections" (int_t (max_connections atp))
  |> entry_set "max_uploads" (int_t (max_uploads atp))
  |> when (negb (bool_decide (file_priorities atp = [])))
       (entry_list_append "file_priority" (int_t <$> file_priorities atp))
  |> when (negb (bool_decide (piece_priorities atp = [])))
       (entry_string_append "piece_priority"
          (String.string_of_list_ascii (ascii_of_priority <$> piece_priorities atp))).

(** [write_resume_data(atp, flags)] of the anonymous namespace (line 55). *)
Definition write_resume_data_flags (atp : add_torrent_params) (wflags : Z) : entry :=
  let ret := write_torrent_fields atp in
  (* .torrent file fields above *)
  if negb (Z.land wflags write_torrent_only =? 0) then ret
  else
    (* resume data below *)
    ret
    |> write_resume_lists atp (ret_trees_of atp)
    |> write_resume_scalars atp
    |> write_resume_state atp.

(** The two public entry points (lines 370-378). *)
Definition write_resume_data (atp : add_torrent_params) : entry :=
  write_resume_data_flags atp 0.

Definition write_torrent_file (atp : add_torrent_params) : entry :=
  write_resume_data_flags atp write_torrent_only.

(** The presence-conditional keys of the resume dictionary, each with the
    condition under which the function writes it. *)
Definition optional_fields (atp : add_torrent_params) : list (string * bool) :=
  [ ("info", bool_decide (is_Some (ti atp)));
    ("comment",
      match ti atp with
      | Some info => negb (bool_decide (comment info = ""))
      | None => false
      end);
    ("creation date",
      match ti atp with
      | Some info => negb (creation_date info =? 0)
      | None => false
      end);
    ("created by",
      match ti atp with
      | Some info => negb (bool_decide (creator info = ""))
      | None => false
      end);
    ("piece layers", negb (bool_decide (piece_layers_of atp = ∅)));
    ("name", negb (bool_decide (name atp = "")));
    ("announce", bool_decide (length (trackers atp) = 1%nat));
    ("announce-list", bool_decide (2 ≤ length (trackers atp))%nat);
    ("trees", negb (bool_decide (merkle_trees atp = [])));
    ("url", (TORRENT_ABI_VERSION =? 1) && negb (bool_decide (url atp = "")));
    ("unfinished", negb (bool_decide (unfinished_pieces atp = [])));
    ("mapped_files", negb (bool_decide (renamed_files atp = [])));
    ("peers", negb (bool_decide (peers atp = [])));
    ("peers6", negb (bool_decide (peers atp = [])));
    ("banned_peers", negb (bool_decide (banned_peers atp = [])));
    ("banned_peers6", negb (bool_decide (banned_peers atp = [])));
    ("file_priority", negb (bool_decide (file_priorities atp = [])));
    ("piece_priority", negb (bool_decide (piece_priorities atp = []))) ].

End WithExternals.

Arguments add_torrent_params {Ext}.

(** The keys of the resume dictionary that are written whatever the
    parameters hold. *)
Definition always_keys : list string :=
  ["url-list"; "httpseeds"; "trackers";
   "file-format"; "file-version"; "libtorrent-version"; "allocation";
   "total_uploaded"; "total_downloaded"; "active_time"; "finished_time";
   "seeding_time"; "last_seen_complete"; "last_download"; "last_upload";
   "num_complete"; "num_incomplete"; "num_downloaded"; "seed_mode";
   "upload_mode"; "share_mode"; "apply_ip_filter"; "paused"; "auto_managed";
   "super_seeding"; "sequential_download"; "stop_when_ready"; "disable_dht";
   "disable_lsd"; "disable_pex"; "added_time"; "completed_time"; "save_path";
   "info-hash"; "info-hash2"; "pieces"; "upload_rate_limit";
   "download_rate_limit"; "max_connections"; "max_uploads"].

(** *** A concrete build

    An instance of [Externals] on which the codec can be evaluated:
    endpoints carry their family and their serialised bytes, a bitfield is
    packed most significant bit first, the flag masks are those of
    [torrent_flags.hpp], and the merkle tree keeps the root it is created
    with and hands back, as its piece layer, the nodes loaded into it. *)
Record sample_endpoint := { ep_v6 : bool; ep_bytes : string }.

Record sample_tree := { st_root : string; st_nodes : list string }.

Definition sample_bitfield_byte (bits : list bool) (k : nat) : Ascii.ascii :=
  Ascii.ascii_of_N
    (foldr N.add 0%N
       ((λ j, if default false (bits !! (8 * k + j)%nat)
              then (2 ^ N.of_nat (7 - j))%N else 0%N) <$> seq 0 8)).

Definition sample_flag_mask (f : torrent_flag) : Z :=
  match f with
  | seed_mode => 2 ^ 0
  | upload_mode => 2 ^ 1
  | share_mode => 2 ^ 2
  | apply_ip_filter => 2 ^ 3
  | paused => 2 ^ 4
  | auto_managed => 2 ^ 5
  | super_seeding => 2 ^ 8
  | sequential_download => 2 ^ 9
  | stop_when_ready => 2 ^ 10
  | disable_dht => 2 ^ 19
  | disable_lsd => 2 ^ 20
  | disable_pex => 2 ^ 21
  end.

Definition sample_externals : Externals := {|
  endpoint := sample_endpoint;
  is_v6 := ep_v6;
  write_endpoint := ep_bytes;
  bitfield_data := λ bits,
    String.string_of_list_ascii
      (sample_bitfield_byte bits <$> seq 0 ((length bits + 7) / 8));
  version_str := "2.0.0.0";
  default_block_size := 16384;
  TORRENT_ABI_VERSION := 3;
  torrent_flags := sample_flag_mask;
  merkle_tree := sample_tree;
  merkle_tree_new := λ _ _ r, {| st_root := r; st_nodes := [] |};
  load_sparse_tree := λ t tree _, {| st_root := st_root t; st_nodes := tree |};
  load_tree := λ t tree, {| st_root := st_root t; st_nodes := tree |};
  get_piece_layer := st_nodes;
  root := st_root
|}.

(** A default-constructed [add_torrent_params] (the flags are
    [torrent_flags::default_flags], the limits are -1), with the given
    metadata, merkle trees, trackers and piece bitfields set. *)
Definition atp_with (info : option torrent_info)
    (trees : list (list string)) (masks : list (list bool))
    (trs : list string) (tiers : list Z) (have verified : list bool)
  : @add_torrent_params sample_externals := {|
  ti := info;
  merkle_trees := trees;
  verified_leaf_hashes := [];
  merkle_tree_mask := masks;
  url_seeds := [];
  http_seeds := [];
  name := "";
  trackers := trs;
  tracker_tiers := tiers;
  storage_mode := storage_mode_sparse;
  total_uploaded := 0;
  total_downloaded := 0;
  active_time := 0;
  finished_time := 0;
  seeding_time := 0;
  last_seen_complete := 0;
  last_download := 0;
  last_upload := 0;
  num_complete := -1;
  num_incomplete := -1;
  num_downloaded := -1;
  flags := 2 ^ 3 + 2 ^ 4 + 2 ^ 5 + 2 ^ 7 + 2 ^ 13;
  added_time := 0;
  completed_time := 0;
  save_path := "";
  url := "";
  info_hashes_v1 := String.string_of_list_ascii (replicate 20 Ascii.zero);
  info_hashes_v2 := String.string_of_list_ascii (replicate 32 Ascii.zero);
  unfinished_pieces := [];
  have_pieces := have;
  verified_pieces := verified;
  renamed_files := [];
  peers := [];
  banned_peers := [];
  upload_limit := -1;
  download_limit := -1;
  max_connections := -1;
  max_uploads := -1;
  file_priorities := [];
  piece_priorities := []
|}.

(** Nothing set. *)
Definition default_atp : @add_torrent_params sample_externals :=
  atp_with None [] [] [] [] [] [].

(** Two trackers in the tiers 0 and 2; no tracker is in tier 1. *)
Definition gap_atp : @add_torrent_params sample_externals :=
  atp_with None [] [] ["http://a/announce"; "http://b/announce"] [0; 2] [] [].

(** A torrent with two identical files of 40000 bytes and pieces of 16 KiB:
    the two files have the same root and the same three piece hashes. *)
Definition dup_root : string := "rrrrrrrrrrrrrrrrrrrrrrrrrrrrrrrr".

Definition dup_layer : list string :=
  ["aaaaaaaaaaaaaaaaaaaaaaaaaaaaaaaa"; "bbbbbbbbbbbbbbbbbbbbbbbbbbbbbbbb";
   "cccccccccccccccccccccccccccccccc"].

Definition dup_info : torrent_info := {|
  info_section := "d6:lengthi80000ee";
  comment := "";
  creation_date := 0;
  creator := "";
  files := {| pad_file_at := λ _, false;
              file_size := λ _, 40000;
              piece_length := 16384;
              file_num_blocks := λ _, 3;
              root_ptr := λ _, dup_root |}
|}.

Definition dup_atp : @add_torrent_params sample_externals :=
  atp_with (Some dup_info) [dup_layer; dup_layer] [] [] [] [] [].

(** Three pieces downloaded or not, four verified or not. *)
Definition pieces_atp : @add_torrent_params sample_externals :=
  atp_with None [] [] [] [] [true; false; true] [false; false; true; true].

(** *** For the statements of the further properties *)

(** For the statement of the properties: the tier that the loop of lines
    174-183 has in [tier] when it files the tracker number [i]. It is the
    tier listed for the tracker, converted and clamped as at line 177; once
    [tier_it] has reached the end of [tracker_tiers] the tier of the last
    tracker that had one is kept, and it is 0 when no tier is listed. *)
Definition tier_of_tracker (tiers : list Z) (i : nat) : Z :=
  match tiers !! i with
  | Some t => clamp (size_t_of_int t) 0 1024
  | None => from_option (λ t, clamp (size_t_of_int t) 0 1024) 0 (last tiers)
  end.

(** For the statement of the properties: the key under which lines
    237-252 write each flag. *)
Definition flag_key (f : torrent_flag) : string :=
  match f with
  | seed_mode => "seed_mode"
  | upload_mode => "upload_mode"
  | share_mode => "share_mode"
  | apply_ip_filter => "apply_ip_filter"
  | paused => "paused"
  | auto_managed => "auto_managed"
  | super_seeding => "super_seeding"
  | sequential_download => "sequential_download"
  | stop_when_ready => "stop_when_ready"
  | disable_dht => "disable_dht"
  | disable_lsd => "disable_lsd"
  | disable_pex => "disable_pex"
  end.

(** *** More parameter sets for the concrete build *)

(** Two IPv4 peers around an IPv6 one, and a banned IPv4 peer. *)
Definition busy_peers : list (@endpoint sample_externals) :=
  [ {| ep_v6 := false; ep_bytes := "AAAApp" |};
    {| ep_v6 := true; ep_bytes := "BBBBBBBBBBBBBBBBpp" |};
    {| ep_v6 := false; ep_bytes := "CCCCpp" |} ].

Definition busy_banned_peers : list (@endpoint sample_externals) :=
  [ {| ep_v6 := false; ep_bytes := "DDDDpp" |} ].

(** A torrent of two files of three pieces each with its trees, a mask and
    verified leaves, three trackers of which the second has a negative tier
    and the third none, an unfinished piece of nine blocks, two renamed
    files, peers of both families and priorities. *)
Definition busy_atp : @add_torrent_params sample_externals := {|
  ti := Some dup_info;
  merkle_trees := [dup_layer; dup_layer];
  verified_leaf_hashes := [[true; false; true]];
  merkle_tree_mask := [[]; [true; true; false]];
  url_seeds := ["http://seed.example/"];
  http_seeds := [];
  name := "temp-00";
  trackers := ["http://a/announce"; "http://b/announce"; "http://c/announce"];
  tracker_tiers := [1; -1];
  storage_mode := storage_mode_allocate;
  total_uploaded := 1000;
  total_downloaded := 2000;
  active_time := 30;
  finished_time := 0;
  seeding_time := 0;
  last_seen_complete := 0;
  last_download := 5;
  last_upload := 7;
  num_complete := 3;
  num_incomplete := 4;
  num_downloaded := 5;
  flags := 2 ^ 3 + 2 ^ 5;
  added_time := 1600000000;
  completed_time := 0;
  save_path := "dummy";
  url := "";
  info_hashes_v1 := String.string_of_list_ascii (replicate 20 Ascii.zero);
  info_hashes_v2 := String.string_of_list_ascii (replicate 32 Ascii.zero);
  unfinished_pieces :=
    [(3, [true; false; true; true; false; false; false; false; true])];
  have_pieces := [true; true; false];
  verified_pieces := [];
  renamed_files := [(0%nat, "a.bin"); (2%nat, "c.bin")];
  peers := busy_peers;
  banned_peers := busy_banned_peers;
  upload_limit := -1;
  download_limit := 500000;
  max_connections := 50;
  max_uploads := -1;
  file_priorities := [4; 0];
  piece_priorities := [4; 4; 7; 0; 1; 255]
|}.

(** Two parameter sets that differ only in which of the two piece
    bitfields has one (cleared) bit. *)
Definition one_have_atp : @add_torrent_params sample_externals :=
  atp_with None [] [] [] [] [false] [].

Definition one_verified_atp : @add_torrent_params sample_externals :=
  atp_with None [] [] [] [] [] [false].

End Codec.

(** ** The auto-manage scheduler

    [simulation/test_auto_manage.cpp] drives the scheduler through a
    session; the scheduler itself ([session_impl]) and the test harness
    ([run_test]'s [settings()], the simulator) are not among the sources.
    This module models them from the specification (sections 3, 4.1, 6.1
    and 6.2) and takes the scenarios from the test file. *)

Module Sched.

(** Modelled from the spec: the lifecycle states of section 3.1
    ([torrent_status::state_t], declared outside the sources). *)
Inductive state_t :=
  | queued_for_checking | checking_resume_data | checking_files
  | downloading_metadata | downloading | finished | seeding | allocating.

(** Modelled from the spec: the queue classes of section 3.2. *)
Inductive queue_class := checking_slot | downloading_slot | seeding_slot.

#[global] Instance state_t_eq_dec : EqDecision state_t.
Proof. solve_decision. Defined.

#[global] Instance queue_class_eq_dec : EqDecision queue_class.
Proof. solve_decision. Defined.

(** Modelled from the spec: the torrent state record of section 3.1, as
    far as the scheduler reads or writes it. [data_on_disk] says whether
    the files of the torrent are complete on disk (the [seed] argument of
    [create_torrent] in the test); [announcing] is set while the torrent
    has announced to its trackers since it was last granted a download or
    seed slot. *)
Record torrent := {
  auto_managed : bool;
  paused : bool;
  state : state_t;
  queue_position : Z;
  download_rate : Z;
  upload_rate : Z;
  trackers : list string;
  data_on_disk : bool;
  announcing : bool
}.

Definition set_paused (b : bool) (t : torrent) : torrent :=
  {| auto_managed := auto_managed t; paused := b; state := state t;
     queue_position := queue_position t; download_rate := download_rate t;
     upload_rate := upload_rate t; trackers := trackers t;
     data_on_disk := data_on_disk t; announcing := announcing t |}.

Definition set_announcing (b : bool) (t : torrent) : torrent :=
  {| auto_managed := auto_managed t; paused := paused t; state := state t;
     queue_position := queue_position t; download_rate := download_rate t;
     upload_rate := upload_rate t; trackers := trackers t;
     data_on_disk := data_on_disk t; announcing := b |}.

Definition set_state (st : state_t) (t : torrent) : torrent :=
  {| auto_managed := auto_managed t; paused := paused t; state := st;
     queue_position := queue_position t; download_rate := download_rate t;
     upload_rate := upload_rate t; trackers := trackers t;
     data_on_disk := data_on_disk t; announcing := announcing t |}.

Definition set_rates (down up : Z) (t : torrent) : torrent :=
  {| auto_managed := auto_managed t; paused := paused t; state := state t;
     queue_position := queue_position t; download_rate := down;
     upload_rate := up; trackers := trackers t;
     data_on_disk := data_on_disk t; announcing := announcing t |}.

Definition set_queue_position (n : Z) (t : torrent) : torrent :=
  {| auto_managed := auto_managed t; paused := paused t; state := state t;
     queue_position := n; download_rate := download_rate t;
     upload_rate := upload_rate t; trackers := trackers t;
     data_on_disk := data_on_disk t; announcing := announcing t |}.

(** Modelled from the spec: the boolean derivatives of the lifecycle state
    (section 3.1); [is_seeding] implies [is_finished]. *)
Definition is_checking (st : state_t) : bool :=
  match st with checking_files | checking_resume_data => true | _ => false end.

Definition is_finished (t : torrent) : bool :=
  match state t with finished | seeding => true | _ => false end.

Definition is_seeding (t : torrent) : bool :=
  match state t with seeding => true | _ => false end.

(** Modelled from the spec: the queue class of section 3.2. A torrent in
    a checking state occupies a checking slot regardless of its intent. *)
Definition class_of (t : torrent) : queue_class :=
  if is_checking (state t) then checking_slot
  else if is_finished t then seeding_slot
  else downloading_slot.

(** Modelled from the spec: the limits of section 3.3 and the rate
    thresholds of section 4.1.4. A negative limit means unlimited. *)
Record limits := {
  active_downloads : Z;
  active_seeds : Z;
  active_checking : Z;
  active_limit : Z;
  dont_count_slow_torrents : bool;
  inactive_down_rate : Z;
  inactive_up_rate : Z
}.

Definition class_limit (L : limits) (c : queue_class) : Z :=
  match c with
  | checking_slot => active_checking L
  | downloading_slot => active_downloads L
  | seeding_slot => active_seeds L
  end.

(** Modelled from the spec (section 3.3): is there a slot left under
    [limit] when [used] are taken? A negative limit never binds. *)
Definition has_room (limit used : Z) : bool :=
  (limit <? 0) || (used <? limit).

(** Modelled from the spec (section 4.1.4): a torrent is slow when it is
    not checking and neither rate exceeds its threshold. With the default
    thresholds of 0 an idle torrent (both rates 0) is slow, as the
    scenarios require. *)
Definition is_slow (L : limits) (t : torrent) : bool :=
  negb (is_checking (state t))
  && (download_rate t <=? inactive_down_rate L)
  && (upload_rate t <=? inactive_up_rate L).

(** Modelled from the spec (section 4.1.4): does the torrent take a slot
    of its class? A slow torrent does not when [dont_count_slow_torrents]
    is set. *)
Definition counts_against_class (L : limits) (t : torrent) : bool :=
  negb (dont_count_slow_torrents L && is_slow L t).

(** Modelled from the spec: the alerts of section 6.2 (the alert types
    are declared outside the sources). A [torrent_resumed] alert records the queue
    class the torrent was admitted in. *)
Inductive alert_type :=
  | torrent_added
  | torrent_resumed (c : queue_class)
  | torrent_paused
  | state_changed (prev cur : state_t)
  | tracker_announce (url : string).

Record alert := {
  timestamp : Z;
  handle : nat;
  what : alert_type
}.

(** Modelled from the spec: the commands of the torrent-control hook
    (section 6.1) that change a
    torrent. *)
Inductive command := cmd_resume | cmd_pause (graceful : bool).

(** Modelled from the spec (section 4.1.3): the wall-clock time of the
    previous admission, if there was one. The pacing rule allows one torrent
    per window, of whatever class, so one time is kept for the session. *)
Record pacing := {
  last_admission : option Z
}.

(** Modelled from the spec: the pacing interval of section 4.1.3, in
    seconds. *)
Definition pacing_interval : Z := 60.

(** Modelled from the spec (section 4.1.3): may a torrent be started at
    time [now]? Not sooner than a pacing interval after the previous
    admission. *)
Definition paced_ok (p : pacing) (now : Z) : bool :=
  match last_admission p with
  | None => true
  | Some t0 => t0 + pacing_interval <=? now
  end.

(** Modelled from the spec (sections 2 and 3.4): the session, that is the
    torrents in the order they were added (a handle is
    an index in this list), the wall clock in seconds, the alert queue in
    emission order and the pacing state. *)
Record session := {
  torrents : list torrent;
  now : Z;
  alerts : list alert;
  admissions : pacing
}.

Definition empty_session : session :=
  {| torrents := []; now := 0; alerts := [];
     admissions := {| last_admission := None |} |}.

Definition post_alert (i : nat) (w : alert_type) (s : session) : session :=
  {| torrents := torrents s; now := now s;
     alerts := alerts s ++ [{| timestamp := now s; handle := i; what := w |}];
     admissions := admissions s |}.

Definition post_alerts (i : nat) (ws : list alert_type) (s : session) : session :=
  foldl (λ s w, post_alert i w s) s ws.

Definition update_torrent (i : nat) (f : torrent → torrent) (s : session) : session :=
  {| torrents := alter f i (torrents s); now := now s; alerts := alerts s;
     admissions := admissions s |}.

Definition note_admission (s : session) : session :=
  {| torrents := torrents s; now := now s; alerts := alerts s;
     admissions := {| last_admission := Some (now s) |} |}.

(** *** What a torrent does on a command *)

(** Modelled from the spec (sections 6.1 and 6.2): [resume()] takes a
    torrent from paused to active, with a [torrent_resumed] alert. *)
Definition do_resume (c : queue_class) (i : nat) (s : session) : session :=
  post_alert i (torrent_resumed c) (update_torrent i (set_paused false) s).

(** Modelled from the spec (sections 6.1 and 6.2): [pause(graceful)] takes
    a torrent from active to paused, with a [torrent_paused] alert; a
    paused torrent has stopped announcing. *)
Definition do_pause (i : nat) (s : session) : session :=
  post_alert i torrent_paused
    (update_torrent i (λ t, set_announcing false (set_paused true t)) s).

(** Modelled from the spec (section 4.1.5): a torrent announces to its
    trackers when it takes an active download or seed slot, once; a torrent
    in a checking slot does not announce. *)
Definition grant_slot (c : queue_class) (i : nat) (t : torrent) (s : session)
  : session :=
  match c with
  | checking_slot => s
  | _ =>
      if announcing t then s
      else post_alerts i (tracker_announce <$> trackers t)
             (update_torrent i (set_announcing true) s)
  end.

(** *** The decision tick (sections 4.1.1 and 4.1.3) *)

(** Modelled from the spec (section 4.1.3): the state threaded through the
    walk over the queues, that is the session, the
    number of active torrents admitted so far (against the global cap), the
    number of slots taken in the class being walked, and the commands
    issued. *)
Record walk := {
  w_session : session;
  w_active : Z;
  w_class_used : Z;
  w_issued : list (nat * command)
}.

(** Modelled from the spec (section 4.1.3): one candidate of class [c].
    With room under the class limit and the global cap the torrent is
    admitted: an active one stays active, a paused one is resumed unless the
    previous admission, of whatever class, is less than a pacing interval
    old, in which case it is deferred to a later tick. Without room an active
    torrent is paused (gracefully) and a paused one stays paused. *)
Definition visit (L : limits) (c : queue_class) (w : walk) (cand : nat * torrent)
  : walk :=
  let '(i, t) := cand in
  let s := w_session w in
  let counts := counts_against_class L t in
  let room := has_room (active_limit L) (w_active w)
              && (negb counts || has_room (class_limit L c) (w_class_used w)) in
  let taken := w_class_used w + (if counts then 1 else 0) in
  if room then
    if paused t then
      if paced_ok (admissions s) (now s) then
        {| w_session := grant_slot c i t (note_admission (do_resume c i s));
           w_active := w_active w + 1;
           w_class_used := taken;
           w_issued := w_issued w ++ [(i, cmd_resume)] |}
      else w
    else
      {| w_session := grant_slot c i t s;
         w_active := w_active w + 1;
         w_class_used := taken;
         w_issued := w_issued w |}
  else
    if paused t then w
    else
      {| w_session := do_pause i s;
         w_active := w_active w;
         w_class_used := w_class_used w;
         w_issued := w_issued w ++ [(i, cmd_pause true)] |}.

(** Modelled from the spec (section 4.1.1, step 3): stable insertion sort
    by queue position, ascending. *)
Fixpoint insert_by_position (x : nat * torrent) (l : list (nat * torrent))
  : list (nat * torrent) :=
  match l with
  | [] => [x]
  | y :: r =>
      if queue_position x.2 <? queue_position y.2 then x :: y :: r
      else y :: insert_by_position x r
  end.

Definition sort_by_position (l : list (nat * torrent)) : list (nat * torrent) :=
  foldr insert_by_position [] l.

(** Modelled from the spec (section 4.1.1, step 1): the auto-managed
    torrents with their handles. *)
Definition candidates (s : session) : list (nat * torrent) :=
  filter (λ c : nat * torrent, auto_managed c.2 = true) (imap pair (torrents s)).

(** Modelled from the spec (section 4.1.1, steps 2 and 3): the queue of
    class [c], its candidates by queue position. *)
Definition queue_of (c : queue_class) (cands : list (nat * torrent))
  : list (nat * torrent) :=
  sort_by_position (filter (λ x : nat * torrent, class_of x.2 = c) cands).

(** Modelled from the spec (section 4.1.3): walk the queue of one class;
    the class counter starts at 0. *)
Definition walk_class (L : limits) (cands : list (nat * torrent))
    (w : walk) (c : queue_class) : walk :=
  foldl (visit L c)
    {| w_session := w_session w; w_active := w_active w; w_class_used := 0;
       w_issued := w_issued w |}
    (queue_of c cands).

(** Modelled from the spec (section 4.1.1): collect the auto-managed
    torrents, partition them by class, sort each class by queue position
    and walk the classes in the order checking, downloading, seeding. *)
Definition run_tick (L : limits) (s : session) : walk :=
  foldl (walk_class L (candidates s))
    {| w_session := s; w_active := 0; w_class_used := 0; w_issued := [] |}
    [checking_slot; downloading_slot; seeding_slot].

Definition tick (L : limits) (s : session) : session := w_session (run_tick L s).

(** Modelled from the spec (section 4.1.1, step 5): the commands one tick
    issues. *)
Definition commands_of_tick (L : limits) (s : session) : list (nat * command) :=
  w_issued (run_tick L s).

(** *** The environment of the scheduler *)

(** Modelled from the spec (sections 4.1.5 and 4.1.7): a torrent that is
    checking and not paused completes its check; with all its data on disk
    it becomes a seed, otherwise a downloader. A paused torrent makes no
    progress. *)
Definition complete_check (i : nat) (s : session) : session :=
  match torrents s !! i with
  | Some t =>
      if is_checking (state t) && negb (paused t) then
        let st := if data_on_disk t then seeding else downloading in
        post_alert i (state_changed (state t) st) (update_torrent i (set_state st) s)
      else s
  | None => s
  end.

(** Modelled from the spec (section 4.1.2): the next free position at the
    end of the seeding queue. *)
Definition next_seed_position (s : session) : Z :=
  foldr (λ t acc, if is_finished t then Z.max acc (queue_position t + 1) else acc)
    0 (torrents s).

(** Modelled from the spec (sections 4.1.2 and 4.1.7): an active
    downloader that gets its last piece becomes a seed and moves to the end
    of the seeding queue. *)
Definition finish_download (i : nat) (s : session) : session :=
  match torrents s !! i with
  | Some t =>
      if bool_decide (state t = downloading) && negb (paused t) then
        post_alert i (state_changed downloading seeding)
          (update_torrent i
             (λ t, set_queue_position (next_seed_position s) (set_state seeding t)) s)
      else s
  | None => s
  end.

(** What the test passes to [async_add_torrent]: the two flags, whether
    [create_torrent] was asked for a seed (the save path holds the data),
    and the trackers. *)
Record add_params := {
  ap_auto_managed : bool;
  ap_paused : bool;
  ap_seed : bool;
  ap_trackers : list string
}.

(** Modelled from the spec (sections 4.1.2, 4.1.7 and 6.2): a torrent is
    added at the end of the queue; with data on disk it needs checking. *)
Definition add_torrent (p : add_params) (s : session) : session :=
  let i := length (torrents s) in
  post_alert i torrent_added
    {| torrents := torrents s ++
         [{| auto_managed := ap_auto_managed p;
             paused := ap_paused p;
             state := if ap_seed p then checking_files else downloading;
             queue_position := Z.of_nat i;
             download_rate := 0;
             upload_rate := 0;
             trackers := ap_trackers p;
             data_on_disk := ap_seed p;
             announcing := false |}];
       now := now s; alerts := alerts s; admissions := admissions s |}.

Definition advance (d : nat) (s : session) : session :=
  {| torrents := torrents s; now := now s + Z.of_nat d; alerts := alerts s;
     admissions := admissions s |}.

(** Modelled from the spec (sections 4.1.1, 4.1.7 and 5): what can happen
    to a session, one event at a time on its single thread. *)
Inductive event :=
  | ev_add (p : add_params)
  | ev_advance (seconds : nat)
  | ev_tick
  | ev_check_done (i : nat)
  | ev_rates (i : nat) (down up : Z)
  | ev_finished (i : nat).

Definition step (L : limits) (s : session) (e : event) : session :=
  match e with
  | ev_add p => add_torrent p s
  | ev_advance d => advance d s
  | ev_tick => tick L s
  | ev_check_done i => complete_check i s
  | ev_rates i down up => update_torrent i (set_rates down up) s
  | ev_finished i => finish_download i s
  end.

Definition run (L : limits) (evs : list event) (s : session) : session :=
  foldl (step L) s evs.

(** The alerts a step appends to the queue. *)
Definition new_alerts (L : limits) (s : session) (e : event) : list alert :=
  drop (length (alerts s)) (alerts (step L s e)).

(** *** Reading the alert queue *)

Definition is_resumed (a : alert) : bool :=
  match what a with torrent_resumed _ => true | _ => false end.

Definition is_resumed_in (c : queue_class) (a : alert) : bool :=
  match what a with torrent_resumed c' => bool_decide (c' = c) | _ => false end.

Definition is_paused_alert (a : alert) : bool :=
  match what a with torrent_paused => true | _ => false end.

Definition is_announce (a : alert) : bool :=
  match what a with tracker_announce _ => true | _ => false end.

(** The times of the [torrent_resumed] alerts of class [c], in order. *)
Definition resumed_times (c : queue_class) (l : list alert) : list Z :=
  timestamp <$> filter (λ a, is_resumed_in c a = true) l.

(** The times of all the [torrent_resumed] alerts, in order. *)
Definition all_resumed_times (l : list alert) : list Z :=
  timestamp <$> filter (λ a, is_resumed a = true) l.

(** Successive elements are at least [d] apart. *)
Fixpoint spaced (d : Z) (l : list Z) : Prop :=
  match l with
  | t1 :: ((t2 :: _) as r) => t1 + d ≤ t2 ∧ spaced d r
  | _ => True
  end.

Definition count_alerts (p : alert → bool) (s : session) : nat :=
  length (filter (λ a, p a = true) (alerts s)).

Definition num_unpaused (s : session) : nat :=
  length (filter (λ t, paused t = false) (torrents s)).

(** *** The scenarios of [test_auto_manage.cpp] *)

Definition num_torrents : nat := 10.

(** Modelled from the spec: the settings pack [settings()] of the test
    harness is not among the sources. Limits a scenario does not set are
    unlimited (the sentinel -1 of section 3.3) and the rate thresholds are
    the default 0 of section 4.1.4. *)
Definition default_settings : limits :=
  {| active_downloads := -1; active_seeds := -1; active_checking := -1;
     active_limit := -1; dont_count_slow_torrents := false;
     inactive_down_rate := 0; inactive_up_rate := 0 |}.

Definition with_limits (slow : bool) (downloads seeds checking : Z) : limits :=
  {| active_downloads := downloads; active_seeds := seeds;
     active_checking := checking; active_limit := active_limit default_settings;
     dont_count_slow_torrents := slow;
     inactive_down_rate := inactive_down_rate default_settings;
     inactive_up_rate := inactive_up_rate default_settings |}.

(** [create_torrent(idx, seed)] with the flags and trackers a setup adds. *)
Definition create_torrent (auto pause seed : bool) (trs : list string) : add_params :=
  {| ap_auto_managed := auto; ap_paused := pause; ap_seed := seed;
     ap_trackers := trs |}.

(** Modelled from the spec (section 8, "60 s tick"): [run_test] adds the
    torrents and lets the session run for [(num_torrents + 1) * 60]
    seconds. The scheduler ticks every 60 seconds; the checks of the small
    test torrents complete within the period, and the session re-evaluates
    when they do. *)
Definition period (n : nat) : list event :=
  [ev_tick] ++ (ev_check_done <$> seq 0 n) ++ [ev_tick; ev_advance 60].

Definition test_events (setup : list add_params) : list event :=
  (ev_add <$> setup) ++ mjoin (replicate (num_torrents + 1) (period (length setup))).

Definition run_test (sett : limits) (setup : list add_params) : session :=
  run sett (test_events setup) empty_session.

(** TORRENT_TEST(dont_count_slow_torrents), lines 121-178. *)
Definition test_dont_count_slow_torrents : session :=
  run_test (with_limits true 1 1 (active_checking default_settings))
    (replicate num_torrents (create_torrent true true false [])).

(** TORRENT_TEST(count_slow_torrents), lines 180-229. *)
Definition test_count_slow_torrents : session :=
  run_test (with_limits false 1 1 (active_checking default_settings))
    (replicate num_torrents (create_torrent true true false [])).

(** TORRENT_TEST(force_stopped_download), lines 231-277. *)
Definition test_force_stopped_download : session :=
  run_test (with_limits true 10 10 (active_checking default_settings))
    (replicate num_torrents (create_torrent false true false [])).

(** TORRENT_TEST(force_started), lines 279-325. *)
Definition test_force_started : session :=
  run_test (with_limits false 1 1 (active_checking default_settings))
    (replicate num_torrents (create_torrent false false false [])).


(** TORRENT_TEST(checking_announce), lines 508-567. *)
Definition test_checking_announce : session :=
  run_test (with_limits false (active_downloads default_settings) 1 1)
    (replicate num_torrents
       (create_torrent true true true ["http://10.10.0.2/announce"])).

(** *** For the statements of the properties *)
(** The torrents still to be visited are as the tick found them. *)
Definition untouched (later : list (nat * torrent)) (s' : session) : Prop :=
  ∀ j tj, (j, tj) ∈ later → torrents s' !! j = Some tj.

(** The pacing invariant of a session: the resumed alerts, of whatever
    class, are a pacing interval apart, the recorded previous admission is
    the time of the last of them, and it is not in the future. *)
Definition pacing_inv (s : session) : Prop :=
  spaced pacing_interval (all_resumed_times (alerts s))
  ∧ last_admission (admissions s) = last (all_resumed_times (alerts s))
  ∧ (∀ t, last_admission (admissions s) = Some t → t ≤ now s).

(** The torrent with the handle [i] is paused in [s] and active in [s']:
    it went from paused to active in between. *)
Definition started_between (s s' : session) (i : nat) : Prop :=
  ∃ t t', torrents s !! i = Some t ∧ paused t = true
          ∧ torrents s' !! i = Some t' ∧ paused t' = false.

(** A run with candidates of two classes at its first tick: a complete
    torrent, an incomplete one and another complete one are added paused
    and auto-managed; then three ticks follow, 60 seconds apart, and the
    checks that were started complete in between. *)
Definition mixed_events : list event :=
  [ ev_add (create_torrent true true true []);
    ev_add (create_torrent true true false []);
    ev_add (create_torrent true true true []);
    ev_tick; ev_check_done 0; ev_advance 60;
    ev_tick; ev_check_done 2; ev_advance 60;
    ev_tick ].

(** The parameters of the torrents a list of events adds, in order. *)
Definition added_params (evs : list event) : list add_params :=
  omap (λ e, match e with ev_add p => Some p | _ => None end) evs.

(** Every torrent the events add is added with [auto_managed = false]. *)
Definition all_forced (evs : list event) : Prop :=
  Forall (λ p, ap_auto_managed p = false) (added_params evs).

(** The flags of a torrent are those it was added with. *)
Definition flags_as_added (t : torrent) (p : add_params) : Prop :=
  auto_managed t = ap_auto_managed p ∧ paused t = ap_paused p.

(** One auto-managed seed with a tracker, active and not yet announcing,
    as after the completion of its check. *)
Definition checked_seed : session :=
  {| torrents := [{| auto_managed := true; paused := false; state := seeding;
                     queue_position := 0; download_rate := 0; upload_rate := 0;
                     trackers := ["http://10.10.0.2/announce"];
                     data_on_disk := true; announcing := false |}];
     now := 0; alerts := []; admissions := admissions empty_session |}.

(** What a run keeps when every torrent is added with
    [auto_managed = false]. *)
Definition forced_inv (s : session) (ps : list add_params) : Prop :=
  Forall2 flags_as_added (torrents s) ps
  ∧ Forall (λ p, ap_auto_managed p = false) ps
  ∧ Forall (λ a, is_resumed a = false ∧ is_paused_alert a = false) (alerts s).


(** The global cap leaves room for [n] active torrents. *)
Definition cap_admits (n : nat) (L : limits) : Prop :=
  active_limit L < 0 ∨ Z.of_nat n ≤ active_limit L.

(** What a tick neither reads as a flag nor writes. *)
Definition same_static (t t' : torrent) : Prop :=
  auto_managed t = auto_managed t' ∧ state t = state t'
  ∧ queue_position t = queue_position t'
  ∧ download_rate t = download_rate t' ∧ upload_rate t = upload_rate t'
  ∧ trackers t = trackers t' ∧ data_on_disk t = data_on_disk t'.

(** The sessions of the two slow-torrent scenarios: at most ten idle
    downloaders. *)
Definition idle_downloaders (s : session) : Prop :=
  (length (torrents s) ≤ num_torrents)%nat
  ∧ Forall (λ t, state t = downloading ∧ download_rate t = 0 ∧ upload_rate t = 0)
      (torrents s).

(** The sessions of the checking scenario: at most ten torrents with their
    data on disk, each checking or seeding. *)
Definition complete_seeds (s : session) : Prop :=
  (length (torrents s) ≤ num_torrents)%nat
  ∧ Forall (λ t, (state t = checking_files ∨ state t = seeding)
                 ∧ data_on_disk t = true) (torrents s).

(** *** The verification loops of the limit scenarios *)

(** The counters of the loops over the alerts at lines 359-402
    ([seed_limit]) and 449-492 ([download_limit]), and whether every
    [TEST_CHECK] met so far held. *)
Record tally := {
  num_started : Z;
  num_checking : Z;
  num_in_state : Z;
  checks_hold : bool
}.

(** The body of the loop. [target] is the state the scenario counts beside
    [checking_files]: [seeding] at line 385, [downloading] at line 475. *)
Definition tally_alert (target : state_t) (c : tally) (a : alert) : tally :=
  match what a with
  | torrent_resumed _ =>
      {| num_started := num_started c + 1; num_checking := num_checking c;
         num_in_state := num_in_state c; checks_hold := checks_hold c |}
  | torrent_paused =>
      {| num_started := num_started c - 1; num_checking := num_checking c;
         num_in_state := num_in_state c;
         checks_hold := checks_hold c && (0 <? num_started c) |}
  | state_changed prev cur =>
      let '(nc, ns) :=
        if bool_decide (prev = checking_files)
        then (num_checking c - 1, num_in_state c)
        else if bool_decide (prev = target)
             then (num_checking c, num_in_state c - 1)
             else (num_checking c, num_in_state c) in
      let '(nc, ns) :=
        if bool_decide (cur = checking_files) then (nc + 1, ns)
        else if bool_decide (cur = target) then (nc, ns + 1)
             else (nc, ns) in
      {| num_started := num_started c; num_checking := nc; num_in_state := ns;
         checks_hold := checks_hold c
                        && (num_started c <=? 3 + 1)
                        && ((num_started c <=? 1) || (0 <? ns)) |}
  | _ => c
  end.

Definition tally_alerts (target : state_t) (l : list alert) : tally :=
  foldl (tally_alert target)
    {| num_started := 0; num_checking := 0; num_in_state := 0;
       checks_hold := true |} l.

(** The sessions of the download-limit scenario, and those of a scenario
    whose torrents are all force-stopped or force-started. *)
Definition downloaders (s : session) : Prop :=
  (length (torrents s) ≤ num_torrents)%nat
  ∧ Forall (λ t, state t = downloading) (torrents s).

Definition none_managed (s : session) : Prop :=
  Forall (λ t, auto_managed t = false) (torrents s).

End Sched.

(* ===================================================================== *)
(** * Part II: properties *)
(* ===================================================================== *)

(** ** Lookups through the statements of the codec *)

Module EntryFacts.
Import Entry.

Lemma find_undefined k : entry_find k undefined_t = None.
Proof. reflexivity. Qed.

Lemma find_set_eq k v e : entry_find k (entry_set k v e) = Some v.
Proof. unfold entry_find, entry_set; simpl. apply lookup_insert_eq. Qed.

Lemma find_set_ne k k' v e :
  k ≠ k' → entry_find k (entry_set k' v e) = entry_find k e.
Proof. intros Hne. unfold entry_find, entry_set; simpl. by apply lookup_insert_ne. Qed.

Lemma entry_at_find k e : entry_at k e = default undefined_t (entry_find k e).
Proof. reflexivity. Qed.

Lemma find_list_append_eq k xs e :
  entry_find k (entry_list_append k xs e)
  = Some (list_t (entry_list (default undefined_t (entry_find k e)) ++ xs)).
Proof. unfold entry_list_append. by rewrite find_set_eq. Qed.

Lemma find_string_append_eq k s e :
  entry_find k (entry_string_append k s e)
  = Some (string_t (entry_string (default undefined_t (entry_find k e)) +:+ s)).
Proof. unfold entry_string_append. by rewrite find_set_eq. Qed.

Lemma preserves_id k : preserves k (λ e, e).
Proof. by intros e. Qed.

Lemma preserves_set k k' v : k ≠ k' → preserves k (entry_set k' v).
Proof. intros Hne e. by apply find_set_ne. Qed.

Lemma preserves_list_append k k' xs : k ≠ k' → preserves k (entry_list_append k' xs).
Proof. intros Hne e. unfold entry_list_append. by apply find_set_ne. Qed.

Lemma preserves_string_append k k' s :
  k ≠ k' → preserves k (entry_string_append k' s).
Proof. intros Hne e. unfold entry_string_append. by apply find_set_ne. Qed.

Lemma preserves_when k c f : preserves k f → preserves k (when c f).
Proof. intros Hf e. unfold when. destruct c; [apply Hf | done]. Qed.

Lemma preserves_when_false k c f : c = false → preserves k (when c f).
Proof. intros -> e. done. Qed.

Lemma preserves_comp k f g :
  preserves k f → preserves k g → preserves k (λ e, g (f e)).
Proof. intros Hf Hg e. by rewrite Hg, Hf. Qed.

(** A statement that writes [k'] through a computed value. *)
Lemma preserves_set_fun k k' (v : entry → entry) :
  k ≠ k' → preserves k (λ e, entry_set k' (v e) e).
Proof. intros Hne e. by apply find_set_ne. Qed.

Lemma string_length_of_list (l : list Ascii.ascii) :
  String.length (String.string_of_list_ascii l) = length l.
Proof. induction l as [|a l IH]; simpl; [done | by rewrite IH]. Qed.

Lemma string_get_of_list (l : list Ascii.ascii) (i : nat) :
  String.get i (String.string_of_list_ascii l) = l !! i.
Proof.
  revert i. induction l as [|a l IH]; intros [|i]; simpl; done.
Qed.

End EntryFacts.

(** ** The resume-data codec *)

Module CodecFacts.
Import Entry Codec EntryFacts.

#[local] Notation "e |> f" := (f e) (at level 68, left associativity, only parsing).

Lemma find_when k c f e :
  preserves k f → entry_find k (when c f e) = entry_find k e.
Proof. intros Hf. by apply preserves_when. Qed.

Lemma find_list_append_ne k k' xs e :
  k ≠ k' → entry_find k (entry_list_append k' xs e) = entry_find k e.
Proof. intros. by apply preserves_list_append. Qed.

Lemma find_string_append_ne k k' s e :
  k ≠ k' → entry_find k (entry_string_append k' s e) = entry_find k e.
Proof. intros. by apply preserves_string_append. Qed.

(** Turn [k ∉ [k1; ...; kn]] into the disequalities [k ≠ ki]. *)
Ltac split_notin H :=
  repeat (apply not_elem_of_cons in H as [? H]); clear H.

(** A literal key is, or is not, one of a literal list of keys. *)
Ltac key_in :=
  unfold torrent_keys, info_keys, list_keys, scalar_keys, state_keys; simpl;
  repeat first [apply list_elem_of_here | apply list_elem_of_further].

Ltac key_notin :=
  unfold torrent_keys, info_keys, list_keys, scalar_keys, state_keys; simpl;
  repeat (apply not_elem_of_cons; split; [done|]); apply not_elem_of_nil.

(** Push a lookup of a key through the statements that write other keys. *)
Ltac find_skip :=
  repeat first
    [ rewrite find_set_ne by done
    | rewrite find_list_append_ne by done
    | rewrite find_string_append_ne by done
    | rewrite find_when by
        first [ apply preserves_set; done
              | apply preserves_list_append; done
              | apply preserves_string_append; done ] ].

Section WithExternals.
Context `{Ext : Externals}.
Implicit Types (atp : add_torrent_params) (e ret : entry) (k : string).

Lemma preserves_write_info info k : k ∉ info_keys → preserves k (write_info info).
Proof.
  intros Hk e. unfold info_keys in Hk. split_notin Hk.
  unfold write_info. by find_skip.
Qed.

Lemma preserves_write_announce atp k :
  k ≠ "announce" → k ≠ "announce-list" → preserves k (write_announce atp).
Proof.
  intros H1 H2 e. unfold write_announce.
  destruct (trackers atp) as [|tr [|tr' trs]]; by find_skip.
Qed.

Lemma preserves_write_peer_lists k k4 k6 ps :
  k ≠ k4 → k ≠ k6 → preserves k (write_peer_lists k4 k6 ps).
Proof.
  intros H4 H6 e. unfold write_peer_lists.
  destruct (write_endpoints _ _ _) as [s s6]. by find_skip.
Qed.

Lemma preserves_write_resume_lists atp trees k :
  k ∉ list_keys → k ≠ "announce" → k ≠ "announce-list" →
  preserves k (write_resume_lists atp trees).
Proof.
  intros Hk Ha Hal e. unfold list_keys in Hk. split_notin Hk.
  unfold write_resume_lists. find_skip.
  destruct (trackers atp) as [|tr [|tr' trs]]; find_skip; by find_skip.
Qed.

Lemma preserves_write_resume_scalars atp k :
  k ∉ scalar_keys → preserves k (write_resume_scalars atp).
Proof.
  intros Hk e. unfold scalar_keys in Hk. split_notin Hk.
  unfold write_resume_scalars. by find_skip.
Qed.

Lemma preserves_write_resume_state atp k :
  k ∉ state_keys → preserves k (write_resume_state atp).
Proof.
  intros Hk e. unfold state_keys in Hk. split_notin Hk.
  unfold write_resume_state. find_skip.
  rewrite !find_when.
  - by find_skip.
  - by apply preserves_set_fun with (v := λ ret, list_t _).
  - by apply preserves_write_peer_lists.
  - by apply preserves_write_peer_lists.
Qed.

(** The two entry points, unfolded. *)
Lemma write_torrent_file_eq atp : write_torrent_file atp = write_torrent_fields atp.
Proof. reflexivity. Qed.

Lemma write_resume_data_eq atp :
  write_resume_data atp
  = write_torrent_fields atp
    |> write_resume_lists atp (ret_trees_of atp)
    |> write_resume_scalars atp
    |> write_resume_state atp.
Proof. reflexivity. Qed.

(** The .torrent part writes the keys of [torrent_keys] only. *)
Lemma find_torrent_fields_other atp k :
  k ∉ torrent_keys → entry_find k (write_torrent_fields atp) = None.
Proof.
  intros Hk. unfold torrent_keys, info_keys in Hk. simpl in Hk.
  assert (k ∉ info_keys) as Hinfo.
  { unfold info_keys. intros Hin. apply Hk.
    repeat (apply elem_of_cons in Hin as [->|Hin]); [key_in..|by apply elem_of_nil in Hin]. }
  split_notin Hk. unfold write_torrent_fields.
  etrans; [by apply preserves_write_announce|]. find_skip.
  destruct (ti atp) as [info|]; [|done].
  etrans; [by apply preserves_write_info|]. done.
Qed.

Lemma torrent_fields_keys atp k v :
  entry_find k (write_torrent_fields atp) = Some v → k ∈ torrent_keys.
Proof.
  intros Hf. destruct (decide (k ∈ torrent_keys)) as [|Hn]; [done|].
  by rewrite find_torrent_fields_other in Hf.
Qed.

(** The resume part leaves alone every key it does not write. *)
Lemma find_resume_other atp k :
  k ∉ list_keys → k ∉ scalar_keys → k ∉ state_keys →
  entry_find k (write_resume_data atp) = entry_find k (write_torrent_file atp).
Proof.
  intros Hl Hs Hst. rewrite write_resume_data_eq.
  change (write_torrent_file atp) with (write_torrent_fields atp).
  etrans; [by apply preserves_write_resume_state|].
  etrans; [by apply preserves_write_resume_scalars|].
  destruct (decide (k = "announce")) as [->|Ha];
    [|destruct (decide (k = "announce-list")) as [->|Hal]].
  - unfold write_resume_lists. find_skip.
    destruct (trackers atp) as [|tr [|tr' trs]]; by find_skip.
  - unfold write_resume_lists. find_skip.
    destruct (trackers atp) as [|tr [|tr' trs]]; by find_skip.
  - by apply preserves_write_resume_lists.
Qed.

(** A key written by the unconditional block is read back after the
    state block, which writes other keys. *)
Lemma find_resume_scalar atp k :
  k ∈ scalar_keys →
  entry_find k (write_resume_data atp)
  = entry_find k (write_resume_scalars atp
                    (write_resume_lists atp (ret_trees_of atp)
                       (write_torrent_fields atp))).
Proof.
  intros Hk. rewrite write_resume_data_eq.
  apply preserves_write_resume_state.
  unfold scalar_keys in Hk. unfold state_keys.
  repeat (apply elem_of_cons in Hk as [->|Hk]);
    [key_notin..|by apply elem_of_nil in Hk].
Qed.

(** C5. Whatever the add_torrent_params, the dictionary written by
    [write_resume_data] maps "file-format" to the string "libtorrent resume
    file" and "file-version" to the integer 1, and the dictionary written by
    [write_torrent_file] has neither key. *)
Theorem resume_identity_keys atp :
  entry_find "file-format" (write_resume_data atp)
    = Some (string_t "libtorrent resume file")
  ∧ entry_find "file-version" (write_resume_data atp) = Some (int_t 1)
  ∧ entry_find "file-format" (write_torrent_file atp) = None
  ∧ entry_find "file-version" (write_torrent_file atp) = None.
Proof.
  repeat split.
  - rewrite find_resume_scalar by key_in.
    unfold write_resume_scalars. find_skip. apply find_set_eq.
  - rewrite find_resume_scalar by key_in.
    unfold write_resume_scalars. find_skip. apply find_set_eq.
  - change (write_torrent_file atp) with (write_torrent_fields atp).
    apply find_torrent_fields_other. key_notin.
  - change (write_torrent_file atp) with (write_torrent_fields atp).
    apply find_torrent_fields_other. key_notin.
Qed.

(** *** The [pieces] string *)

Lemma write_have_length (bits : list bool) (piece : nat) (pieces : list Ascii.ascii) :
  length (write_have bits piece pieces) = length pieces.
Proof.
  revert piece pieces. induction bits as [|b r IH]; intros piece pieces; simpl;
    [done|]. by rewrite IH, length_insert.
Qed.

Lemma write_verified_length (bits : list bool) (piece : nat) (pieces : list Ascii.ascii) :
  length (write_verified bits piece pieces) = length pieces.
Proof.
  revert piece pieces. induction bits as [|b r IH]; intros piece pieces; simpl;
    [done|]. by rewrite IH, length_alter.
Qed.

(** The first loop stores [bit ? 1 : 0] at the positions it visits. *)
Lemma write_have_lookup (bits : list bool) (piece : nat) (pieces : list Ascii.ascii) (i : nat) :
  write_have bits piece pieces !! i
  = if decide (piece ≤ i < piece + length bits ∧ i < length pieces)%nat
    then (λ bit : bool, Ascii.ascii_of_N (if bit then 1 else 0)) <$> bits !! (i - piece)%nat
    else pieces !! i.
Proof.
  revert piece pieces. induction bits as [|b r IH]; intros piece pieces; simpl.
  { case_decide; [lia|done]. }
  rewrite IH, length_insert.
  destruct (decide (i = piece)) as [->|Hne].
  - rewrite Nat.sub_diag. simpl.
    case_decide; [lia|]. case_decide.
    + rewrite list_lookup_insert_eq by lia. done.
    + rewrite list_insert_ge by lia. done.
  - rewrite list_lookup_insert_ne by done.
    case_decide; case_decide; try lia; [|done].
    replace (i - piece)%nat with (S (i - S piece)) by lia. done.
Qed.

(** The second loop ors [bit ? 2 : 0] into the positions it visits. *)
Lemma write_verified_lookup (bits : list bool) (piece : nat)
    (pieces : list Ascii.ascii) (i : nat) :
  write_verified bits piece pieces !! i
  = (λ c, match bits !! (i - piece)%nat with
          | Some bit =>
              if decide (piece ≤ i)%nat
              then Ascii.ascii_of_N
                     (N.lor (Ascii.N_of_ascii c) (if bit : bool then 2 else 0))
              else c
          | None => c
          end) <$> pieces !! i.
Proof.
  revert piece pieces. induction bits as [|b r IH]; intros piece pieces; simpl.
  { by destruct (pieces !! i). }
  rewrite IH.
  destruct (decide (i = piece)) as [->|Hne].
  - rewrite Nat.sub_diag. simpl. rewrite list_lookup_alter_eq.
    replace (piece - S piece)%nat with 0%nat by lia.
    destruct (pieces !! piece) as [c|]; simpl; [|done].
    rewrite (decide_True (P := (piece ≤ piece)%nat)) by lia.
    destruct (r !! 0%nat); [|done].
    by rewrite (decide_False (P := (S piece ≤ piece)%nat)) by lia.
  - rewrite list_lookup_alter_ne by done.
    destruct (pieces !! i) as [c|]; simpl; [|done]. f_equal.
    destruct (decide (piece ≤ i)%nat) as [Hle|Hgt].
    + replace (i - piece)%nat with (S (i - S piece)) by lia. simpl.
      destruct (r !! (i - S piece)%nat); [|done].
      by rewrite (decide_True (P := (S piece ≤ i)%nat)) by lia.
    + destruct (r !! (i - S piece)%nat);
        [rewrite (decide_False (P := (S piece ≤ i)%nat)) by lia|];
        by destruct ((b :: r) !! (i - piece)%nat).
Qed.

(** The two bits of a byte after both loops. *)
Lemma have_bit_of_byte (have verified : bool) :
  let c := Ascii.ascii_of_N
             (N.lor (Ascii.N_of_ascii (Ascii.ascii_of_N (if have then 1 else 0)))
                (if verified then 2 else 0)) in
  N.testbit (Ascii.N_of_ascii c) 0 = have ∧ N.testbit (Ascii.N_of_ascii c) 1 = verified.
Proof. by destruct have, verified. Qed.

Lemma resize_string_nil n : resize_string [] n = replicate n Ascii.zero.
Proof. unfold resize_string. by rewrite take_nil, Nat.sub_0_r. Qed.

(** Byte [i] of the string built by lines 286-302, starting from the empty
    string [ret["pieces"].string()] of a key that is new. *)
Lemma write_pieces_lookup atp i :
  (i < length (have_pieces atp) `max` length (verified_pieces atp))%nat →
  write_pieces atp [] !! i
  = Some (Ascii.ascii_of_N
            (N.lor (Ascii.N_of_ascii
                      (Ascii.ascii_of_N
                         (if default false (have_pieces atp !! i) then 1 else 0)))
               (if default false (verified_pieces atp !! i) then 2 else 0))).
Proof.
  intros Hi. unfold write_pieces. rewrite resize_string_nil.
  rewrite write_verified_lookup, write_have_lookup.
  rewrite length_replicate, !Nat.sub_0_r.
  rewrite lookup_replicate_2 by done.
  destruct (have_pieces atp !! i) as [h|] eqn:Hh;
    destruct (verified_pieces atp !! i) as [v|] eqn:Hv; simpl.
  - apply lookup_lt_Some in Hh. by rewrite decide_True by lia.
  - apply lookup_lt_Some in Hh. rewrite decide_True by lia. simpl.
    by destruct h.
  - apply lookup_ge_None in Hh. by rewrite decide_False by lia.
  - apply lookup_ge_None in Hh. apply lookup_ge_None in Hv. lia.
Qed.

Lemma write_pieces_length atp :
  length (write_pieces atp [])
  = (length (have_pieces atp) `max` length (verified_pieces atp))%nat.
Proof.
  unfold write_pieces. rewrite resize_string_nil.
  by rewrite write_verified_length, write_have_length, length_replicate.
Qed.

(** No statement before line 286 writes the key "pieces". *)
Lemma find_pieces_eq atp :
  entry_find "pieces" (write_resume_data atp)
  = Some (string_t (String.string_of_list_ascii (write_pieces atp []))).
Proof.
  rewrite write_resume_data_eq. unfold write_resume_state. find_skip.
  rewrite !find_when;
    [|by apply preserves_set_fun with (v := λ ret, list_t _)
     |by apply preserves_write_peer_lists..].
  rewrite find_set_eq. do 4 f_equal.
  rewrite entry_at_find. find_skip.
  assert (entry_find "pieces"
            (write_resume_scalars atp
               (write_resume_lists atp (ret_trees_of atp) (write_torrent_fields atp)))
          = None) as ->; [|done].
  etrans; [apply preserves_write_resume_scalars; key_notin|].
  etrans; [apply preserves_write_resume_lists; [key_notin|done..]|].
  apply find_torrent_fields_other. key_notin.
Qed.

(** C6. The "pieces" entry of the resume data is a byte string with one
    byte per piece, as many as the longer of the two bitfields has bits; in
    byte [i], bit 0 is set exactly when piece [i] is in [have_pieces] and
    bit 1 exactly when it is in [verified_pieces]. *)
Theorem pieces_encoding atp :
  ∃ s : string,
    entry_find "pieces" (write_resume_data atp) = Some (string_t s)
    ∧ String.length s
      = (length (have_pieces atp) `max` length (verified_pieces atp))%nat
    ∧ ∀ i, (i < String.length s)%nat →
        ∃ c, String.get i s = Some c
           ∧ (N.testbit (Ascii.N_of_ascii c) 0 = true
              ↔ have_pieces atp !! i = Some true)
           ∧ (N.testbit (Ascii.N_of_ascii c) 1 = true
              ↔ verified_pieces atp !! i = Some true).
Proof.
  eexists. split; [apply find_pieces_eq|].
  rewrite string_length_of_list, write_pieces_length. split; [done|].
  intros i Hi. eexists. rewrite string_get_of_list.
  split; [by apply write_pieces_lookup|].
  destruct (have_bit_of_byte (default false (have_pieces atp !! i))
              (default false (verified_pieces atp !! i))) as [-> ->].
  split.
  - destruct (have_pieces atp !! i) as [[]|]; simpl; split; done.
  - destruct (verified_pieces atp !! i) as [[]|]; simpl; split; done.
Qed.

(** *** What each .torrent key holds *)

(** Outside the keys of [write_info], the dictionary is empty after
    lines 59-69. *)
Lemma find_info_base atp k :
  k ∉ info_keys →
  entry_find k
    (match ti atp with
     | Some info => write_info info undefined_t
     | None => undefined_t
     end) = None.
Proof.
  intros Hk. destruct (ti atp) as [info|]; [|done].
  etrans; [by apply preserves_write_info|]. done.
Qed.

Ltac find_none := find_skip; apply find_info_base; key_notin.

Lemma find_url_list_torrent atp :
  entry_find "url-list" (write_torrent_file atp)
  = if bool_decide (url_seeds atp = []) then None
    else Some (list_t (string_t <$> url_seeds atp)).
Proof.
  change (write_torrent_file atp) with (write_torrent_fields atp).
  unfold write_torrent_fields.
  etrans; [by apply preserves_write_announce|]. find_skip.
  unfold when at 1. case_bool_decide; simpl.
  - find_none.
  - rewrite find_list_append_eq.
    assert (∀ X, X = None → entry_list (default undefined_t X) = []) as Hd
      by (by intros ? ->).
    rewrite Hd; [done|find_none].
Qed.

Lemma find_httpseeds_torrent atp :
  entry_find "httpseeds" (write_torrent_file atp)
  = if bool_decide (http_seeds atp = []) then None
    else Some (list_t (string_t <$> http_seeds atp)).
Proof.
  change (write_torrent_file atp) with (write_torrent_fields atp).
  unfold write_torrent_fields.
  etrans; [by apply preserves_write_announce|]. find_skip.
  unfold when at 1. case_bool_decide; simpl.
  - find_none.
  - rewrite find_list_append_eq.
    assert (∀ X, X = None → entry_list (default undefined_t X) = []) as Hd
      by (by intros ? ->).
    rewrite Hd; [done|find_none].
Qed.

Lemma find_name_torrent atp :
  entry_find "name" (write_torrent_file atp)
  = if bool_decide (name atp = "") then None else Some (string_t (name atp)).
Proof.
  change (write_torrent_file atp) with (write_torrent_fields atp).
  unfold write_torrent_fields.
  etrans; [by apply preserves_write_announce|].
  unfold when at 1. case_bool_decide; simpl.
  - find_none.
  - apply find_set_eq.
Qed.

Lemma find_announce_torrent atp :
  entry_find "announce" (write_torrent_file atp)
  = match trackers atp with [tr] => Some (string_t tr) | _ => None end.
Proof.
  change (write_torrent_file atp) with (write_torrent_fields atp).
  unfold write_torrent_fields, write_announce.
  destruct (trackers atp) as [|tr [|tr' trs]].
  - find_none.
  - apply find_set_eq.
  - find_none.
Qed.

Lemma find_announce_list_torrent atp :
  entry_find "announce-list" (write_torrent_file atp)
  = match trackers atp with
    | [] | [_] => None
    | _ => Some (list_t (write_tiers (trackers atp) (tracker_tiers atp) 0 [list_t []]))
    end.
Proof.
  change (write_torrent_file atp) with (write_torrent_fields atp).
  unfold write_torrent_fields, write_announce.
  destruct (trackers atp) as [|tr [|tr' trs]].
  - find_none.
  - find_none.
  - rewrite find_set_eq, entry_at_find.
    assert (∀ X, X = None → entry_list (default undefined_t X) = []) as Hd
      by (by intros ? ->).
    rewrite Hd; [done|find_none].
Qed.

Lemma find_piece_layers_torrent atp :
  entry_find "piece layers" (write_torrent_file atp)
  = if bool_decide (piece_layers_of atp = ∅) then None
    else Some (dictionary_t (piece_layers_of atp)).
Proof.
  change (write_torrent_file atp) with (write_torrent_fields atp).
  unfold write_torrent_fields.
  etrans; [by apply preserves_write_announce|]. find_skip.
  assert (merkle_trees atp = [] → piece_layers_of atp = ∅) as Hempty.
  { intros Hm. unfold piece_layers_of. by rewrite Hm. }
  unfold when. repeat case_bool_decide; simpl.
  - find_none.
  - by destruct Hempty.
  - find_none.
  - apply find_set_eq.
Qed.

Lemma find_info_torrent atp :
  entry_find "info" (write_torrent_file atp)
  = (λ info, preformatted_t (info_section info)) <$> ti atp.
Proof.
  change (write_torrent_file atp) with (write_torrent_fields atp).
  unfold write_torrent_fields.
  etrans; [by apply preserves_write_announce|]. find_skip.
  destruct (ti atp) as [info|]; [|done].
  unfold write_info. find_skip. apply find_set_eq.
Qed.

Lemma find_comment_torrent atp :
  entry_find "comment" (write_torrent_file atp)
  = info ← ti atp;
    if bool_decide (comment info = "") then None else Some (string_t (comment info)).
Proof.
  change (write_torrent_file atp) with (write_torrent_fields atp).
  unfold write_torrent_fields.
  etrans; [by apply preserves_write_announce|]. find_skip.
  destruct (ti atp) as [info|]; [|done]. simpl.
  unfold write_info. find_skip.
  unfold when. case_bool_decide; simpl; [by find_skip|apply find_set_eq].
Qed.

Lemma find_creation_date_torrent atp :
  entry_find "creation date" (write_torrent_file atp)
  = info ← ti atp;
    if creation_date info =? 0 then None else Some (int_t (creation_date info)).
Proof.
  change (write_torrent_file atp) with (write_torrent_fields atp).
  unfold write_torrent_fields.
  etrans; [by apply preserves_write_announce|]. find_skip.
  destruct (ti atp) as [info|]; [|done]. simpl.
  unfold write_info. find_skip.
  unfold when at 1. destruct (creation_date info =? 0); simpl;
    [by find_skip|apply find_set_eq].
Qed.

Lemma find_created_by_torrent atp :
  entry_find "created by" (write_torrent_file atp)
  = info ← ti atp;
    if bool_decide (creator info = "") then None else Some (string_t (creator info)).
Proof.
  change (write_torrent_file atp) with (write_torrent_fields atp).
  unfold write_torrent_fields.
  etrans; [by apply preserves_write_announce|]. find_skip.
  destruct (ti atp) as [info|]; [|done]. simpl.
  unfold write_info.
  unfold when at 1. case_bool_decide; simpl; [by find_skip|apply find_set_eq].
Qed.

(** *** What the resume-only keys hold *)

Ltac find_skip_state :=
  repeat first
    [ progress find_skip
    | rewrite find_when by (apply preserves_write_peer_lists; done)
    | rewrite find_when by (apply preserves_set_fun; done) ].

Lemma entry_list_absent (X : option entry) :
  X = None → entry_list (default undefined_t X) = [].
Proof. by intros ->. Qed.

Lemma entry_string_absent (X : option entry) :
  X = None → entry_string (default undefined_t X) = "".
Proof. by intros ->. Qed.

(** Lookups in the result of lines 193-213. *)
Lemma find_resume_lists atp k :
  k ∈ list_keys →
  entry_find k (write_resume_data atp)
  = entry_find k (write_resume_lists atp (ret_trees_of atp) (write_torrent_fields atp)).
Proof.
  intros Hk. rewrite write_resume_data_eq.
  assert ((k ∉ state_keys) ∧ (k ∉ scalar_keys)) as [? ?].
  { unfold list_keys in Hk.
    repeat (apply elem_of_cons in Hk as [->|Hk]);
      [split; key_notin..|by apply elem_of_nil in Hk]. }
  etrans; [by apply preserves_write_resume_state|].
  by apply preserves_write_resume_scalars.
Qed.

Lemma find_url_list_resume atp :
  entry_find "url-list" (write_resume_data atp)
  = Some (list_t (string_t <$> url_seeds atp)).
Proof.
  rewrite find_resume_lists by key_in. unfold write_resume_lists. find_skip.
  pose proof (find_url_list_torrent atp) as Ht.
  change (write_torrent_file atp) with (write_torrent_fields atp) in Ht.
  unfold when at 1. case_bool_decide as Hu; simpl.
  - rewrite find_list_append_eq, entry_list_absent; [by rewrite Hu|].
    destruct (trackers atp) as [|tr [|tr' trs]]; by find_skip.
  - destruct (trackers atp) as [|tr [|tr' trs]]; by find_skip.
Qed.

Lemma find_httpseeds_resume atp :
  entry_find "httpseeds" (write_resume_data atp)
  = Some (list_t (string_t <$> http_seeds atp)).
Proof.
  rewrite find_resume_lists by key_in. unfold write_resume_lists.
  pose proof (find_httpseeds_torrent atp) as Ht.
  change (write_torrent_file atp) with (write_torrent_fields atp) in Ht.
  unfold when at 1. case_bool_decide as Hu; simpl.
  - rewrite find_list_append_eq, entry_list_absent; [by rewrite Hu|].
    find_skip. destruct (trackers atp) as [|tr [|tr' trs]]; by find_skip.
  - find_skip. destruct (trackers atp) as [|tr [|tr' trs]]; by find_skip.
Qed.

(** The "trackers" view (lines 196-205). *)
Lemma find_trackers_resume atp :
  entry_find "trackers" (write_resume_data atp)
  = Some (list_t
            match trackers atp with
            | [] => []
            | [tr] => [list_t [string_t tr]]
            | _ => write_tiers (trackers atp) (tracker_tiers atp) 0 [list_t []]
            end).
Proof.
  rewrite find_resume_lists by key_in. unfold write_resume_lists. find_skip.
  pose proof (find_announce_torrent atp) as Ha.
  pose proof (find_announce_list_torrent atp) as Hal.
  change (write_torrent_file atp) with (write_torrent_fields atp) in Ha, Hal.
  destruct (trackers atp) as [|tr [|tr' trs]].
  - rewrite find_list_append_eq, entry_list_absent; [done|].
    find_skip. apply find_torrent_fields_other. key_notin.
  - rewrite find_list_append_eq, entry_list_absent.
    + rewrite entry_at_find. find_skip. by rewrite Ha.
    + find_skip. apply find_torrent_fields_other. key_notin.
  - rewrite find_set_eq, entry_at_find. find_skip. by rewrite Hal.
Qed.

Lemma find_trees_resume atp :
  entry_find "trees" (write_resume_data atp)
  = if bool_decide (merkle_trees atp = []) then None
    else Some (list_t (ret_trees_of atp)).
Proof.
  rewrite find_resume_lists by key_in. unfold write_resume_lists. find_skip.
  assert (∀ X, entry_find "trees"
                 (match trackers atp with
                  | [] => entry_list_append "trackers" [] X
                  | [_] => entry_list_append "trackers" [list_t [entry_at "announce" X]] X
                  | _ => entry_set "trackers" (entry_at "announce-list" X) X
                  end) = entry_find "trees" X) as ->.
  { intros X. destruct (trackers atp) as [|tr [|tr' trs]]; by find_skip. }
  unfold when. case_bool_decide; simpl.
  - apply find_torrent_fields_other. key_notin.
  - apply find_set_eq.
Qed.

(** Lookups of the keys of lines 267-364. *)
Lemma find_resume_state_base atp k :
  k ∈ state_keys →
  entry_find k
    (write_resume_scalars atp
       (write_resume_lists atp (ret_trees_of atp) (write_torrent_fields atp)))
  = None.
Proof.
  intros Hk.
  assert ((k ∉ scalar_keys) ∧ (k ∉ list_keys) ∧ (k ∉ torrent_keys)
          ∧ k ≠ "announce" ∧ k ≠ "announce-list") as (? & ? & ? & ? & ?).
  { unfold state_keys in Hk.
    repeat (apply elem_of_cons in Hk as [->|Hk]);
      [(split; [key_notin|split; [key_notin|split; [key_notin|done]]])..
      |by apply elem_of_nil in Hk]. }
  etrans; [by apply preserves_write_resume_scalars|].
  etrans; [by apply preserves_write_resume_lists|].
  by apply find_torrent_fields_other.
Qed.

Lemma is_Some_iff_true {A} (o : option A) (b : bool) :
  o = (if b then o else None) → (b = true → is_Some o) → is_Some o ↔ b = true.
Proof.
  intros Ho Hs. split; [|done]. destruct b; [done|].
  rewrite Ho. by intros [x Hx].
Qed.

(** The unconditional block and everything before it do not hold the
    keys of the state block; each statement of the state block is the only
    one to write its key. *)
Lemma find_state_key k (c : bool) (f : entry → entry) X :
  (∀ e, is_Some (entry_find k (f e))) →
  (entry_find k X = None) →
  is_Some (entry_find k (when c f X)) ↔ c = true.
Proof.
  intros Hf HX. unfold when. destruct c.
  - split; [done|]. intros _. apply Hf.
  - rewrite HX. split; [by intros [x Hx]|done].
Qed.

Lemma find_peer_lists_some k4 k6 ps e k :
  k = k4 ∨ k = k6 → is_Some (entry_find k (write_peer_lists k4 k6 ps e)).
Proof.
  intros Hk. unfold write_peer_lists.
  destruct (write_endpoints _ _ _) as [s s6].
  destruct (decide (k = k6)) as [->|Hne].
  - rewrite find_set_eq. by eexists.
  - destruct Hk as [-> | ->]; [|done]. rewrite find_set_ne, find_set_eq by done.
    by eexists.
Qed.

(** Presence of the keys of lines 267-364. *)
Lemma resume_state_presence atp :
  let R := write_resume_data atp in
  (is_Some (entry_find "unfinished" R)
     ↔ negb (bool_decide (unfinished_pieces atp = [])) = true)
  ∧ (is_Some (entry_find "mapped_files" R)
     ↔ negb (bool_decide (renamed_files atp = [])) = true)
  ∧ (is_Some (entry_find "peers" R) ↔ negb (bool_decide (peers atp = [])) = true)
  ∧ (is_Some (entry_find "peers6" R) ↔ negb (bool_decide (peers atp = [])) = true)
  ∧ (is_Some (entry_find "banned_peers" R)
     ↔ negb (bool_decide (banned_peers atp = [])) = true)
  ∧ (is_Some (entry_find "banned_peers6" R)
     ↔ negb (bool_decide (banned_peers atp = [])) = true)
  ∧ (is_Some (entry_find "file_priority" R)
     ↔ negb (bool_decide (file_priorities atp = [])) = true)
  ∧ (is_Some (entry_find "piece_priority" R)
     ↔ negb (bool_decide (piece_priorities atp = [])) = true).
Proof.
  intros R. subst R. rewrite write_resume_data_eq. unfold write_resume_state.
  split_and!.
  all: find_skip_state.
  all: try (apply find_state_key).
  all: try (intros e; first
              [ rewrite find_list_append_eq; by eexists
              | rewrite find_string_append_eq; by eexists
              | rewrite find_set_eq; by eexists
              | apply find_peer_lists_some; by eauto ]).
  all: find_skip_state; try (apply find_resume_state_base; key_in).
Qed.

Lemma find_url_resume atp :
  is_Some (entry_find "url" (write_resume_data atp))
  ↔ (TORRENT_ABI_VERSION =? 1) && negb (bool_decide (url atp = "")) = true.
Proof.
  rewrite find_resume_scalar by key_in. unfold write_resume_scalars. find_skip.
  apply find_state_key.
  - intros e. rewrite find_set_eq. by eexists.
  - find_skip. etrans; [apply preserves_write_resume_lists; [key_notin|done..]|].
    apply find_torrent_fields_other. key_notin.
Qed.

(** The keys of the .torrent part other than the web-seed lists read the
    same in both modes. *)
Lemma find_resume_torrent_key atp k :
  k ∈ torrent_keys → k ≠ "url-list" → k ≠ "httpseeds" →
  entry_find k (write_resume_data atp) = entry_find k (write_torrent_file atp).
Proof.
  intros Hk Hu Hh. unfold torrent_keys, info_keys in Hk. simpl in Hk.
  repeat (apply elem_of_cons in Hk as [->|Hk]); try done;
    [(apply find_resume_other; key_notin)..|by apply elem_of_nil in Hk].
Qed.

(** The keys written unconditionally are present. *)
Lemma always_keys_present atp k :
  k ∈ always_keys → is_Some (entry_find k (write_resume_data atp)).
Proof.
  intros Hk. unfold always_keys in Hk.
  repeat (apply elem_of_cons in Hk as [->|Hk]); [..|by apply elem_of_nil in Hk].
  1: by (rewrite find_url_list_resume; eexists).
  1: by (rewrite find_httpseeds_resume; eexists).
  1: by (rewrite find_trackers_resume; eexists).
  all: try (rewrite find_resume_scalar by key_in; unfold write_resume_scalars;
            find_skip; rewrite find_set_eq; by eexists).
  1: by (rewrite find_pieces_eq; eexists).
  all: rewrite write_resume_data_eq; unfold write_resume_state;
       find_skip_state; rewrite find_set_eq; by eexists.
Qed.

Lemma is_Some_Some_iff {A} (x : A) (P : Prop) : P → is_Some (Some x) ↔ P.
Proof. intros HP. split; [done|by eexists]. Qed.

Lemma is_Some_None_iff {A} (P : Prop) : ¬ P → is_Some (@None A) ↔ P.
Proof. intros HP. split; [by intros [x Hx]|done]. Qed.

Ltac presence :=
  simpl;
  first [ apply is_Some_Some_iff; first [done | by eexists | simpl; lia]
        | apply is_Some_None_iff; first [done | by intros [x Hx] | simpl; lia] ].

(** Presence of the conditional keys. *)
Lemma optional_fields_present atp k b :
  (k, b) ∈ optional_fields atp →
  is_Some (entry_find k (write_resume_data atp)) ↔ b = true.
Proof.
  intros Hk. unfold optional_fields in Hk.
  repeat (apply elem_of_cons in Hk as [[= -> ->]|Hk]);
    [..|by apply elem_of_nil in Hk].
  11-18: by destruct (resume_state_presence atp) as (? & ? & ? & ? & ? & ? & ? & ?).
  - rewrite find_resume_torrent_key by (done || key_in).
    rewrite find_info_torrent, bool_decide_eq_true.
    destruct (ti atp); presence.
  - rewrite find_resume_torrent_key by (done || key_in).
    rewrite find_comment_torrent. destruct (ti atp) as [info|]; simpl;
      [case_bool_decide|]; presence.
  - rewrite find_resume_torrent_key by (done || key_in).
    rewrite find_creation_date_torrent. destruct (ti atp) as [info|]; simpl;
      [destruct (creation_date info =? 0)|]; presence.
  - rewrite find_resume_torrent_key by (done || key_in).
    rewrite find_created_by_torrent. destruct (ti atp) as [info|]; simpl;
      [case_bool_decide|]; presence.
  - rewrite find_resume_torrent_key by (done || key_in).
    rewrite find_piece_layers_torrent. case_bool_decide; presence.
  - rewrite find_resume_torrent_key by (done || key_in).
    rewrite find_name_torrent. case_bool_decide; presence.
  - rewrite find_resume_torrent_key by (done || key_in).
    rewrite find_announce_torrent, bool_decide_eq_true.
    destruct (trackers atp) as [|tr [|tr' trs]]; presence.
  - rewrite find_resume_torrent_key by (done || key_in).
    rewrite find_announce_list_torrent, bool_decide_eq_true.
    destruct (trackers atp) as [|tr [|tr' trs]]; presence.
  - rewrite find_trees_resume. case_bool_decide; presence.
  - apply find_url_resume.
Qed.

(** C10 (as amended). Every key of the torrent-only dictionary is in the
    resume dictionary with the same value, and the torrent-only dictionary
    has no key outside the .torrent field set. Conversely, on the .torrent
    field set the two dictionaries agree, except for "url-list" and
    "httpseeds": when the list of seeds is empty the resume dictionary
    holds an empty list under the key and the torrent-only dictionary does
    not have the key. *)
Theorem mode_agreement atp :
  (∀ k v, entry_find k (write_torrent_file atp) = Some v →
          entry_find k (write_resume_data atp) = Some v)
  ∧ (∀ k, is_Some (entry_find k (write_torrent_file atp)) → k ∈ torrent_keys)
  ∧ (∀ k, k ∈ torrent_keys → k ≠ "url-list" → k ≠ "httpseeds" →
          entry_find k (write_resume_data atp) = entry_find k (write_torrent_file atp))
  ∧ entry_find "url-list" (write_resume_data atp)
    = (if bool_decide (url_seeds atp = []) then Some (list_t [])
       else entry_find "url-list" (write_torrent_file atp))
  ∧ entry_find "httpseeds" (write_resume_data atp)
    = (if bool_decide (http_seeds atp = []) then Some (list_t [])
       else entry_find "httpseeds" (write_torrent_file atp))
  ∧ (url_seeds atp = [] → entry_find "url-list" (write_torrent_file atp) = None)
  ∧ (http_seeds atp = [] → entry_find "httpseeds" (write_torrent_file atp) = None).
Proof.
  split_and!.
  - intros k v Hk.
    destruct (decide (k = "url-list")) as [->|Hu];
      [|destruct (decide (k = "httpseeds")) as [->|Hh]].
    + rewrite find_url_list_torrent in Hk. rewrite find_url_list_resume.
      by case_bool_decide.
    + rewrite find_httpseeds_torrent in Hk. rewrite find_httpseeds_resume.
      by case_bool_decide.
    + rewrite find_resume_torrent_key; [done| |done..].
      by apply (torrent_fields_keys atp k v).
  - intros k [v Hv]. by apply (torrent_fields_keys atp k v).
  - apply find_resume_torrent_key.
  - rewrite find_url_list_resume, find_url_list_torrent.
    case_bool_decide as Hu; [by rewrite Hu|done].
  - rewrite find_httpseeds_resume, find_httpseeds_torrent.
    case_bool_decide as Hu; [by rewrite Hu|done].
  - intros Hu. rewrite find_url_list_torrent. by case_bool_decide.
  - intros Hu. rewrite find_httpseeds_torrent. by case_bool_decide.
Qed.

(** *** Piece layers *)

Lemma string_app_assoc (s1 s2 s3 : string) :
  (s1 +:+ s2) +:+ s3 = s1 +:+ (s2 +:+ s3).
Proof.
  induction s1 as [|a s1 IH]; [done|].
  change (String a ((s1 +:+ s2) +:+ s3) = String a (s1 +:+ (s2 +:+ s3))).
  by rewrite IH.
Qed.

Lemma string_app_nil_r (s : string) : s +:+ "" = s.
Proof.
  induction s as [|a s IH]; [done|].
  change (String a (s +:+ "") = String a s). by rewrite IH.
Qed.

(** One iteration of the loop: a file that is a pad file or not larger
    than a piece leaves [piece_layers] alone; any other file appends its
    piece layer to the entry under the root of its tree, creating the
    entry when the key is new. *)
Lemma piece_layer_step_lookup atp info f tree (pl : gmap string entry) k :
  ti atp = Some info →
  piece_layer_step atp f tree pl !! k
  = if has_piece_layer (files info) f
       && bool_decide (root (rebuilt_tree atp (files info) f tree) = k)
    then Some (string_t (entry_string (dict_at k pl)
                         +:+ concat_hashes
                               (get_piece_layer (rebuilt_tree atp (files info) f tree))))
    else pl !! k.
Proof.
  intros Hti. unfold piece_layer_step. rewrite Hti.
  destruct (has_piece_layer (files info) f); simpl; [|done].
  case_bool_decide as Hk.
  - subst k. by rewrite lookup_insert_eq.
  - by rewrite lookup_insert_ne.
Qed.

Lemma write_trees_no_info atp f trees rt (pl : gmap string entry) :
  ti atp = None → (write_trees atp f trees rt pl).2 = pl.
Proof.
  intros Hti. revert f rt pl.
  induction trees as [|tree rest IH]; intros f rt pl; simpl; [done|].
  rewrite IH. unfold piece_layer_step. by rewrite Hti.
Qed.

Lemma layers_under_unwritten atp fs k f trees :
  writes_under atp fs k f trees = false → layers_under atp fs k f trees = "".
Proof.
  revert f. induction trees as [|tree rest IH]; intros f; simpl; [done|].
  intros [-> Hrest]%orb_false_iff. by rewrite IH.
Qed.

(** The dictionary after the loop: under a key [k] it holds what it held
    before followed by the layers of the files that write under [k]. *)
Lemma write_trees_lookup atp info f trees rt (pl : gmap string entry) k :
  ti atp = Some info →
  (write_trees atp f trees rt pl).2 !! k
  = if writes_under atp (files info) k f trees
    then Some (string_t (entry_string (dict_at k pl)
                         +:+ layers_under atp (files info) k f trees))
    else pl !! k.
Proof.
  intros Hti. revert f rt pl.
  induction trees as [|tree rest IH]; intros f rt pl; simpl; [done|].
  rewrite IH. unfold dict_at. rewrite !(piece_layer_step_lookup atp info) by done.
  destruct (has_piece_layer (files info) f
            && bool_decide (root (rebuilt_tree atp (files info) f tree) = k));
    simpl.
  - rewrite string_app_assoc.
    destruct (writes_under atp (files info) k (S f) rest) eqn:Hw; [done|].
    by rewrite (layers_under_unwritten _ _ _ _ _ Hw), string_app_nil_r.
  - done.
Qed.

(** The "piece layers" dictionary of a torrent with metadata. *)
Lemma piece_layers_lookup atp info k :
  ti atp = Some info →
  piece_layers_of atp !! k
  = if writes_under atp (files info) k 0 (merkle_trees atp)
    then Some (string_t (layers_under atp (files info) k 0 (merkle_trees atp)))
    else None.
Proof.
  intros Hti. unfold piece_layers_of.
  rewrite (write_trees_lookup atp info) by done.
  by destruct (writes_under _ _ _ _ _).
Qed.

(** A file whose root no other file with a piece layer shares: the entry
    under its root is its piece layer. *)
Lemma layers_under_other atp fs k f trees :
  (∀ g tree, trees !! g = Some tree → has_piece_layer fs (f + g) = true →
             root (rebuilt_tree atp fs (f + g) tree) ≠ k) →
  layers_under atp fs k f trees = "" ∧ writes_under atp fs k f trees = false.
Proof.
  revert f. induction trees as [|tree rest IH]; intros f Hother; simpl; [done|].
  destruct (IH (S f)) as [-> ->].
  { intros g tree' Hg. replace (S f + g)%nat with (f + S g)%nat by lia.
    by apply (Hother (S g)). }
  specialize (Hother 0%nat tree eq_refl). rewrite Nat.add_0_r in Hother.
  destruct (has_piece_layer fs f); simpl; [|done].
  rewrite bool_decide_eq_false_2 by auto. done.
Qed.

Lemma layers_under_unique atp fs f0 trees f tree :
  trees !! f = Some tree →
  has_piece_layer fs (f0 + f) = true →
  (∀ g tree', g ≠ f → trees !! g = Some tree' → has_piece_layer fs (f0 + g) = true →
     root (rebuilt_tree atp fs (f0 + g) tree') ≠ root (rebuilt_tree atp fs (f0 + f) tree)) →
  layers_under atp fs (root (rebuilt_tree atp fs (f0 + f) tree)) f0 trees
    = concat_hashes (get_piece_layer (rebuilt_tree atp fs (f0 + f) tree))
  ∧ writes_under atp fs (root (rebuilt_tree atp fs (f0 + f) tree)) f0 trees = true.
Proof.
  revert f0 f. induction trees as [|tree0 rest IH]; intros f0 f Hf Hhas Huniq;
    [done|].
  destruct f as [|f]; simpl in Hf.
  - injection Hf as ->. rewrite Nat.add_0_r in *. simpl.
    rewrite Hhas, bool_decide_eq_true_2 by done. simpl.
    destruct (layers_under_other atp fs (root (rebuilt_tree atp fs f0 tree)) (S f0) rest)
      as [-> _]; [|by rewrite string_app_nil_r].
    intros g tree' Hg Hhas'.
    replace (S f0 + g)%nat with (f0 + S g)%nat in * by lia.
    by apply (Huniq (S g)).
  - simpl. replace (f0 + S f)%nat with (S f0 + f)%nat in * by lia.
    destruct (IH (S f0) f Hf Hhas) as [-> ->].
    { intros g tree' Hne Hg Hhas'.
      replace (S f0 + g)%nat with (f0 + S g)%nat in * by lia.
      apply (Huniq (S g)); [lia|done..]. }
    rewrite orb_true_r. split; [|done].
    destruct (has_piece_layer fs f0) eqn:Hhas0; simpl; [|done].
    rewrite bool_decide_eq_false_2; [done|].
    specialize (Huniq 0%nat tree0). rewrite Nat.add_0_r in Huniq.
    apply Huniq; [lia|done..].
Qed.

(** A file with a piece layer whose root no other such file shares has,
    under its root, exactly the hashes of its piece layer. *)
Lemma piece_layer_unique_root atp info f tree :
  ti atp = Some info →
  merkle_trees atp !! f = Some tree →
  has_piece_layer (files info) f = true →
  (∀ g tree', g ≠ f → merkle_trees atp !! g = Some tree' →
     has_piece_layer (files info) g = true →
     root (rebuilt_tree atp (files info) g tree')
     ≠ root (rebuilt_tree atp (files info) f tree)) →
  piece_layers_of atp !! root (rebuilt_tree atp (files info) f tree)
  = Some (string_t (concat_hashes
                      (get_piece_layer (rebuilt_tree atp (files info) f tree)))).
Proof.
  intros Hti Hf Hhas Huniq. rewrite (piece_layers_lookup atp info) by done.
  destruct (layers_under_unique atp (files info) 0 (merkle_trees atp) f tree
              Hf Hhas Huniq) as [Hl Hw].
  change (0 + f)%nat with f in Hl, Hw. by rewrite Hw, Hl.
Qed.

(** Files that are pad files or not larger than a piece write no entry: a
    key is in the dictionary exactly when a file with a piece layer has it
    as the root of its tree. *)
Lemma piece_layer_key_present atp info k :
  ti atp = Some info →
  is_Some (piece_layers_of atp !! k)
  ↔ writes_under atp (files info) k 0 (merkle_trees atp) = true.
Proof.
  intros Hti. rewrite (piece_layers_lookup atp info) by done.
  destruct (writes_under _ _ _ _ _); presence.
Qed.

(** Two files with a piece layer and the same root: the entry under the
    root holds the piece layer of the first followed by that of the
    second. *)
Lemma piece_layers_shared_root atp info tree0 tree1 :
  ti atp = Some info →
  merkle_trees atp = [tree0; tree1] →
  has_piece_layer (files info) 0 = true →
  has_piece_layer (files info) 1 = true →
  root (rebuilt_tree atp (files info) 1 tree1)
  = root (rebuilt_tree atp (files info) 0 tree0) →
  piece_layers_of atp !! root (rebuilt_tree atp (files info) 0 tree0)
  = Some (string_t
            (concat_hashes (get_piece_layer (rebuilt_tree atp (files info) 0 tree0))
             +:+ concat_hashes
                   (get_piece_layer (rebuilt_tree atp (files info) 1 tree1)))).
Proof.
  intros Hti Htrees Hhas0 Hhas1 Hroot.
  rewrite (piece_layers_lookup atp info) by done. rewrite Htrees. simpl.
  rewrite Hhas0, Hhas1, Hroot. rewrite !bool_decide_eq_true_2 by done. simpl.
  by rewrite string_app_nil_r.
Qed.

(** The loader is chosen by the mask: [load_sparse_tree] when the file
    has a non-empty mask, [load_tree] otherwise. *)
Lemma rebuilt_tree_loader atp fs f tree :
  rebuilt_tree atp fs f tree
  = let t := merkle_tree_new (file_num_blocks fs f)
               (piece_length fs / default_block_size) (root_ptr fs f) in
    match merkle_tree_mask atp !! f with
    | Some (b :: mask) => load_sparse_tree t tree (b :: mask)
    | _ => load_tree t tree
    end.
Proof.
  unfold rebuilt_tree, sparse_mask.
  by destruct (merkle_tree_mask atp !! f) as [[|b mask]|].
Qed.


Lemma clamp_range v : 0 ≤ clamp v 0 1024 ≤ 1024.
Proof.
  unfold clamp. destruct (v <? 0) eqn:H0; [lia|].
  destruct (1024 <? v) eqn:H1; lia.
Qed.

(** A negative tier is converted to [std::size_t] before it is clamped and
    ends up in the last tier. *)
Lemma negative_tier_clamped t :
  - 2 ^ 31 ≤ t < 0 → clamp (size_t_of_int t) 0 1024 = 1024.
Proof.
  intros Ht. unfold clamp, size_t_of_int.
  assert (t mod 2 ^ 64 = t + 2 ^ 64) as ->.
  { symmetry. apply (Z.mod_unique _ _ (-1)); lia. }
  destruct (t + 2 ^ 64 <? 0) eqn:H0; [lia|].
  destruct (1024 <? t + 2 ^ 64) eqn:H1; lia.
Qed.

Lemma resize_lookup (l : list entry) n j :
  (length l ≤ n)%nat →
  resize l n !! j
  = if decide (j < length l)%nat then l !! j
    else if decide (j < n)%nat then Some undefined_t else None.
Proof.
  intros Hn. unfold resize. rewrite take_ge by done.
  case_decide.
  - by rewrite lookup_app_l.
  - rewrite lookup_app_r by lia. case_decide.
    + apply lookup_replicate_2. lia.
    + apply lookup_ge_None. rewrite length_replicate. lia.
Qed.

Lemma resize_length (l : list entry) n :
  (length l ≤ n)%nat → length (resize l n) = n.
Proof.
  intros Hn. unfold resize. rewrite take_ge by done.
  rewrite length_app, length_replicate. lia.
Qed.

(** The contents of the slots after the loop. *)
Lemma write_tiers_contents trs tier_it tier tr_list j :
  0 ≤ tier →
  entry_list (default undefined_t (write_tiers trs tier_it tier tr_list !! j))
  = entry_list (default undefined_t (tr_list !! j))
    ++ (string_t <$> trackers_in_tier j trs tier_it tier).
Proof.
  revert tier_it tier tr_list.
  induction trs as [|tr rest IH]; intros tier_it tier tr_list Htier; simpl.
  { by rewrite app_nil_r. }
  set (tier' := match tier_it with
                | t :: _ => clamp (size_t_of_int t) 0 1024
                | [] => tier
                end).
  assert (0 ≤ tier') as Htier'.
  { subst tier'. destruct tier_it; [done|]. apply clamp_range. }
  rewrite IH by done. rewrite fmap_app, app_assoc. f_equal.
  set (l1 := if Z.of_nat (length tr_list) <=? tier'
             then resize tr_list (Z.to_nat (tier' + 1)) else tr_list).
  assert (Z.to_nat tier' < length l1)%nat as Hlen.
  { subst l1. destruct (Z.of_nat (length tr_list) <=? tier') eqn:Hle.
    - rewrite resize_length; lia.
    - lia. }
  assert (entry_list (default undefined_t (l1 !! j))
          = entry_list (default undefined_t (tr_list !! j))) as Hl1.
  { subst l1. destruct (Z.of_nat (length tr_list) <=? tier') eqn:Hle; [|done].
    rewrite resize_lookup by lia. case_decide; [done|].
    rewrite (lookup_ge_None_2 tr_list j) by lia. by case_decide. }
  case_bool_decide as Hj.
  - subst j. rewrite list_lookup_alter_eq.
    destruct (lookup_lt_is_Some_2 l1 (Z.to_nat tier') Hlen) as [e He].
    rewrite He in Hl1 |- *. simpl in *. by rewrite Hl1.
  - rewrite list_lookup_alter_ne by done. simpl. by rewrite app_nil_r.
Qed.

(** The types of the slots after the loop: a slot is a list when it was
    one or when a tracker was put in it; the other slots are left as they
    were, and the slots added by [resize] are undefined. *)
Lemma write_tiers_types trs tier_it tier tr_list j e :
  0 ≤ tier →
  write_tiers trs tier_it tier tr_list !! j = Some e →
  if bool_decide (trackers_in_tier j trs tier_it tier = [])
  then e = default undefined_t (tr_list !! j)
  else is_list e = true.
Proof.
  revert tier_it tier tr_list.
  induction trs as [|tr rest IH]; intros tier_it tier tr_list Htier; simpl.
  { intros ->. done. }
  set (tier' := match tier_it with
                | t :: _ => clamp (size_t_of_int t) 0 1024
                | [] => tier
                end).
  assert (0 ≤ tier') as Htier'.
  { subst tier'. destruct tier_it; [done|]. apply clamp_range. }
  set (l1 := if Z.of_nat (length tr_list) <=? tier'
             then resize tr_list (Z.to_nat (tier' + 1)) else tr_list).
  intros Hres. specialize (IH _ _ _ Htier' Hres).
  assert (∀ e1, l1 !! j = Some e1 → e1 = default undefined_t (tr_list !! j)) as Hl1.
  { subst l1. intros e1. destruct (Z.of_nat (length tr_list) <=? tier') eqn:Hle.
    - rewrite resize_lookup by lia. case_decide; [by intros ->|].
      rewrite (lookup_ge_None_2 tr_list j) by lia. case_decide; [|done].
      by intros [= <-].
    - by intros ->. }
  assert (Z.to_nat tier' < length l1)%nat as Hlen.
  { subst l1. destruct (Z.of_nat (length tr_list) <=? tier') eqn:Hle.
    - rewrite resize_length; lia.
    - lia. }
  destruct (bool_decide (Z.to_nat tier' = j)) eqn:Hj; simpl.
  - apply bool_decide_eq_true in Hj. subst j.
    rewrite list_lookup_alter_eq in IH.
    destruct (lookup_lt_is_Some_2 l1 (Z.to_nat tier') Hlen) as [e1 He1].
    rewrite He1 in IH. simpl in IH.
    destruct (bool_decide (trackers_in_tier _ rest _ _ = [])); [by subst e|done].
  - apply bool_decide_eq_false in Hj.
    rewrite list_lookup_alter_ne in IH by done.
    destruct (bool_decide (trackers_in_tier j rest _ _ = [])); [|done].
    subst e. destruct (l1 !! j) as [e1|] eqn:He1; simpl.
    + by apply Hl1.
    + subst l1. destruct (Z.of_nat (length tr_list) <=? tier') eqn:Hle.
      * rewrite resize_lookup in He1 by lia. case_decide; [by rewrite He1|].
        by rewrite (lookup_ge_None_2 tr_list j) by lia.
      * by rewrite He1.
Qed.

Lemma write_tiers_length trs tier_it tier tr_list :
  0 ≤ tier ≤ 1024 →
  (length tr_list ≤ length (write_tiers trs tier_it tier tr_list)
   ≤ length tr_list `max` 1025)%nat.
Proof.
  revert tier_it tier tr_list.
  induction trs as [|tr rest IH]; intros tier_it tier tr_list Htier; simpl; [lia|].
  set (tier' := match tier_it with
                | t :: _ => clamp (size_t_of_int t) 0 1024
                | [] => tier
                end).
  assert (0 ≤ tier' ≤ 1024) as Htier'.
  { subst tier'. destruct tier_it; [done|]. apply clamp_range. }
  specialize (IH (tail tier_it) tier'
                (alter (λ e, list_t (entry_list e ++ [string_t tr])) (Z.to_nat tier')
                   (if Z.of_nat (length tr_list) <=? tier'
                    then resize tr_list (Z.to_nat (tier' + 1)) else tr_list)) Htier').
  rewrite length_alter in IH.
  destruct (Z.of_nat (length tr_list) <=? tier') eqn:Hle.
  - rewrite resize_length in IH by lia. lia.
  - lia.
Qed.

(** "announce-list" with two or more trackers: one slot per tier index up
    to the highest one in use, at most 1025 of them; slot 0 and every slot
    that a tracker was put in is the list of the trackers of that tier, in
    order, and the slots of unused tier indices in between are undefined
    entries. *)
Lemma announce_list_slots atp :
  (2 ≤ length (trackers atp))%nat →
  ∃ l, entry_find "announce-list" (write_torrent_file atp) = Some (list_t l)
     ∧ entry_find "announce-list" (write_resume_data atp) = Some (list_t l)
     ∧ (1 ≤ length l ≤ 1025)%nat
     ∧ ∀ j e, l !! j = Some e →
         e = if bool_decide (j = 0%nat)
                || negb (bool_decide
                           (trackers_in_tier j (trackers atp) (tracker_tiers atp) 0 = []))
             then list_t (string_t <$>
                            trackers_in_tier j (trackers atp) (tracker_tiers atp) 0)
             else undefined_t.
Proof.
  intros Hlen.
  exists (write_tiers (trackers atp) (tracker_tiers atp) 0 [list_t []]).
  rewrite find_resume_torrent_key by (done || key_in).
  rewrite find_announce_list_torrent.
  destruct (trackers atp) as [|tr [|tr' trs]] eqn:Htrs; simpl in Hlen; try lia.
  rewrite <- Htrs. split_and!; try done.
  - pose proof (write_tiers_length (trackers atp) (tracker_tiers atp) 0 [list_t []])
      as Hl. simpl in Hl. lia.
  - pose proof (write_tiers_length (trackers atp) (tracker_tiers atp) 0 [list_t []])
      as Hl. simpl in Hl. lia.
  - intros j e Hj.
    pose proof (write_tiers_contents (trackers atp) (tracker_tiers atp) 0
                  [list_t []] j) as Hc.
    pose proof (write_tiers_types (trackers atp) (tracker_tiers atp) 0
                  [list_t []] j e) as Ht.
    rewrite Hj in Hc. simpl in Hc. specialize (Hc ltac:(done)).
    specialize (Ht ltac:(done) Hj).
    assert (entry_list (default undefined_t ([list_t []] !! j)) = []) as Hnil
      by (by destruct j as [|[|j]]).
    rewrite Hnil in Hc. simpl in Hc.
    destruct (bool_decide (trackers_in_tier j _ _ _ = [])) eqn:Hempty; simpl.
    + apply bool_decide_eq_true in Hempty. rewrite Hempty. subst e.
      by destruct j as [|[|j]].
    + rewrite orb_true_r. destruct e; try done. simpl in Hc. by rewrite Hc.
Qed.

(** *** Trackers *)

(** One tracker: "announce" holds it and there is no "announce-list", in
    both modes. *)
Lemma announce_single atp tr :
  trackers atp = [tr] →
  entry_find "announce" (write_torrent_file atp) = Some (string_t tr)
  ∧ entry_find "announce-list" (write_torrent_file atp) = None
  ∧ entry_find "announce" (write_resume_data atp) = Some (string_t tr)
  ∧ entry_find "announce-list" (write_resume_data atp) = None.
Proof.
  intros Htr.
  rewrite !find_resume_torrent_key by (done || key_in).
  rewrite find_announce_torrent, find_announce_list_torrent, Htr. done.
Qed.

(** The "trackers" key of the resume data repeats what "announce" or
    "announce-list" hold. *)
Lemma trackers_view atp :
  entry_find "trackers" (write_resume_data atp)
  = match trackers atp with
    | [] => Some (list_t [])
    | [_] =>
        (λ a, list_t [list_t [a]]) <$> entry_find "announce" (write_resume_data atp)
    | _ => entry_find "announce-list" (write_resume_data atp)
    end.
Proof.
  rewrite find_trackers_resume.
  rewrite !find_resume_torrent_key by (done || key_in).
  rewrite find_announce_torrent, find_announce_list_torrent.
  by destruct (trackers atp) as [|tr [|tr' trs]].
Qed.

(** *** Presence of the keys *)

Lemma piece_layers_no_info atp : ti atp = None → piece_layers_of atp = ∅.
Proof. intros Hti. unfold piece_layers_of. by rewrite write_trees_no_info. Qed.

Lemma writes_under_iff atp fs k f0 trees :
  writes_under atp fs k f0 trees = true
  ↔ ∃ g tree, trees !! g = Some tree
            ∧ has_piece_layer fs (f0 + g) = true
            ∧ root (rebuilt_tree atp fs (f0 + g) tree) = k.
Proof.
  revert f0. induction trees as [|tree0 rest IH]; intros f0; simpl.
  - split; [done|]. by intros (g & tree & Hg & _).
  - rewrite orb_true_iff, andb_true_iff, bool_decide_eq_true, IH. split.
    + intros [[Hhas Hroot]|(g & tree & Hg & Hhas & Hroot)].
      * exists 0%nat, tree0. by rewrite Nat.add_0_r.
      * exists (S g), tree. by replace (f0 + S g)%nat with (S f0 + g)%nat by lia.
    + intros (g & tree & Hg & Hhas & Hroot). destruct g as [|g]; simpl in Hg.
      * left. injection Hg as ->. by rewrite Nat.add_0_r in Hhas, Hroot.
      * right. exists g, tree.
        by replace (S f0 + g)%nat with (f0 + S g)%nat by lia.
Qed.

(** The "piece layers" dictionary has an entry exactly when the
    parameters carry the metadata and a file with a merkle tree passes the
    test of line 115. *)
Lemma piece_layers_nonempty atp :
  piece_layers_of atp ≠ ∅
  ↔ ∃ info f tree, ti atp = Some info
                 ∧ merkle_trees atp !! f = Some tree
                 ∧ has_piece_layer (files info) f = true.
Proof.
  destruct (ti atp) as [info|] eqn:Hti.
  - split.
    + intros (k & x & Hx)%map_choose.
      assert (is_Some (piece_layers_of atp !! k)) as Hk by (by eexists).
      apply (piece_layer_key_present atp info k Hti) in Hk.
      apply writes_under_iff in Hk as (f & tree & Hf & Hhas & _).
      by exists info, f, tree.
    + intros (info' & f & tree & [= <-] & Hf & Hhas) Hempty.
      assert (is_Some (piece_layers_of atp
                         !! root (rebuilt_tree atp (files info) f tree)))
        as [x Hx].
      { apply (piece_layer_key_present atp info _ Hti).
        apply writes_under_iff. by exists f, tree. }
      by rewrite Hempty, lookup_empty in Hx.
  - rewrite (piece_layers_no_info atp Hti). split; [done|].
    by intros (info & _ & _ & ? & _).
Qed.

Ltac optional_key atp :=
  etrans;
  [ apply (optional_fields_present atp); unfold optional_fields;
    solve [repeat first [apply list_elem_of_here | apply list_elem_of_further]]
  | ].

(** C7 (as amended). In the resume dictionary the three collections
    "url-list", "httpseeds" and "trackers" are written also when they are
    empty, as empty lists. Eighteen keys are conditional, each with its own
    condition: "info" needs the metadata; "comment", "creation date" and
    "created by" need the metadata and a non-empty (non-zero) value in it;
    "piece layers" needs the metadata and a file with a merkle tree that is
    not a pad file and is larger than a piece; "name" needs a non-empty
    name; "announce" needs exactly one tracker and "announce-list" two or
    more; "trees" needs a merkle tree; "url" needs ABI version 1 and a
    non-empty url; "unfinished", "mapped_files", "file_priority" and
    "piece_priority" need a non-empty field; "peers" and "peers6" are both
    written when there is a peer, and "banned_peers" and "banned_peers6"
    when there is a banned peer. Every key of [always_keys] (among them
    "save_path", "pieces", the counters, the limits and, in a build with
    share mode and super seeding, the twelve flags) is present whatever the
    parameters hold. *)
Theorem resume_presence atp :
  let R := write_resume_data atp in
  (url_seeds atp = [] → entry_find "url-list" R = Some (list_t []))
  ∧ (http_seeds atp = [] → entry_find "httpseeds" R = Some (list_t []))
  ∧ (trackers atp = [] → entry_find "trackers" R = Some (list_t []))
  ∧ (is_Some (entry_find "info" R) ↔ is_Some (ti atp))
  ∧ (is_Some (entry_find "comment" R)
     ↔ ∃ info, ti atp = Some info ∧ comment info ≠ "")
  ∧ (is_Some (entry_find "creation date" R)
     ↔ ∃ info, ti atp = Some info ∧ creation_date info ≠ 0)
  ∧ (is_Some (entry_find "created by" R)
     ↔ ∃ info, ti atp = Some info ∧ creator info ≠ "")
  ∧ (is_Some (entry_find "piece layers" R)
     ↔ ∃ info f tree, ti atp = Some info
                    ∧ merkle_trees atp !! f = Some tree
                    ∧ has_piece_layer (files info) f = true)
  ∧ (is_Some (entry_find "name" R) ↔ name atp ≠ "")
  ∧ (is_Some (entry_find "announce" R) ↔ length (trackers atp) = 1%nat)
  ∧ (is_Some (entry_find "announce-list" R) ↔ (2 ≤ length (trackers atp))%nat)
  ∧ (is_Some (entry_find "trees" R) ↔ merkle_trees atp ≠ [])
  ∧ (is_Some (entry_find "url" R) ↔ TORRENT_ABI_VERSION = 1 ∧ url atp ≠ "")
  ∧ (is_Some (entry_find "unfinished" R) ↔ unfinished_pieces atp ≠ [])
  ∧ (is_Some (entry_find "mapped_files" R) ↔ renamed_files atp ≠ [])
  ∧ (is_Some (entry_find "peers" R) ↔ peers atp ≠ [])
  ∧ (is_Some (entry_find "peers6" R) ↔ peers atp ≠ [])
  ∧ (is_Some (entry_find "banned_peers" R) ↔ banned_peers atp ≠ [])
  ∧ (is_Some (entry_find "banned_peers6" R) ↔ banned_peers atp ≠ [])
  ∧ (is_Some (entry_find "file_priority" R) ↔ file_priorities atp ≠ [])
  ∧ (is_Some (entry_find "piece_priority" R) ↔ piece_priorities atp ≠ [])
  ∧ (∀ k, k ∈ always_keys → is_Some (entry_find k R)).
Proof.
  intros R. subst R.
  assert (∀ (P : Prop) `{!Decision P}, negb (bool_decide P) = true ↔ ¬ P)
    as Hneg.
  { intros P ?. rewrite negb_true_iff, bool_decide_eq_false. done. }
  split_and!.
  - intros Hu. by rewrite find_url_list_resume, Hu.
  - intros Hh. by rewrite find_httpseeds_resume, Hh.
  - intros Ht. by rewrite find_trackers_resume, Ht.
  - optional_key atp. apply bool_decide_eq_true.
  - optional_key atp. destruct (ti atp) as [info|].
    + rewrite Hneg. split; [by exists info|by intros (? & [= <-] & ?)].
    + split; [done|by intros (? & ? & _)].
  - optional_key atp. destruct (ti atp) as [info|].
    + rewrite negb_true_iff, Z.eqb_neq.
      split; [by exists info|by intros (? & [= <-] & ?)].
    + split; [done|by intros (? & ? & _)].
  - optional_key atp. destruct (ti atp) as [info|].
    + rewrite Hneg. split; [by exists info|by intros (? & [= <-] & ?)].
    + split; [done|by intros (? & ? & _)].
  - optional_key atp. rewrite Hneg. apply piece_layers_nonempty.
  - optional_key atp. apply Hneg.
  - optional_key atp. apply bool_decide_eq_true.
  - optional_key atp. apply bool_decide_eq_true.
  - optional_key atp. apply Hneg.
  - optional_key atp. rewrite andb_true_iff, Z.eqb_eq, Hneg. done.
  - optional_key atp. apply Hneg.
  - optional_key atp. apply Hneg.
  - optional_key atp. apply Hneg.
  - optional_key atp. apply Hneg.
  - optional_key atp. apply Hneg.
  - optional_key atp. apply Hneg.
  - optional_key atp. apply Hneg.
  - optional_key atp. apply Hneg.
  - apply always_keys_present.
Qed.

End WithExternals.
End CodecFacts.

(** ** The codec on concrete parameters *)

Module CodecExamples.
Import Entry Codec EntryFacts CodecFacts.

#[local] Existing Instance sample_externals.

(** With no field of the parameters set, the resume dictionary still has
    the key "save_path" (holding the empty string): unset fields are not
    all left out. *)
Lemma presence_counterexample :
  ¬ (∀ k, k ∉ ["url-list"; "httpseeds"; "trackers"; "file-format"; "file-version"] →
          entry_find k (write_resume_data default_atp) = None).
Proof.
  intros Hall.
  assert (entry_find "save_path" (write_resume_data default_atp)
          = Some (string_t "")) as Hsp by (by vm_compute).
  rewrite Hall in Hsp; [done|].
  repeat (apply not_elem_of_cons; split; [done|]). apply not_elem_of_nil.
Qed.

Lemma resume_presence_witness :
  entry_find "httpseeds" (write_resume_data busy_atp) = Some (list_t [])
  ∧ is_Some (entry_find "name" (write_resume_data busy_atp))
  ∧ is_Some (entry_find "piece layers" (write_resume_data busy_atp))
  ∧ is_Some (entry_find "announce-list" (write_resume_data busy_atp))
  ∧ ¬ is_Some (entry_find "announce" (write_resume_data busy_atp))
  ∧ is_Some (entry_find "mapped_files" (write_resume_data busy_atp))
  ∧ ¬ is_Some (entry_find "name" (write_resume_data default_atp))
  ∧ is_Some (entry_find "save_path" (write_resume_data default_atp)).
Proof.
  pose proof (resume_presence busy_atp) as Hbusy.
  pose proof (resume_presence default_atp) as Hdefault.
  cbv zeta in Hbusy, Hdefault.
  destruct Hbusy as (_ & Hh & _ & _ & _ & _ & _ & Hpl & Hname & Ha & Hal & _
                     & _ & _ & Hmf & _).
  destruct Hdefault as (_ & _ & _ & _ & _ & _ & _ & _ & Hname0 & Hrest).
  split; [apply Hh; reflexivity|].
  split; [apply Hname; discriminate|].
  split; [apply Hpl; exists dup_info, 0%nat, dup_layer; repeat split|].
  split; [apply Hal; simpl; lia|].
  split; [intros Hsome; apply Ha in Hsome; discriminate Hsome|].
  split; [apply Hmf; discriminate|].
  split; [intros Hsome; apply Hname0 in Hsome; by apply Hsome|].
  do 12 apply proj2 in Hrest. apply Hrest. vm_compute.
  do 32 apply list_elem_of_further. apply list_elem_of_here.
Defined.

(** With no field set, "url-list" belongs to the .torrent field set and is
    in the resume dictionary, but not in the torrent-only output: the latter
    is not the restriction of the former. *)
Lemma mode_agreement_counterexample :
  ¬ (∀ k, k ∈ torrent_keys →
          entry_find k (write_torrent_file default_atp)
          = entry_find k (write_resume_data default_atp)).
Proof.
  intros Hall.
  assert (entry_find "url-list" (write_resume_data default_atp)
          = Some (list_t [])) as Hr by (by vm_compute).
  assert (entry_find "url-list" (write_torrent_file default_atp) = None) as Ht
    by (by vm_compute).
  rewrite Hall, Hr in Ht; [done|]. key_in.
Qed.

Lemma mode_agreement_witness :
  entry_find "url-list" (write_torrent_file default_atp) = None
  ∧ entry_find "httpseeds" (write_torrent_file default_atp) = None
  ∧ entry_find "name" (write_resume_data default_atp)
    = entry_find "name" (write_torrent_file default_atp).
Proof.
  destruct (mode_agreement default_atp) as (_ & _ & Hk & _ & _ & Hu & Hh).
  split; [apply Hu; reflexivity|].
  split; [apply Hh; reflexivity|].
  apply Hk; [|discriminate..]. vm_compute.
  do 7 apply list_elem_of_further. apply list_elem_of_here.
Defined.

(** C8, at two trackers in the tiers 0 and 2: "announce-list" has three
    slots, and the slot of the unused tier 1 is an undefined entry, not a
    list; "trackers" repeats it. *)
Theorem announce_list_gap :
  entry_find "announce-list" (write_torrent_file gap_atp)
  = Some (list_t [list_t [string_t "http://a/announce"];
                  undefined_t;
                  list_t [string_t "http://b/announce"]])
  ∧ entry_find "announce-list" (write_resume_data gap_atp)
    = entry_find "announce-list" (write_torrent_file gap_atp)
  ∧ entry_find "trackers" (write_resume_data gap_atp)
    = entry_find "announce-list" (write_torrent_file gap_atp)
  ∧ ¬ (∀ l e, entry_find "announce-list" (write_torrent_file gap_atp) = Some (list_t l) →
              e ∈ l → is_list e = true).
Proof.
  assert (entry_find "announce-list" (write_torrent_file gap_atp)
          = Some (list_t [list_t [string_t "http://a/announce"];
                          undefined_t;
                          list_t [string_t "http://b/announce"]])) as Hal
    by (by vm_compute).
  split_and!; [done|by vm_compute|by vm_compute|].
  intros Hall. specialize (Hall _ undefined_t Hal).
  discriminate Hall. apply list_elem_of_further, list_elem_of_here.
Qed.

(** C9, at two identical files: the entry of "piece layers" under their
    common root holds the three piece hashes twice (192 bytes for a file
    of three pieces). *)
Theorem piece_layers_duplicate :
  entry_find "piece layers" (write_resume_data dup_atp)
  = Some (dictionary_t (piece_layers_of dup_atp))
  ∧ piece_layers_of dup_atp !! dup_root
    = Some (string_t (concat_hashes dup_layer +:+ concat_hashes dup_layer))
  ∧ String.length (concat_hashes dup_layer +:+ concat_hashes dup_layer) = 192%nat
  ∧ String.length (concat_hashes dup_layer) = 96%nat.
Proof. split_and!; by vm_compute. Qed.

Lemma pieces_encoding_witness :
  ∃ (s : string) (c : Ascii.ascii),
    entry_find "pieces" (write_resume_data pieces_atp) = Some (string_t s)
    ∧ String.length s = 4%nat
    ∧ String.get 2 s = Some c
    ∧ (N.testbit (Ascii.N_of_ascii c) 0 = true
       ↔ have_pieces pieces_atp !! 2%nat = Some true)
    ∧ (N.testbit (Ascii.N_of_ascii c) 1 = true
       ↔ verified_pieces pieces_atp !! 2%nat = Some true).
Proof.
  destruct (pieces_encoding pieces_atp) as (s & Hfind & Hlen & Hbits).
  assert (2 < String.length s)%nat as Hi by (rewrite Hlen; simpl; lia).
  destruct (Hbits 2%nat Hi) as (c & Hc & Hhave & Hverified).
  exists s, c. split; [exact Hfind|]. split; [exact Hlen|].
  split; [exact Hc|]. split; [exact Hhave|exact Hverified].
Defined.

End CodecExamples.

(** ** The auto-manage scheduler *)

Module SchedFacts.
Import Sched.

(** *** The candidates of a tick *)

Lemma elem_of_imap_pair (l : list torrent) (i : nat) (t : torrent) :
  (i, t) ∈ imap pair l ↔ l !! i = Some t.
Proof.
  rewrite elem_of_lookup_imap. split.
  - intros (j & y & [= -> ->] & Hj). done.
  - intros Hi. by exists i, t.
Qed.

Lemma candidates_elem s i t :
  (i, t) ∈ candidates s ↔ torrents s !! i = Some t ∧ auto_managed t = true.
Proof.
  unfold candidates. rewrite list_elem_of_filter, elem_of_imap_pair. simpl.
  split; intros [? ?]; done.
Qed.

Lemma insert_by_position_perm x l : insert_by_position x l ≡ₚ x :: l.
Proof.
  induction l as [|y r IH]; simpl; [done|].
  destruct (queue_position x.2 <? queue_position y.2); [done|].
  by rewrite IH, Permutation_swap.
Qed.

Lemma sort_by_position_perm l : sort_by_position l ≡ₚ l.
Proof.
  induction l as [|x l IH]; simpl; [done|].
  by rewrite insert_by_position_perm, IH.
Qed.

Lemma queue_of_elem c cands x :
  x ∈ queue_of c cands ↔ x ∈ cands ∧ class_of x.2 = c.
Proof.
  unfold queue_of. rewrite sort_by_position_perm, list_elem_of_filter.
  split; intros [? ?]; done.
Qed.

Lemma fst_imap_pair (l : list torrent) (k : nat) :
  (imap (λ i, pair (k + i)%nat) l).*1 = seq k (length l).
Proof.
  revert k. induction l as [|t l IH]; intros k; simpl; [done|].
  rewrite Nat.add_0_r. f_equal.
  rewrite <- (IH (S k)). f_equal. apply imap_ext. intros i x _. simpl.
  f_equal. lia.
Qed.

Lemma candidates_fst_NoDup s : NoDup ((candidates s).*1).
Proof.
  unfold candidates.
  assert (NoDup ((imap pair (torrents s)).*1)) as Hnd.
  { rewrite (imap_ext pair (λ i, pair (0 + i)%nat) (torrents s)) by done.
    rewrite fst_imap_pair. apply NoDup_seq. }
  revert Hnd. generalize (imap pair (torrents s)). intros l.
  induction l as [|x l IH]; simpl; [done|].
  rewrite NoDup_cons. intros [Hx Hl].
  rewrite filter_cons. case_decide; [|by apply IH].
  simpl. rewrite NoDup_cons. split; [|by apply IH].
  intros Hin. apply Hx. apply list_elem_of_fmap in Hin as (y & -> & Hy).
  apply list_elem_of_filter in Hy as [_ Hy]. apply list_elem_of_fmap. by exists y.
Qed.

(** The queues visited by a tick, in order. *)
Lemma queues_fst_NoDup s :
  NoDup ((queue_of checking_slot (candidates s)
          ++ queue_of downloading_slot (candidates s)
          ++ queue_of seeding_slot (candidates s)).*1).
Proof.
  pose proof (candidates_fst_NoDup s) as Hnd.
  assert (∀ c, NoDup ((queue_of c (candidates s)).*1)) as Hq.
  { intros c. unfold queue_of. rewrite sort_by_position_perm.
    revert Hnd. generalize (candidates s). intros l.
    induction l as [|x l IH]; simpl; [done|].
    rewrite NoDup_cons. intros [Hx Hl].
    rewrite filter_cons. case_decide; [|by apply IH].
    simpl. rewrite NoDup_cons. split; [|by apply IH].
    intros Hin. apply Hx. apply list_elem_of_fmap in Hin as (y & -> & Hy).
    apply list_elem_of_filter in Hy as [_ Hy]. apply list_elem_of_fmap. by exists y. }
  assert (∀ c c' i, c ≠ c' → i ∈ (queue_of c (candidates s)).*1 →
                    i ∈ (queue_of c' (candidates s)).*1 → False) as Hdisj.
  { intros c c' i Hne Hi Hi'.
    apply list_elem_of_fmap in Hi as ([j t] & -> & Ht).
    apply list_elem_of_fmap in Hi' as ([j' t'] & Hj & Ht'). simpl in Hj. subst j'.
    apply queue_of_elem in Ht as [Ht Hc]. apply queue_of_elem in Ht' as [Ht' Hc'].
    apply candidates_elem in Ht as [Ht _]. apply candidates_elem in Ht' as [Ht' _].
    simpl in *. congruence. }
  rewrite !fmap_app. rewrite !NoDup_app. split_and!; try apply Hq.
  - intros i Hi [Hi'|Hi']%elem_of_app.
    + by apply (Hdisj checking_slot downloading_slot i).
    + by apply (Hdisj checking_slot seeding_slot i).
  - intros i Hi Hi'. by apply (Hdisj downloading_slot seeding_slot i).
Qed.

(** *** The effect of the commands on the session *)

Lemma post_alerts_torrents i ws s : torrents (post_alerts i ws s) = torrents s.
Proof.
  revert s. induction ws as [|w ws IH]; intros s; simpl; [done|]. by rewrite IH.
Qed.

Lemma post_alerts_now i ws s : now (post_alerts i ws s) = now s.
Proof.
  revert s. induction ws as [|w ws IH]; intros s; simpl; [done|]. by rewrite IH.
Qed.

Lemma post_alerts_admissions i ws s :
  admissions (post_alerts i ws s) = admissions s.
Proof.
  revert s. induction ws as [|w ws IH]; intros s; simpl; [done|]. by rewrite IH.
Qed.

Lemma post_alerts_alerts i ws s :
  alerts (post_alerts i ws s)
  = alerts s ++ ((λ w, {| timestamp := now s; handle := i; what := w |}) <$> ws).
Proof.
  revert s. induction ws as [|w ws IH]; intros s; simpl.
  - by rewrite app_nil_r.
  - rewrite IH. simpl. by rewrite <- app_assoc.
Qed.

Lemma grant_slot_torrents c i t s :
  torrents (grant_slot c i t s)
  = if bool_decide (c = checking_slot) || announcing t then torrents s
    else alter (set_announcing true) i (torrents s).
Proof.
  unfold grant_slot. destruct c; simpl; try done;
    destruct (announcing t); simpl; by rewrite ?post_alerts_torrents.
Qed.

Lemma grant_slot_now c i t s : now (grant_slot c i t s) = now s.
Proof.
  unfold grant_slot. destruct c; simpl; try done;
    destruct (announcing t); simpl; by rewrite ?post_alerts_now.
Qed.

Lemma grant_slot_admissions c i t s :
  admissions (grant_slot c i t s) = admissions s.
Proof.
  unfold grant_slot. destruct c; simpl; try done;
    destruct (announcing t); simpl; by rewrite ?post_alerts_admissions.
Qed.

Lemma grant_slot_alerts c i t s :
  alerts (grant_slot c i t s)
  = alerts s
    ++ (if bool_decide (c = checking_slot) || announcing t then []
        else (λ u, {| timestamp := now s; handle := i; what := tracker_announce u |})
               <$> trackers t).
Proof.
  unfold grant_slot. destruct c; simpl; rewrite ?app_nil_r; try done;
    destruct (announcing t); simpl; rewrite ?app_nil_r; try done;
    rewrite post_alerts_alerts; simpl; by rewrite <- list_fmap_compose.
Qed.

Lemma grant_slot_other c i t s j :
  j ≠ i → torrents (grant_slot c i t s) !! j = torrents s !! j.
Proof.
  intros Hne. rewrite grant_slot_torrents.
  destruct (bool_decide (c = checking_slot) || announcing t); [done|].
  by apply list_lookup_alter_ne.
Qed.

(** *** Induction over the walk of a tick

    To show that a property [Inv] of the session and of the commands issued
    so far holds after a tick, it suffices to show that it holds before the
    tick and is kept by the three things a visit can do: resume a paused
    candidate when the pacing allows it, keep an active candidate, pause an
    active candidate. When the walk reaches a candidate, that torrent is
    still as the tick found it. *)

Section TickInduction.
Variables (L : limits) (s : session).
Variable Inv : session → list (nat * command) → Prop.

Hypothesis Inv_init : Inv s [].

Hypothesis Inv_resume : ∀ c i t s' iss,
  torrents s !! i = Some t → auto_managed t = true → class_of t = c →
  torrents s' !! i = Some t → paused t = true →
  paced_ok (admissions s') (now s') = true →
  Inv s' iss →
  Inv (grant_slot c i t (note_admission (do_resume c i s')))
      (iss ++ [(i, cmd_resume)]).

Hypothesis Inv_keep : ∀ c i t s' iss,
  torrents s !! i = Some t → auto_managed t = true → class_of t = c →
  torrents s' !! i = Some t → paused t = false →
  Inv s' iss →
  Inv (grant_slot c i t s') iss.

Hypothesis Inv_pause : ∀ c i t s' iss,
  torrents s !! i = Some t → auto_managed t = true → class_of t = c →
  torrents s' !! i = Some t → paused t = false →
  Inv s' iss →
  Inv (do_pause i s') (iss ++ [(i, cmd_pause true)]).

Lemma visit_ind c w i t later :
  torrents s !! i = Some t → auto_managed t = true → class_of t = c →
  i ∉ later.*1 →
  Inv (w_session w) (w_issued w) →
  untouched ((i, t) :: later) (w_session w) →
  Inv (w_session (visit L c w (i, t))) (w_issued (visit L c w (i, t)))
  ∧ untouched later (w_session (visit L c w (i, t))).
Proof.
  intros Hi Hauto Hc Hnotin HInv Hunt.
  assert (torrents (w_session w) !! i = Some t) as Hcur
    by (apply Hunt; apply list_elem_of_here).
  assert (∀ j tj, (j, tj) ∈ later → j ≠ i) as Hne.
  { intros j tj Hj ->. apply Hnotin. apply list_elem_of_fmap. by exists (i, tj). }
  assert (untouched later (w_session w)) as Hunt'.
  { intros j tj Hj. apply Hunt. by apply list_elem_of_further. }
  unfold visit.
  destruct (has_room (active_limit L) (w_active w)
            && (negb (counts_against_class L t)
                || has_room (class_limit L c) (w_class_used w))).
  - destruct (paused t) eqn:Hp.
    + destruct (paced_ok _ _) eqn:Hpace; simpl; [|done].
      split; [by eapply Inv_resume|].
      intros j tj Hj. rewrite grant_slot_other by (by eapply Hne). simpl.
      rewrite list_lookup_alter_ne by (by intros ->; eapply Hne).
      by apply Hunt'.
    + simpl. split; [by eapply Inv_keep|].
      intros j tj Hj. rewrite grant_slot_other by (by eapply Hne).
      by apply Hunt'.
  - destruct (paused t) eqn:Hp; simpl; [done|].
    split; [by eapply Inv_pause|].
    intros j tj Hj. simpl.
    rewrite list_lookup_alter_ne by (by intros ->; eapply Hne).
    by apply Hunt'.
Qed.

Lemma walk_ind c q later w :
  (∀ i t, (i, t) ∈ q →
     torrents s !! i = Some t ∧ auto_managed t = true ∧ class_of t = c) →
  NoDup ((q ++ later).*1) →
  Inv (w_session w) (w_issued w) →
  untouched (q ++ later) (w_session w) →
  Inv (w_session (foldl (visit L c) w q)) (w_issued (foldl (visit L c) w q))
  ∧ untouched later (w_session (foldl (visit L c) w q)).
Proof.
  revert w. induction q as [|[i t] q IH]; intros w Hq Hnd HInv Hunt; simpl;
    [done|].
  simpl in Hnd. apply NoDup_cons in Hnd as [Hi Hnd].
  destruct (Hq i t) as (Hlook & Hauto & Hc); [apply list_elem_of_here|].
  destruct (visit_ind c w i t (q ++ later)) as [HInv' Hunt']; try done.
  apply IH; try done.
  intros j tj Hj. apply Hq. by apply list_elem_of_further.
Qed.

Lemma tick_ind : Inv (tick L s) (commands_of_tick L s).
Proof.
  unfold tick, commands_of_tick, run_tick. simpl. unfold walk_class. simpl.
  pose proof (queues_fst_NoDup s) as Hnd.
  assert (∀ c i t, (i, t) ∈ queue_of c (candidates s) →
            torrents s !! i = Some t ∧ auto_managed t = true ∧ class_of t = c)
    as Hq.
  { intros c i t [[? ?]%candidates_elem ?]%queue_of_elem. done. }
  set (q1 := queue_of checking_slot (candidates s)) in *.
  set (q2 := queue_of downloading_slot (candidates s)) in *.
  set (q3 := queue_of seeding_slot (candidates s)) in *.
  assert (untouched (q1 ++ q2 ++ q3) s) as Hunt.
  { intros j tj [Hj|[Hj|Hj]%elem_of_app]%elem_of_app; by apply Hq in Hj as [? _]. }
  destruct (walk_ind checking_slot q1 (q2 ++ q3)
              {| w_session := s; w_active := 0; w_class_used := 0; w_issued := [] |})
    as [H1 Hunt1]; [by apply Hq|done..|].
  set (w1 := foldl (visit L checking_slot) _ q1) in *.
  destruct (walk_ind downloading_slot q2 q3
              {| w_session := w_session w1; w_active := w_active w1;
                 w_class_used := 0; w_issued := w_issued w1 |})
    as [H2 Hunt2]; [by apply Hq| |done..|].
  { rewrite fmap_app in Hnd. by apply NoDup_app in Hnd as (_ & _ & Hnd). }
  set (w2 := foldl (visit L downloading_slot) _ q2) in *.
  destruct (walk_ind seeding_slot q3 []
              {| w_session := w_session w2; w_active := w_active w2;
                 w_class_used := 0; w_issued := w_issued w2 |})
    as [H3 _]; [by apply Hq| |done| |done].
  - rewrite app_nil_r. rewrite !fmap_app in Hnd.
    apply NoDup_app in Hnd as (_ & _ & Hnd). by apply NoDup_app in Hnd as (_ & _ & Hnd).
  - by rewrite app_nil_r.
Qed.

End TickInduction.

(** *** Time and alerts of a tick *)

Lemma tick_now L s : now (tick L s) = now s.
Proof.
  apply (tick_ind L s (λ s' _, now s' = now s)); [done|..];
    intros c i t s' iss _ _ _ _ _; intros; by rewrite ?grant_slot_now.
Qed.

(** A tick only appends to the alert queue, with the time of the tick. *)
Lemma tick_alerts L s :
  ∃ new, alerts (tick L s) = alerts s ++ new
         ∧ Forall (λ a, timestamp a = now s) new.
Proof.
  apply (tick_ind L s
           (λ s' _, now s' = now s
                    ∧ ∃ new, alerts s' = alerts s ++ new
                             ∧ Forall (λ a, timestamp a = now s) new)).
  - split; [done|]. exists []. by rewrite app_nil_r.
  - intros c i t s' iss _ _ _ _ _ _ (Hnow & new & Hal & Hts).
    rewrite grant_slot_now, grant_slot_alerts. simpl. split; [done|].
    eexists. rewrite Hal, <- !app_assoc. split; [done|].
    rewrite !Forall_app. split_and!; [done|by repeat constructor|].
    destruct (_ || _); [done|]. apply Forall_fmap, Forall_forall. by intros u _.
  - intros c i t s' iss _ _ _ _ _ (Hnow & new & Hal & Hts).
    rewrite grant_slot_now, grant_slot_alerts. split; [done|].
    eexists. rewrite Hal, <- !app_assoc. split; [done|].
    rewrite !Forall_app. split; [done|].
    destruct (_ || _); [done|]. apply Forall_fmap, Forall_forall. by intros u _.
  - intros c i t s' iss _ _ _ _ _ (Hnow & new & Hal & Hts). simpl.
    split; [done|]. eexists. rewrite Hal, <- !app_assoc. split; [done|].
    rewrite !Forall_app. split; [done|]. by repeat constructor.
Qed.

Lemma new_alerts_tick L s new :
  alerts (tick L s) = alerts s ++ new → new_alerts L s ev_tick = new.
Proof.
  intros Hal. unfold new_alerts. simpl. rewrite Hal. by rewrite drop_app_length.
Qed.

(** *** Pacing *)

Lemma resumed_times_app c l l' :
  resumed_times c (l ++ l') = resumed_times c l ++ resumed_times c l'.
Proof. unfold resumed_times. by rewrite filter_app, fmap_app. Qed.

Lemma all_resumed_times_app l l' :
  all_resumed_times (l ++ l') = all_resumed_times l ++ all_resumed_times l'.
Proof. unfold all_resumed_times. by rewrite filter_app, fmap_app. Qed.

Lemma all_resumed_times_none l :
  Forall (λ a, is_resumed a = false) l → all_resumed_times l = [].
Proof.
  induction 1 as [|a l Ha Hl IH]; [done|].
  unfold all_resumed_times. rewrite filter_cons. rewrite decide_False by congruence.
  apply IH.
Qed.

Lemma all_resumed_times_grant c i t ts :
  all_resumed_times
    (if bool_decide (c = checking_slot) || announcing t then []
     else (λ u, {| timestamp := ts; handle := i; what := tracker_announce u |})
            <$> trackers t) = [].
Proof.
  destruct (_ || _); [done|].
  apply all_resumed_times_none, Forall_fmap, Forall_forall. by intros u _.
Qed.

Lemma spaced_snoc d l x :
  spaced d l → (∀ t, last l = Some t → t + d ≤ x) → spaced d (l ++ [x]).
Proof.
  induction l as [|t1 [|t2 r] IH]; simpl; intros Hl Hlast.
  - done.
  - split; [|done]. by apply Hlast.
  - destruct Hl as [H12 Hr]. split; [done|]. apply IH; [done|].
    intros t Ht. by apply Hlast.
Qed.

Lemma spaced_app_r d l1 l2 : spaced d (l1 ++ l2) → spaced d l2.
Proof.
  induction l1 as [|t1 [|t2 r] IH]; simpl; [done| |].
  - destruct l2; [done|]. by intros [_ ?].
  - intros [_ H]. by apply IH.
Qed.

Lemma spaced_same d x l :
  0 < d → spaced d l → Forall (λ t, t = x) l → (length l ≤ 1)%nat.
Proof.
  intros Hd Hs Hall. destruct l as [|t1 [|t2 r]]; simpl; [lia..|].
  destruct Hs as [H12 _].
  apply Forall_cons in Hall as [-> Hall]. apply Forall_cons in Hall as [-> _]. lia.
Qed.

(** In a spaced list every element is at least [d] after each earlier
    one, so the list stays spaced when elements are left out. *)
Lemma spaced_cons d x l :
  0 ≤ d → spaced d (x :: l) ↔ Forall (λ y, x + d ≤ y) l ∧ spaced d l.
Proof.
  intros Hd. revert x. induction l as [|y l IH]; intros x; simpl.
  - split; [by intros _|done].
  - split.
    + intros [Hxy Hl]. split; [|done].
      apply Forall_cons. split; [done|].
      apply IH in Hl as [Hall _]. eapply Forall_impl; [exact Hall|].
      simpl. intros z Hz. lia.
    + intros [[Hxy _]%Forall_cons Hl]. done.
Qed.

Lemma spaced_sublist d l l' :
  0 ≤ d → l' `sublist_of` l → spaced d l → spaced d l'.
Proof.
  intros Hd Hsub. induction Hsub as [|x l1 l2 Hsub IH|x l1 l2 Hsub IH];
    intros Hl.
  - done.
  - apply spaced_cons in Hl as [Hall Hl]; [|done].
    apply spaced_cons; [done|]. split; [|by apply IH].
    apply Forall_forall. intros y Hy. rewrite Forall_forall in Hall.
    apply Hall. by eapply elem_of_sublist.
  - apply spaced_cons in Hl as [_ Hl]; [|done]. by apply IH.
Qed.

Lemma resumed_times_sublist c l :
  resumed_times c l `sublist_of` all_resumed_times l.
Proof.
  unfold resumed_times, all_resumed_times. apply fmap_sublist.
  induction l as [|a l IH]; [done|].
  rewrite !filter_cons.
  destruct (decide (is_resumed_in c a = true)) as [Hc|Hc].
  - rewrite decide_True; [by apply sublist_skip|].
    unfold is_resumed_in in Hc. unfold is_resumed. by destruct (what a).
  - destruct (decide (is_resumed a = true)); [by apply sublist_cons|done].
Qed.

(** A tick keeps the pacing invariant. *)
Lemma tick_pacing_inv L s : pacing_inv s → pacing_inv (tick L s).
Proof.
  intros Hinv.
  apply (tick_ind L s (λ s' _, now s' = now s ∧ pacing_inv s')); [done|..].
  - intros c i t s' iss _ _ _ _ _ Hpace [Hnow (Hsp & Hlast & Hle)].
    rewrite grant_slot_now. split; [done|]. unfold pacing_inv.
    rewrite grant_slot_alerts, grant_slot_admissions, grant_slot_now. simpl.
    rewrite !all_resumed_times_app, all_resumed_times_grant, app_nil_r.
    change (all_resumed_times [{| timestamp := now s'; handle := i;
                                 what := torrent_resumed c |}])
      with [now s'].
    split_and!.
    + apply spaced_snoc; [done|]. intros t0 Ht0.
      unfold paced_ok in Hpace. rewrite Hlast, Ht0 in Hpace. lia.
    + by rewrite last_snoc.
    + intros t0 [= <-]. lia.
  - intros c i t s' iss _ _ _ _ _ [Hnow Hs'].
    rewrite grant_slot_now. split; [done|]. unfold pacing_inv.
    rewrite grant_slot_alerts, grant_slot_admissions, grant_slot_now.
    rewrite all_resumed_times_app, all_resumed_times_grant, app_nil_r. apply Hs'.
  - intros c i t s' iss _ _ _ _ _ [Hnow Hs']. simpl. split; [done|].
    unfold pacing_inv. simpl. rewrite all_resumed_times_app.
    rewrite (all_resumed_times_none [_]) by (by repeat constructor).
    rewrite app_nil_r. apply Hs'.
Qed.

Lemma post_alert_pacing_inv i w s :
  (∀ c, w ≠ torrent_resumed c) → pacing_inv s → pacing_inv (post_alert i w s).
Proof.
  intros Hw Hinv. unfold pacing_inv. simpl. rewrite all_resumed_times_app.
  rewrite (all_resumed_times_none [_]); [rewrite app_nil_r; apply Hinv|].
  repeat constructor. unfold is_resumed. simpl. destruct w; try done.
  by destruct (Hw c).
Qed.

Lemma step_pacing_inv L s e : pacing_inv s → pacing_inv (step L s e).
Proof.
  intros Hinv. destruct e as [p|d| |i|i down up|i]; simpl.
  - unfold add_torrent. by apply post_alert_pacing_inv.
  - destruct Hinv as (? & ? & Hle). unfold pacing_inv. simpl.
    split_and!; [done..|]. intros t Ht. apply Hle in Ht. lia.
  - by apply tick_pacing_inv.
  - unfold complete_check. destruct (torrents s !! i) as [t|]; [|done].
    destruct (_ && _); [|done]. by apply post_alert_pacing_inv.
  - done.
  - unfold finish_download. destruct (torrents s !! i) as [t|]; [|done].
    destruct (_ && _); [|done]. by apply post_alert_pacing_inv.
Qed.

Lemma run_pacing_inv L evs s : pacing_inv s → pacing_inv (run L evs s).
Proof.
  revert s. induction evs as [|e evs IH]; intros s Hinv; simpl; [done|].
  by apply IH, step_pacing_inv.
Qed.

Lemma empty_pacing_inv : pacing_inv empty_session.
Proof. by split_and!. Qed.

Lemma do_pause_other i s j :
  j ≠ i → torrents (do_pause i s) !! j = torrents s !! j.
Proof. intros Hne. simpl. by apply list_lookup_alter_ne. Qed.

Lemma do_resume_other c i t s j :
  j ≠ i →
  torrents (grant_slot c i t (note_admission (do_resume c i s))) !! j
  = torrents s !! j.
Proof.
  intros Hne. rewrite grant_slot_other by done. simpl.
  by apply list_lookup_alter_ne.
Qed.

(** A torrent that a tick takes from paused to active gets a
    [torrent_resumed] alert in that tick. *)
Lemma tick_started_alert L s :
  ∃ new, alerts (tick L s) = alerts s ++ new
    ∧ ∀ j, started_between s (tick L s) j →
        ∃ a, a ∈ new ∧ is_resumed a = true ∧ handle a = j.
Proof.
  apply (tick_ind L s
           (λ s' _, ∃ new, alerts s' = alerts s ++ new
              ∧ ∀ j, started_between s s' j →
                  ∃ a, a ∈ new ∧ is_resumed a = true ∧ handle a = j)).
  - exists []. rewrite app_nil_r. split; [done|].
    intros j (t & t' & Ht & Hp & Ht' & Hp'). congruence.
  - intros c i t s' iss Hi _ _ Hi' Hp _ (new & Hal & Hnew).
    rewrite grant_slot_alerts. simpl. eexists.
    rewrite Hal, <- !app_assoc. split; [done|].
    intros j (tj & tj' & Htj & Hpj & Htj' & Hpj').
    destruct (decide (j = i)) as [->|Hne].
    + exists {| timestamp := now s'; handle := i; what := torrent_resumed c |}.
      split; [|done]. apply elem_of_app. right. apply list_elem_of_here.
    + rewrite do_resume_other in Htj' by done.
      destruct (Hnew j) as (a & Ha & Hr & Hh); [by exists tj, tj'|].
      exists a. split; [|done]. apply elem_of_app. by left.
  - intros c i t s' iss Hi _ _ Hi' Hp (new & Hal & Hnew).
    rewrite grant_slot_alerts. eexists.
    rewrite Hal, <- !app_assoc. split; [done|].
    intros j (tj & tj' & Htj & Hpj & Htj' & Hpj').
    destruct (decide (j = i)) as [->|Hne].
    + congruence.
    + rewrite grant_slot_other in Htj' by done.
      destruct (Hnew j) as (a & Ha & Hr & Hh); [by exists tj, tj'|].
      exists a. split; [|done]. apply elem_of_app. by left.
  - intros c i t s' iss Hi _ _ Hi' Hp (new & Hal & Hnew).
    simpl. eexists. rewrite Hal, <- !app_assoc. split; [done|].
    intros j (tj & tj' & Htj & Hpj & Htj' & Hpj').
    destruct (decide (j = i)) as [->|Hne].
    + congruence.
    + rewrite do_pause_other in Htj' by done.
      destruct (Hnew j) as (a & Ha & Hr & Hh); [by exists tj, tj'|].
      exists a. split; [|done]. apply elem_of_app. by left.
Qed.

Lemma filter_at_most_one {A} (P : A → Prop) `{!∀ x, Decision (P x)}
    (l : list A) (a b : A) :
  (length (filter P l) ≤ 1)%nat → a ∈ l → P a → b ∈ l → P b → a = b.
Proof.
  intros Hlen Ha HPa Hb HPb.
  assert (a ∈ filter P l) as Ha' by (by apply list_elem_of_filter).
  assert (b ∈ filter P l) as Hb' by (by apply list_elem_of_filter).
  destruct (filter P l) as [|x [|y r]]; simpl in Hlen; [|..|lia].
  - by apply elem_of_nil in Ha'.
  - apply list_elem_of_singleton in Ha', Hb'. congruence.
Qed.

(** C2. In every run of the session from its start, whatever the limits
    and the events: two successive [torrent_resumed] alerts of the same
    queue class are at least 60 seconds apart, and so are two successive
    [torrent_resumed] alerts of whatever classes; a single tick posts at
    most one [torrent_resumed] alert, and at most one torrent goes from
    paused to active in it. *)
Theorem pacing_60_seconds (L : limits) (evs : list event) :
  (∀ c, spaced 60 (resumed_times c (alerts (run L evs empty_session))))
  ∧ spaced 60 (all_resumed_times (alerts (run L evs empty_session)))
  ∧ (length (filter (λ a, is_resumed a = true)
               (new_alerts L (run L evs empty_session) ev_tick)) ≤ 1)%nat
  ∧ (∀ i j, started_between (run L evs empty_session)
                (tick L (run L evs empty_session)) i →
            started_between (run L evs empty_session)
                (tick L (run L evs empty_session)) j →
            i = j).
Proof.
  pose proof (run_pacing_inv L evs empty_session empty_pacing_inv) as Hinv.
  set (s := run L evs empty_session) in *.
  assert (length (filter (λ a, is_resumed a = true) (new_alerts L s ev_tick)) ≤ 1)%nat
    as Hone.
  { destruct (tick_alerts L s) as (new & Hal & Hts).
    rewrite (new_alerts_tick L s new Hal).
    destruct (tick_pacing_inv L s Hinv) as (Hsp & _ & _).
    rewrite Hal, all_resumed_times_app in Hsp. apply spaced_app_r in Hsp.
    rewrite <- (length_fmap timestamp).
    apply (spaced_same pacing_interval (now s)); [done|done|].
    apply Forall_fmap.
    apply Forall_forall. intros a [_ Ha]%list_elem_of_filter.
    rewrite Forall_forall in Hts. by apply Hts. }
  split_and!.
  - intros c. apply (spaced_sublist _ (all_resumed_times (alerts s))); [done| |].
    + apply resumed_times_sublist.
    + apply Hinv.
  - apply Hinv.
  - exact Hone.
  - intros i j Hi Hj.
    destruct (tick_started_alert L s) as (new & Hal & Hnew).
    rewrite (new_alerts_tick L s new Hal) in Hone.
    destruct (Hnew i Hi) as (a & Ha & Hra & <-).
    destruct (Hnew j Hj) as (b & Hb & Hrb & <-).
    f_equal. by apply (filter_at_most_one (λ a, is_resumed a = true) new).
Qed.

(** *** Force states *)

(** A tick issues commands on auto-managed torrents only, leaves every
    other torrent as it is and posts no alert about it. *)
Lemma tick_auto_managed_only L s :
  (∀ i cmd, (i, cmd) ∈ commands_of_tick L s →
            ∃ t, torrents s !! i = Some t ∧ auto_managed t = true)
  ∧ (∀ j tj, torrents s !! j = Some tj → auto_managed tj = false →
             torrents (tick L s) !! j = Some tj)
  ∧ (∀ a, a ∈ new_alerts L s ev_tick →
          ∃ t, torrents s !! handle a = Some t ∧ auto_managed t = true).
Proof.
  set (P := λ i, ∃ t, torrents s !! i = Some t ∧ auto_managed t = true).
  assert (∀ i t j tj, torrents s !! i = Some t → auto_managed t = true →
            torrents s !! j = Some tj → auto_managed tj = false → j ≠ i) as Hne.
  { intros i t j tj Hi Ha Hj Hf ->. congruence. }
  assert ((∀ i cmd, (i, cmd) ∈ commands_of_tick L s → P i)
          ∧ (∀ j tj, torrents s !! j = Some tj → auto_managed tj = false →
                     torrents (tick L s) !! j = Some tj)
          ∧ ∃ new, alerts (tick L s) = alerts s ++ new
                   ∧ Forall (λ a, P (handle a)) new) as (Hc & Ht & new & Hal & Hnew).
  { apply (tick_ind L s
             (λ s' iss,
                (∀ i cmd, (i, cmd) ∈ iss → P i)
                ∧ (∀ j tj, torrents s !! j = Some tj → auto_managed tj = false →
                           torrents s' !! j = Some tj)
                ∧ ∃ new, alerts s' = alerts s ++ new
                         ∧ Forall (λ a, P (handle a)) new)).
    - split_and!; [by intros i cmd ?%elem_of_nil|done|].
      exists []. by rewrite app_nil_r.
    - intros c i t s' iss Hi Ha _ _ _ _ (Hiss & Hother & new & Hal & Hnew).
      assert (P i) as HP by (by exists t).
      split_and!.
      + intros i' cmd [?|[= -> ->]%list_elem_of_singleton]%elem_of_app; eauto.
      + intros j tj Hj Hf. rewrite do_resume_other by (by eapply Hne). eauto.
      + rewrite grant_slot_alerts. simpl. eexists.
        rewrite Hal, <- !app_assoc. split; [done|].
        rewrite !Forall_app. split_and!; [done|by repeat constructor|].
        destruct (_ || _); [done|]. apply Forall_fmap, Forall_forall. by intros u _.
    - intros c i t s' iss Hi Ha _ _ _ (Hiss & Hother & new & Hal & Hnew).
      assert (P i) as HP by (by exists t).
      split_and!; [done| |].
      + intros j tj Hj Hf. rewrite grant_slot_other by (by eapply Hne). eauto.
      + rewrite grant_slot_alerts. eexists.
        rewrite Hal, <- !app_assoc. split; [done|].
        rewrite !Forall_app. split; [done|].
        destruct (_ || _); [done|]. apply Forall_fmap, Forall_forall. by intros u _.
    - intros c i t s' iss Hi Ha _ _ _ (Hiss & Hother & new & Hal & Hnew).
      assert (P i) as HP by (by exists t).
      split_and!.
      + intros i' cmd [?|[= -> ->]%list_elem_of_singleton]%elem_of_app; eauto.
      + intros j tj Hj Hf. rewrite do_pause_other by (by eapply Hne). eauto.
      + simpl. eexists. rewrite Hal, <- !app_assoc. split; [done|].
        rewrite !Forall_app. split; [done|]. by repeat constructor. }
  split_and!; [done..|].
  intros a Ha. rewrite (new_alerts_tick L s new Hal) in Ha.
  rewrite Forall_forall in Hnew. by apply Hnew.
Qed.

(** Without auto-managed torrents a tick does nothing. *)
Lemma tick_all_forced L s :
  Forall (λ t, auto_managed t = false) (torrents s) → tick L s = s.
Proof.
  intros Hall.
  assert (candidates s = []) as Hc.
  { apply elem_of_nil_inv. intros [i t] [Hi Ha]%candidates_elem.
    rewrite Forall_forall in Hall. apply list_elem_of_lookup_2 in Hi.
    apply Hall in Hi. congruence. }
  unfold tick, run_tick. rewrite Hc. simpl. by destruct s.
Qed.

Lemma forced_inv_alter s ps i f w :
  (∀ t, auto_managed (f t) = auto_managed t ∧ paused (f t) = paused t) →
  is_resumed {| timestamp := now s; handle := i; what := w |} = false →
  is_paused_alert {| timestamp := now s; handle := i; what := w |} = false →
  forced_inv s ps → forced_inv (post_alert i w (update_torrent i f s)) ps.
Proof.
  intros Hf Hr Hp (Hfl & Hps & Hal). split_and!; [|done|].
  - simpl. apply Forall2_alter_l; [done|].
    intros t p _ _ [? ?]. destruct (Hf t) as [Ha Hpa].
    split; by rewrite ?Ha, ?Hpa.
  - simpl. rewrite Forall_app. split; [done|]. by repeat constructor.
Qed.

Lemma step_forced_inv L s ps e :
  all_forced [e] → forced_inv s ps → forced_inv (step L s e) (ps ++ added_params [e]).
Proof.
  intros He Hinv. destruct e as [p|d| |i|i down up|i]; simpl;
    rewrite ?app_nil_r.
  - destruct Hinv as (Hfl & Hps & Hal). split_and!.
    + simpl. apply Forall2_app; [done|]. by repeat constructor.
    + rewrite Forall_app. split; [done|]. apply He.
    + simpl. rewrite Forall_app. split; [done|]. by repeat constructor.
  - done.
  - rewrite tick_all_forced; [done|].
    destruct Hinv as (Hfl & Hps & _).
    apply Forall_forall. intros t Ht.
    apply list_elem_of_lookup in Ht as [i Hi].
    destruct (Forall2_lookup_l _ _ _ _ _ Hfl Hi) as (p & Hp & [Ha _]).
    rewrite Forall_forall in Hps. rewrite Ha. apply Hps.
    by eapply list_elem_of_lookup_2.
  - unfold complete_check. destruct (torrents s !! i) as [t|]; [|done].
    destruct (_ && _); [|done]. by apply forced_inv_alter.
  - destruct Hinv as (Hfl & Hps & Hal). split_and!; [|done..].
    simpl. apply Forall2_alter_l; [done|]. by intros t p _ _ [? ?].
  - unfold finish_download. destruct (torrents s !! i) as [t|]; [|done].
    destruct (_ && _); [|done]. by apply forced_inv_alter.
Qed.

Lemma added_params_cons e evs :
  added_params (e :: evs) = added_params [e] ++ added_params evs.
Proof. by destruct e. Qed.

Lemma run_forced_inv L evs s ps :
  all_forced evs → forced_inv s ps →
  forced_inv (run L evs s) (ps ++ added_params evs).
Proof.
  revert s ps. induction evs as [|e evs IH]; intros s ps Hevs Hinv.
  - simpl. by rewrite app_nil_r.
  - unfold all_forced in Hevs. rewrite added_params_cons, Forall_app in Hevs.
    destruct Hevs as [He Hrest].
    rewrite added_params_cons, app_assoc.
    change (run L (e :: evs) s) with (run L evs (step L s e)).
    apply IH; [done|]. by apply step_forced_inv.
Qed.

(** C3. A tick never issues a command on a torrent with
    [auto_managed = false], leaves the torrent as it is and posts no alert
    about it; and in a run in which every torrent is added with
    [auto_managed = false], paused or not, no [torrent_resumed] and no
    [torrent_paused] alert is posted and every torrent ends with the flags
    it was added with. *)
Theorem force_states (L : limits) :
  (∀ s i t, torrents s !! i = Some t → auto_managed t = false →
     (∀ cmd, (i, cmd) ∉ commands_of_tick L s)
     ∧ torrents (tick L s) !! i = Some t
     ∧ (∀ a, a ∈ new_alerts L s ev_tick → handle a ≠ i))
  ∧ (∀ evs, all_forced evs →
       Forall (λ a, is_resumed a = false ∧ is_paused_alert a = false)
         (alerts (run L evs empty_session))
       ∧ Forall2 flags_as_added (torrents (run L evs empty_session))
           (added_params evs)).
Proof.
  split.
  - intros s i t Hi Hf.
    destruct (tick_auto_managed_only L s) as (Hc & Ht & Ha).
    split_and!.
    + intros cmd Hin. apply Hc in Hin as (t' & Hi' & Ha'). congruence.
    + by apply Ht.
    + intros a Hin Heq. apply Ha in Hin as (t' & Hi' & Ha').
      rewrite Heq in Hi'. congruence.
  - intros evs Hevs.
    destruct (run_forced_inv L evs empty_session [] Hevs) as (Hfl & _ & Hal).
    + split_and!; by constructor.
    + done.
Qed.

(** *** Announcing *)

Lemma class_of_not_checking t :
  class_of t ≠ checking_slot → is_checking (state t) = false.
Proof. unfold class_of. destruct (is_checking (state t)); [done|]. done. Qed.

Lemma grant_slot_announces c i t s a :
  a ∈ alerts (grant_slot c i t s) → is_announce a = true →
  a ∈ alerts s
  ∨ (handle a = i ∧ c ≠ checking_slot ∧ announcing t = false).
Proof.
  rewrite grant_slot_alerts. intros [Ha|Ha]%elem_of_app Hann; [by left|right].
  destruct (bool_decide (c = checking_slot)) eqn:Hc; simpl in Ha;
    [by apply elem_of_nil in Ha|].
  destruct (announcing t); [by apply elem_of_nil in Ha|].
  apply list_elem_of_fmap in Ha as (u & -> & _). simpl.
  by apply bool_decide_eq_false in Hc.
Qed.

Lemma grant_slot_lookup c i t s :
  torrents s !! i = Some t → c ≠ checking_slot → announcing t = false →
  torrents (grant_slot c i t s) !! i = Some (set_announcing true t).
Proof.
  intros Hi Hc Ha. rewrite grant_slot_torrents.
  rewrite bool_decide_eq_false_2, Ha by done. simpl.
  by rewrite list_lookup_alter_eq, Hi.
Qed.

(** What a tick records about the announces it causes and the torrents it
    pauses. *)
Lemma tick_announces L s :
  ∃ new, alerts (tick L s) = alerts s ++ new
    ∧ (∀ a, a ∈ new → is_announce a = true →
         ∃ t t', torrents s !! handle a = Some t
                 ∧ is_checking (state t) = false ∧ announcing t = false
                 ∧ torrents (tick L s) !! handle a = Some t'
                 ∧ paused t' = false ∧ announcing t' = true)
    ∧ (∀ i g, (i, cmd_pause g) ∈ commands_of_tick L s →
         ∃ t t', torrents s !! i = Some t ∧ paused t = false
                 ∧ torrents (tick L s) !! i = Some t' ∧ paused t' = true).
Proof.
  apply (tick_ind L s
    (λ s' iss, ∃ new, alerts s' = alerts s ++ new
       ∧ (∀ a, a ∈ new → is_announce a = true →
            ∃ t t', torrents s !! handle a = Some t
                    ∧ is_checking (state t) = false ∧ announcing t = false
                    ∧ torrents s' !! handle a = Some t'
                    ∧ paused t' = false ∧ announcing t' = true)
       ∧ (∀ i g, (i, cmd_pause g) ∈ iss →
            ∃ t t', torrents s !! i = Some t ∧ paused t = false
                    ∧ torrents s' !! i = Some t' ∧ paused t' = true))).
  - exists []. rewrite app_nil_r. split_and!; [done|..].
    + by intros a ?%elem_of_nil.
    + by intros i g ?%elem_of_nil.
  - intros c i t s' iss Hi Hauto Hc Hcur Hp Hpace (new & Hal & Hann & Hpau).
    assert (∀ a, a ∈ new → is_announce a = true → handle a ≠ i) as Hfresh.
    { intros a Ha Han Heq. destruct (Hann a Ha Han) as (t0 & t' & _ & _ & _ & Ht' & Hp' & _).
      rewrite Heq in Ht'. congruence. }
    assert (∀ j g, (j, cmd_pause g) ∈ iss → j ≠ i) as Hfresh'.
    { intros j g Hj ->. destruct (Hpau i g Hj) as (t0 & t' & Ht0 & Hp0 & _).
      congruence. }
    eexists. rewrite grant_slot_alerts. simpl. rewrite Hal, <- !app_assoc.
    split; [done|]. split.
    + intros a [Ha|[Ha|Ha]%elem_of_app]%elem_of_app Han.
      * destruct (Hann a Ha Han) as (t0 & t' & ? & ? & ? & Ht' & ? & ?).
        exists t0, t'. rewrite do_resume_other by (by apply Hfresh). done.
      * apply list_elem_of_singleton in Ha as ->. done.
      * destruct (bool_decide (c = checking_slot)) eqn:Hck; simpl in Ha;
          [by apply elem_of_nil in Ha|].
        destruct (announcing t) eqn:Hat; [by apply elem_of_nil in Ha|].
        apply list_elem_of_fmap in Ha as (u & -> & _). simpl.
        apply bool_decide_eq_false in Hck.
        exists t, (set_announcing true (set_paused false t)).
        split_and!; try done.
        -- apply class_of_not_checking. by rewrite Hc.
        -- rewrite grant_slot_torrents, bool_decide_eq_false_2, Hat by done. simpl.
           by rewrite !list_lookup_alter_eq, Hcur.
    + intros j g [Hj|[= -> <-]%list_elem_of_singleton]%elem_of_app.
      destruct (Hpau j g Hj) as (t0 & t' & ? & ? & Ht' & ?).
      exists t0, t'. rewrite do_resume_other by (by eapply Hfresh'). done.
  - intros c i t s' iss Hi Hauto Hc Hcur Hp (new & Hal & Hann & Hpau).
    assert (∀ a, a ∈ new → is_announce a = true →
              handle a = i → announcing t = true) as Hsame.
    { intros a Ha Han Heq. destruct (Hann a Ha Han) as (t0 & t' & _ & _ & _ & Ht' & _ & Han').
      rewrite Heq in Ht'. congruence. }
    assert (∀ j g, (j, cmd_pause g) ∈ iss → j ≠ i) as Hfresh'.
    { intros j g Hj ->. destruct (Hpau i g Hj) as (t0 & t' & _ & _ & Ht' & Hp').
      congruence. }
    eexists. rewrite grant_slot_alerts. rewrite Hal, <- !app_assoc.
    split; [done|]. split.
    + intros a [Ha|Ha]%elem_of_app Han.
      * destruct (Hann a Ha Han) as (t0 & t' & ? & ? & ? & Ht' & ? & ?).
        exists t0, t'. split_and!; try done.
        rewrite grant_slot_torrents.
        destruct (bool_decide (c = checking_slot) || announcing t) eqn:Hg; [done|].
        apply orb_false_iff in Hg as [_ Hat].
        rewrite list_lookup_alter_ne; [done|].
        intros Heq. symmetry in Heq. apply (Hsame a Ha Han) in Heq. congruence.
      * destruct (bool_decide (c = checking_slot)) eqn:Hck; simpl in Ha;
          [by apply elem_of_nil in Ha|].
        destruct (announcing t) eqn:Hat; [by apply elem_of_nil in Ha|].
        apply list_elem_of_fmap in Ha as (u & -> & _). simpl.
        apply bool_decide_eq_false in Hck.
        exists t, (set_announcing true t).
        split_and!; try done.
        -- apply class_of_not_checking. by rewrite Hc.
        -- by apply grant_slot_lookup.
    + intros j g Hj.
      destruct (Hpau j g Hj) as (t0 & t' & ? & ? & Ht' & ?).
      exists t0, t'. rewrite grant_slot_other by (by eapply Hfresh'). done.
  - intros c i t s' iss Hi Hauto Hc Hcur Hp (new & Hal & Hann & Hpau).
    assert (∀ a, a ∈ new → is_announce a = true → handle a ≠ i) as Hfresh.
    { intros a Ha Han Heq. destruct (Hann a Ha Han) as (t0 & t' & Ht0 & _ & Hat0 & Ht' & _ & Hat').
      rewrite Heq in Ht0, Ht'. congruence. }
    assert (∀ j g, (j, cmd_pause g) ∈ iss → j ≠ i) as Hfresh'.
    { intros j g Hj ->. destruct (Hpau i g Hj) as (t0 & t' & _ & _ & Ht' & Hp').
      congruence. }
    eexists. simpl. rewrite Hal, <- !app_assoc.
    split; [done|]. split.
    + intros a [Ha|Ha]%elem_of_app Han.
      * destruct (Hann a Ha Han) as (t0 & t' & ? & ? & ? & Ht' & ? & ?).
        assert (handle a ≠ i) by eauto.
        exists t0, t'. by rewrite list_lookup_alter_ne.
      * apply list_elem_of_singleton in Ha as ->. done.
    + intros j g [Hj|[= -> ->]%list_elem_of_singleton]%elem_of_app.
      * destruct (Hpau j g Hj) as (t0 & t' & ? & ? & Ht' & ?).
        assert (j ≠ i) by eauto.
        exists t0, t'. by rewrite list_lookup_alter_ne.
      * exists t, (set_announcing false (set_paused true t)).
        split_and!; try done. by rewrite list_lookup_alter_eq, Hcur.
Qed.

(** *** Limits that do not bind

    Two settings that count the same torrents against their class, give
    the same limit to every class that has candidates and whose global caps
    both leave room for all torrents, make a tick do the same. *)

Lemma has_room_slack G a n :
  (G < 0 ∨ Z.of_nat n ≤ G) → a < Z.of_nat n → has_room G a = true.
Proof. intros [HG|HG] Ha; unfold has_room; apply orb_true_iff; [left|right]; lia. Qed.

Lemma visit_active L c w x :
  w_active w ≤ w_active (visit L c w x) ≤ w_active w + 1.
Proof.
  destruct x as [i t]. unfold visit.
  repeat (match goal with |- context [if ?b then _ else _] => destruct b end);
    simpl; lia.
Qed.

Lemma visit_agree L L' c w i t :
  counts_against_class L t = counts_against_class L' t →
  class_limit L c = class_limit L' c →
  has_room (active_limit L) (w_active w) = has_room (active_limit L') (w_active w) →
  visit L c w (i, t) = visit L' c w (i, t).
Proof. unfold visit. by intros -> -> ->. Qed.

Lemma walk_agree L L' c q n w :
  (∀ i t, (i, t) ∈ q → counts_against_class L t = counts_against_class L' t) →
  (q ≠ [] → class_limit L c = class_limit L' c) →
  cap_admits n L → cap_admits n L' →
  w_active w + Z.of_nat (length q) ≤ Z.of_nat n →
  foldl (visit L c) w q = foldl (visit L' c) w q
  ∧ w_active (foldl (visit L' c) w q) ≤ w_active w + Z.of_nat (length q).
Proof.
  revert w. induction q as [|[i t] q IH]; intros w Hcnt Hlim HL HL' Hle.
  { simpl. split; [done|lia]. }
  cbn [foldl]. rewrite length_cons in Hle.
  rewrite (visit_agree L L' c w i t).
  - pose proof (visit_active L' c w (i, t)) as Hact.
    destruct (IH (visit L' c w (i, t))) as [-> Hle']; try done.
    + intros j tj Hj. apply (Hcnt j). by apply list_elem_of_further.
    + intros _. by apply Hlim.
    + lia.
    + split; [done|]. rewrite length_cons. lia.
  - apply (Hcnt i). apply list_elem_of_here.
  - by apply Hlim.
  - rewrite !(has_room_slack _ _ n); (done || lia).
Qed.

Lemma queues_length s :
  (length (queue_of checking_slot (candidates s)
           ++ queue_of downloading_slot (candidates s)
           ++ queue_of seeding_slot (candidates s))
   ≤ length (torrents s))%nat.
Proof.
  apply (Nat.le_trans _ (length (seq 0 (length (torrents s)))));
    [|by rewrite length_seq].
  rewrite <- (length_fmap fst). apply submseteq_length.
  apply NoDup_submseteq; [apply queues_fst_NoDup|].
  intros i ([j t] & -> & Hin)%list_elem_of_fmap. simpl.
  assert ((j, t) ∈ candidates s) as [Hj _]%candidates_elem.
  { rewrite !elem_of_app in Hin.
    destruct Hin as [Hin|[Hin|Hin]]; by apply queue_of_elem in Hin as [? _]. }
  apply elem_of_seq. apply lookup_lt_Some in Hj. lia.
Qed.

Lemma tick_agree L L' s n :
  (∀ t, t ∈ torrents s → counts_against_class L t = counts_against_class L' t) →
  (∀ t, t ∈ torrents s → auto_managed t = true →
        class_limit L (class_of t) = class_limit L' (class_of t)) →
  cap_admits n L → cap_admits n L' →
  (length (torrents s) ≤ n)%nat →
  tick L s = tick L' s.
Proof.
  intros Hcnt Hlim HL HL' Hn.
  pose proof (queues_length s) as Hlen. rewrite !length_app in Hlen.
  assert (∀ c i t, (i, t) ∈ queue_of c (candidates s) →
            counts_against_class L t = counts_against_class L' t) as Hq.
  { intros c i t [[Hi _]%candidates_elem _]%queue_of_elem.
    apply Hcnt. by eapply list_elem_of_lookup_2. }
  assert (∀ c, queue_of c (candidates s) ≠ [] →
               class_limit L c = class_limit L' c) as Hc.
  { intros c Hne. destruct (queue_of c (candidates s)) as [|[i t] q] eqn:Hqc; [done|].
    assert ((i, t) ∈ queue_of c (candidates s)) as Hin
      by (rewrite Hqc; apply list_elem_of_here).
    apply queue_of_elem in Hin as [[Hi Ha]%candidates_elem <-]. simpl.
    apply Hlim; [|done]. by eapply list_elem_of_lookup_2. }
  unfold tick, run_tick. simpl. unfold walk_class. simpl.
  set (q1 := queue_of checking_slot (candidates s)) in *.
  set (q2 := queue_of downloading_slot (candidates s)) in *.
  set (q3 := queue_of seeding_slot (candidates s)) in *.
  destruct (walk_agree L L' checking_slot q1 n
              {| w_session := s; w_active := 0; w_class_used := 0; w_issued := [] |})
    as [-> H1]; [by apply (Hq checking_slot)|by apply Hc|done..|simpl; lia|].
  simpl in H1.
  set (w1 := foldl (visit L' checking_slot) _ q1) in *.
  destruct (walk_agree L L' downloading_slot q2 n
              {| w_session := w_session w1; w_active := w_active w1;
                 w_class_used := 0; w_issued := w_issued w1 |})
    as [-> H2]; [by apply (Hq downloading_slot)|by apply Hc|done..|simpl; lia|].
  simpl in H2.
  set (w2 := foldl (visit L' downloading_slot) _ q2) in *.
  destruct (walk_agree L L' seeding_slot q3 n
              {| w_session := w_session w2; w_active := w_active w2;
                 w_class_used := 0; w_issued := w_issued w2 |})
    as [-> _]; [by apply (Hq seeding_slot)|by apply Hc|done..|simpl; lia|].
  done.
Qed.

(** A tick changes the [paused] and [announcing] flags only. *)
Lemma same_static_refl t : same_static t t.
Proof. by repeat split. Qed.

Lemma Forall2_same_static_alter (l l' : list torrent) i f :
  (∀ t, same_static t (f t)) →
  Forall2 same_static l l' → Forall2 same_static l (alter f i l').
Proof.
  intros Hf Hll. apply Forall2_alter_r; [done|].
  intros t t' _ _ (? & ? & ? & ? & ? & ? & ?).
  destruct (Hf t') as (? & ? & ? & ? & ? & ? & ?).
  repeat split; congruence.
Qed.

Lemma tick_static L s : Forall2 same_static (torrents s) (torrents (tick L s)).
Proof.
  apply (tick_ind L s (λ s' _, Forall2 same_static (torrents s) (torrents s'))).
  - apply Forall_Forall2_diag, Forall_forall. intros t _. apply same_static_refl.
  - intros c i t s' iss _ _ _ _ _ _ Hs'. rewrite grant_slot_torrents.
    destruct (_ || _); simpl; repeat apply Forall2_same_static_alter; try done;
      intros t0; by repeat split.
  - intros c i t s' iss _ _ _ _ _ Hs'. rewrite grant_slot_torrents.
    destruct (_ || _); simpl; repeat apply Forall2_same_static_alter; try done;
      intros t0; by repeat split.
  - intros c i t s' iss _ _ _ _ _ Hs'. simpl.
    apply Forall2_same_static_alter; [|done]. intros t0. by repeat split.
Qed.

(** Events other than ticks do not read the limits, so two settings that
    make every tick of a run do the same make the run the same. *)
Lemma run_agree (I : session → Prop) L L' evs s :
  (∀ s e, e ∈ evs → I s → I (step L' s e)) →
  (∀ s, I s → tick L s = tick L' s) →
  I s → run L evs s = run L' evs s.
Proof.
  revert s. induction evs as [|e evs IH]; intros s Hstep Htick Hs; simpl; [done|].
  assert (step L s e = step L' s e) as ->.
  { destruct e; simpl; try done. by apply Htick. }
  apply IH; [|done|].
  - intros s' e' He'. apply Hstep. by apply list_elem_of_further.
  - apply Hstep; [apply list_elem_of_here|done].
Qed.

Lemma run_adds L L' ps s : run L (ev_add <$> ps) s = run L' (ev_add <$> ps) s.
Proof. revert s. induction ps as [|p ps IH]; intros s; simpl; [done|apply IH]. Qed.

Lemma run_app L evs evs' s : run L (evs ++ evs') s = run L evs' (run L evs s).
Proof. unfold run. by rewrite foldl_app. Qed.

Lemma elem_of_period n e :
  e ∈ period n → e = ev_tick ∨ e = ev_advance 60 ∨ ∃ i, e = ev_check_done i.
Proof.
  unfold period. rewrite !elem_of_app.
  intros [Hin|[Hin|Hin]].
  - apply list_elem_of_singleton in Hin. by left.
  - apply list_elem_of_fmap in Hin as (i & -> & _). right. right. by exists i.
  - apply elem_of_cons in Hin as [->|Hin]; [by left|].
    apply list_elem_of_singleton in Hin. right. by left.
Qed.

Lemma elem_of_test_periods n k e :
  e ∈ mjoin (replicate k (period n)) →
  e = ev_tick ∨ e = ev_advance 60 ∨ ∃ i, e = ev_check_done i.
Proof.
  induction k as [|k IH]; [by intros ?%elem_of_nil|].
  change (replicate (S k) (period n)) with (period n :: replicate k (period n)).
  change (mjoin (period n :: replicate k (period n)))
    with (period n ++ mjoin (replicate k (period n))).
  intros [Hin|Hin]%elem_of_app; [by apply (elem_of_period n)|by apply IH].
Qed.

(** *** The sessions of the scenarios *)

Lemma idle_downloaders_step L s e :
  e = ev_tick ∨ e = ev_advance 60 ∨ (∃ i, e = ev_check_done i) →
  idle_downloaders s → idle_downloaders (step L s e).
Proof.
  intros [->|[->|[i ->]]] [Hlen Hall]; simpl.
  - pose proof (tick_static L s) as Hst. split.
    + by rewrite <- (Forall2_length _ _ _ Hst).
    + apply Forall_forall. intros t' Ht'.
      apply list_elem_of_lookup in Ht' as [i Hi].
      destruct (Forall2_lookup_r _ _ _ _ _ Hst Hi) as (t & Ht & Hs).
      destruct Hs as (_ & Hstate & _ & Hd & Hu & _).
      rewrite Forall_forall in Hall.
      destruct (Hall t) as (? & ? & ?); [by eapply list_elem_of_lookup_2|].
      split_and!; congruence.
  - done.
  - unfold complete_check. destruct (torrents s !! i) as [t|] eqn:Hi; [|done].
    rewrite Forall_forall in Hall.
    destruct (Hall t) as (Hst & _); [by eapply list_elem_of_lookup_2|].
    rewrite Hst. simpl. split; [done|]. by apply Forall_forall.
Qed.

Lemma idle_downloaders_tick_agree L L' s :
  dont_count_slow_torrents L = dont_count_slow_torrents L' →
  active_downloads L = active_downloads L' →
  0 ≤ inactive_down_rate L → 0 ≤ inactive_up_rate L →
  0 ≤ inactive_down_rate L' → 0 ≤ inactive_up_rate L' →
  cap_admits num_torrents L → cap_admits num_torrents L' →
  idle_downloaders s → tick L s = tick L' s.
Proof.
  intros Hdc Hd ? ? ? ? HL HL' [Hlen Hall]. rewrite Forall_forall in Hall.
  apply (tick_agree L L' s num_torrents); try done.
  - intros t (Hst & Hdr & Hur)%Hall.
    unfold counts_against_class, is_slow. rewrite Hdc, Hst, Hdr, Hur. simpl.
    rewrite !(proj2 (Z.leb_le _ _)) by done. done.
  - intros t (Hst & _)%Hall _. unfold class_of, is_finished. rewrite Hst. simpl.
    done.
Qed.

Lemma complete_seeds_step L s e :
  e = ev_tick ∨ e = ev_advance 60 ∨ (∃ i, e = ev_check_done i) →
  complete_seeds s → complete_seeds (step L s e).
Proof.
  intros [->|[->|[i ->]]] [Hlen Hall]; simpl.
  - pose proof (tick_static L s) as Hst. split.
    + by rewrite <- (Forall2_length _ _ _ Hst).
    + apply Forall_forall. intros t' Ht'.
      apply list_elem_of_lookup in Ht' as [i Hi].
      destruct (Forall2_lookup_r _ _ _ _ _ Hst Hi) as (t & Ht & Hs).
      destruct Hs as (_ & Hstate & _ & _ & _ & _ & Hdata).
      rewrite Forall_forall in Hall.
      destruct (Hall t) as (? & ?); [by eapply list_elem_of_lookup_2|].
      split; congruence.
  - done.
  - unfold complete_check. destruct (torrents s !! i) as [t|] eqn:Hi; [|done].
    destruct (_ && _); [|done]. unfold complete_seeds, post_alert, update_torrent.
    cbn [torrents]. split; [by rewrite length_alter|].
    apply Forall_alter; [done|]. intros t' Ht' [_ Hdata]. simpl.
    assert (t' = t) as -> by congruence.
    rewrite Hdata. split; [by right|done].
Qed.

Lemma complete_seeds_tick_agree L L' s :
  dont_count_slow_torrents L = false → dont_count_slow_torrents L' = false →
  active_checking L = active_checking L' →
  active_seeds L = active_seeds L' →
  cap_admits num_torrents L → cap_admits num_torrents L' →
  complete_seeds s → tick L s = tick L' s.
Proof.
  intros Hdc Hdc' Hck Hsd HL HL' [Hlen Hall]. rewrite Forall_forall in Hall.
  apply (tick_agree L L' s num_torrents); try done.
  - intros t _. unfold counts_against_class. by rewrite Hdc, Hdc'.
  - intros t ([Hst|Hst] & _)%Hall _; unfold class_of, is_finished;
      rewrite Hst; simpl; done.
Qed.

(** A scenario runs the same under two settings that make its ticks
    agree. *)
Lemma run_test_agree (I : session → Prop) L L' setup :
  (∀ s e, e = ev_tick ∨ e = ev_advance 60 ∨ (∃ i, e = ev_check_done i) →
          I s → I (step L' s e)) →
  (∀ s, I s → tick L s = tick L' s) →
  I (run L' (ev_add <$> setup) empty_session) →
  run_test L setup = run_test L' setup.
Proof.
  intros Hstep Htick Hinit. unfold run_test, test_events.
  rewrite !run_app, (run_adds L L').
  apply (run_agree I); [|done..].
  intros s e He. apply Hstep. by apply elem_of_test_periods in He.
Qed.

(** Only a tick can post a [tracker_announce] alert. *)
Lemma new_alerts_no_announce L s e a :
  e ≠ ev_tick → a ∈ new_alerts L s e → is_announce a = false.
Proof.
  intros He. unfold new_alerts.
  assert (∀ i w, a ∈ drop (length (alerts s)) (alerts (post_alert i w s)) →
                 a = {| timestamp := now s; handle := i; what := w |}) as Hpost.
  { intros i w. simpl. rewrite drop_app_length. by intros ?%list_elem_of_singleton. }
  assert (a ∈ drop (length (alerts s)) (alerts s) → is_announce a = false) as Hsame.
  { rewrite drop_all. by intros ?%elem_of_nil. }
  destruct e as [p|d| |i|i down up|i]; simpl; try done.
  - unfold add_torrent. simpl. rewrite drop_app_length.
    by intros ->%list_elem_of_singleton.
  - unfold complete_check. destruct (torrents s !! i) as [t|]; [|done].
    destruct (_ && _); [|done]. simpl. rewrite drop_app_length.
    by intros ->%list_elem_of_singleton.
  - unfold finish_download. destruct (torrents s !! i) as [t|]; [|done].
    destruct (_ && _); [|done]. simpl. rewrite drop_app_length.
    by intros ->%list_elem_of_singleton.
Qed.

(** C4. No torrent in a checking state announces: only a tick posts
    [tracker_announce] alerts, and only for torrents that are not checking
    (the completion of a check posts none); a torrent that a tick pauses,
    as it does with a seed that comes out of its check and finds no slot,
    gets no announce in that tick. In the scenario of ten complete seeds
    with one tracker each, [active_seeds = 1] and [active_checking = 1],
    under a global cap that leaves room for the ten torrents, exactly one
    [tracker_announce] alert is posted and exactly one torrent ends
    unpaused. *)
Theorem checking_never_announces :
  (∀ L s e a, a ∈ new_alerts L s e → is_announce a = true →
     e = ev_tick
     ∧ ∃ t, torrents s !! handle a = Some t ∧ is_checking (state t) = false)
  ∧ (∀ L s i g a, (i, cmd_pause g) ∈ commands_of_tick L s →
       a ∈ new_alerts L s ev_tick → is_announce a = true → handle a ≠ i)
  ∧ (∀ L, dont_count_slow_torrents L = false →
       active_checking L = 1 → active_seeds L = 1 → cap_admits num_torrents L →
       count_alerts is_announce
         (run_test L (replicate num_torrents
                        (create_torrent true true true ["http://10.10.0.2/announce"])))
       = 1%nat
       ∧ num_unpaused
           (run_test L (replicate num_torrents
                          (create_torrent true true true ["http://10.10.0.2/announce"])))
         = 1%nat).
Proof.
  split_and!.
  - intros L s e a Ha Han.
    assert (e = ev_tick ∨ e ≠ ev_tick) as [->|Hne]
      by (destruct e; (by left) || (by right)).
    + split; [done|].
      destruct (tick_announces L s) as (new & Hal & Hann & _).
      rewrite (new_alerts_tick L s new Hal) in Ha.
      destruct (Hann a Ha Han) as (t & _ & Ht & Hck & _). by exists t.
    + rewrite (new_alerts_no_announce L s e a Hne Ha) in Han. done.
  - intros L s i g a Hcmd Ha Han Heq.
    destruct (tick_announces L s) as (new & Hal & Hann & Hpau).
    rewrite (new_alerts_tick L s new Hal) in Ha.
    destruct (Hann a Ha Han) as (_ & t' & _ & _ & _ & Ht' & Hp' & _).
    destruct (Hpau i g Hcmd) as (_ & t'' & _ & _ & Ht'' & Hp'').
    rewrite Heq in Ht'. congruence.
  - intros L Hdc Hck Hsd Hcap.
    rewrite (run_test_agree complete_seeds L
               (with_limits false (active_downloads default_settings) 1 1)).
    + split; by vm_compute.
    + intros s e. apply complete_seeds_step.
    + intros s. apply complete_seeds_tick_agree; try done. by left.
    + split; [vm_compute; lia|]. vm_compute. repeat constructor; by left.
Qed.

(** C1. Ten idle auto-managed torrents added paused, [active_downloads = 1],
    under rate thresholds that make an idle torrent slow and a global cap
    that leaves room for the ten torrents: with [dont_count_slow_torrents]
    all ten are resumed (ten [torrent_resumed] alerts) and each ends
    auto-managed and not paused; without it exactly one [torrent_resumed]
    alert is posted and exactly one torrent ends not paused. *)
Theorem slow_torrent_accounting (L : limits) :
  active_downloads L = 1 →
  0 ≤ inactive_down_rate L → 0 ≤ inactive_up_rate L →
  cap_admits num_torrents L →
  (dont_count_slow_torrents L = true →
     count_alerts is_resumed
       (run_test L (replicate num_torrents (create_torrent true true false [])))
     = 10%nat
     ∧ length (torrents
                 (run_test L (replicate num_torrents
                                (create_torrent true true false [])))) = 10%nat
     ∧ Forall (λ t, auto_managed t = true ∧ paused t = false)
         (torrents (run_test L (replicate num_torrents
                                  (create_torrent true true false [])))))
  ∧ (dont_count_slow_torrents L = false →
     count_alerts is_resumed
       (run_test L (replicate num_torrents (create_torrent true true false [])))
     = 1%nat
     ∧ num_unpaused
         (run_test L (replicate num_torrents (create_torrent true true false [])))
       = 1%nat
     ∧ Forall (λ t, auto_managed t = true)
         (torrents (run_test L (replicate num_torrents
                                  (create_torrent true true false []))))).
Proof.
  intros Hd Hdr Hur Hcap.
  assert (run_test L (replicate num_torrents (create_torrent true true false []))
          = run_test (with_limits (dont_count_slow_torrents L) 1 1
                        (active_checking default_settings))
              (replicate num_torrents (create_torrent true true false [])))
    as ->.
  { apply (run_test_agree idle_downloaders).
    - intros s e. apply idle_downloaders_step.
    - intros s. apply idle_downloaders_tick_agree; try done. by left.
    - split; [vm_compute; lia|]. vm_compute. by repeat constructor. }
  split; intros ->.
  - split_and!; try by vm_compute. vm_compute. by repeat constructor.
  - split_and!; try by vm_compute. vm_compute. by repeat constructor.
Qed.

End SchedFacts.

(** ** The scheduler on concrete sessions *)

Module SchedExamples.
Import Sched SchedFacts.

Lemma pacing_example :
  resumed_times downloading_slot (alerts test_dont_count_slow_torrents)
  = [0; 60; 120; 180; 240; 300; 360; 420; 480; 540].
Proof. by vm_compute. Qed.

(** With a torrent to check and a torrent to download both waiting at the
    first tick, the three torrents are started one tick after the other:
    first the two checks, then the download. *)
Lemma pacing_mixed_example :
  (λ a, (timestamp a, handle a, what a))
    <$> filter (λ a, is_resumed a = true)
          (alerts (run default_settings mixed_events empty_session))
  = [(0, 0%nat, torrent_resumed checking_slot);
     (60, 2%nat, torrent_resumed checking_slot);
     (120, 1%nat, torrent_resumed downloading_slot)].
Proof. by vm_compute. Qed.

Lemma pacing_60_seconds_witness :
  spaced 60 (all_resumed_times
               (alerts (run default_settings mixed_events empty_session)))
  ∧ spaced 60 (resumed_times checking_slot
                 (alerts (run default_settings mixed_events empty_session)))
  ∧ (length (filter (λ a, is_resumed a = true)
               (new_alerts default_settings
                  (run default_settings (take 3 mixed_events) empty_session)
                  ev_tick)) ≤ 1)%nat.
Proof.
  destruct (pacing_60_seconds default_settings mixed_events)
    as (Hclass & Hall & _ & _).
  destruct (pacing_60_seconds default_settings (take 3 mixed_events))
    as (_ & _ & Hone & _).
  split; [exact Hall|]. split; [exact (Hclass checking_slot)|exact Hone].
Defined.

Lemma force_states_witness :
  Forall (λ a, is_resumed a = false ∧ is_paused_alert a = false)
    (alerts test_force_stopped_download)
  ∧ Forall2 flags_as_added (torrents test_force_stopped_download)
      (replicate num_torrents (create_torrent false true false []))
  ∧ Forall (λ a, is_resumed a = false ∧ is_paused_alert a = false)
      (alerts test_force_started)
  ∧ Forall2 flags_as_added (torrents test_force_started)
      (replicate num_torrents (create_torrent false false false [])).
Proof.
  destruct (force_states (with_limits true 10 10 (active_checking default_settings)))
    as [_ Hstopped].
  destruct (force_states (with_limits false 1 1 (active_checking default_settings)))
    as [_ Hstarted].
  destruct (Hstopped (test_events (replicate num_torrents
                                     (create_torrent false true false []))))
    as [H1 H2].
  { vm_compute. repeat constructor. }
  destruct (Hstarted (test_events (replicate num_torrents
                                     (create_torrent false false false []))))
    as [H3 H4].
  { vm_compute. repeat constructor. }
  split; [exact H1|]. split; [exact H2|]. split; [exact H3|exact H4].
Defined.

Lemma slow_torrent_accounting_witness :
  count_alerts is_resumed test_dont_count_slow_torrents = 10%nat
  ∧ length (torrents test_dont_count_slow_torrents) = 10%nat
  ∧ Forall (λ t, auto_managed t = true ∧ paused t = false)
      (torrents test_dont_count_slow_torrents)
  ∧ count_alerts is_resumed test_count_slow_torrents = 1%nat
  ∧ num_unpaused test_count_slow_torrents = 1%nat
  ∧ Forall (λ t, auto_managed t = true) (torrents test_count_slow_torrents).
Proof.
  assert (cap_admits num_torrents default_settings) as Hcap by (left; reflexivity).
  destruct (slow_torrent_accounting
              (with_limits true 1 1 (active_checking default_settings)))
    as [Hslow _]; [reflexivity|discriminate|discriminate|exact Hcap|].
  destruct (slow_torrent_accounting
              (with_limits false 1 1 (active_checking default_settings)))
    as [_ Hcount]; [reflexivity|discriminate|discriminate|exact Hcap|].
  destruct (Hslow eq_refl) as (H1 & H2 & H3).
  destruct (Hcount eq_refl) as (H4 & H5 & H6).
  split; [exact H1|]. split; [exact H2|]. split; [exact H3|].
  split; [exact H4|]. split; [exact H5|exact H6].
Defined.

Lemma checking_never_announces_witness :
  (∃ t, torrents checked_seed !! 0%nat = Some t ∧ is_checking (state t) = false)
  ∧ count_alerts is_announce test_checking_announce = 1%nat
  ∧ num_unpaused test_checking_announce = 1%nat.
Proof.
  destruct checking_never_announces as (Hann & _ & Hscenario).
  split.
  - destruct (Hann default_settings checked_seed ev_tick
                {| timestamp := 0; handle := 0;
                   what := tracker_announce "http://10.10.0.2/announce" |})
      as (_ & Ht).
    + vm_compute. apply list_elem_of_here.
    + reflexivity.
    + exact Ht.
  - apply (Hscenario (with_limits false (active_downloads default_settings) 1 1));
      [reflexivity..|left; reflexivity].
Defined.

End SchedExamples.

(** ** Further properties of the resume-data codec *)

Module CodecMore.
Import Entry Codec EntryFacts CodecFacts.
Import (notations) Stdlib.Strings.Ascii.

#[local] Notation "e |> f" := (f e) (at level 68, left associativity, only parsing).

(** Push a lookup through the statements of lines 267-364 that write other
    keys. *)
Ltac find_skip_state :=
  repeat first
    [ progress find_skip
    | rewrite find_when by (apply preserves_write_peer_lists; done)
    | rewrite find_when by (apply preserves_set_fun; done) ].

Section WithExternals.
Context `{Ext : Externals}.
Implicit Types (atp : add_torrent_params) (e ret : entry) (k : string).

(** *** The [trees] list (lines 71-111 and 193-194) *)

Lemma write_trees_fst atp f trees rt (pl : gmap string entry) :
  (write_trees atp f trees rt pl).1
  = rt ++ imap (λ i tree, dictionary_t (tree_dict atp (f + i) tree)) trees.
Proof.
  revert f rt pl. induction trees as [|tree rest IH]; intros f rt pl; simpl.
  - by rewrite app_nil_r.
  - rewrite IH, <- app_assoc. simpl. rewrite Nat.add_0_r. do 2 f_equal.
    apply imap_ext. intros i x _. simpl. do 2 f_equal. lia.
Qed.

Lemma tree_dict_hashes atp f tree :
  tree_dict atp f tree !! "hashes" = Some (string_t (concat_hashes tree)).
Proof.
  unfold tree_dict.
  destruct (verified_leaf_hashes atp !! f) as [v|];
    destruct (merkle_tree_mask atp !! f) as [m|];
    repeat case_bool_decide; by simplify_map_eq.
Qed.

Lemma tree_dict_verified atp f tree :
  tree_dict atp f tree !! "verified"
  = v ← verified_leaf_hashes atp !! f;
    if bool_decide (v = []) then None else Some (string_t (bits_to_ascii v)).
Proof.
  unfold tree_dict.
  destruct (verified_leaf_hashes atp !! f) as [v|];
    destruct (merkle_tree_mask atp !! f) as [m|]; simpl;
    repeat case_bool_decide; by simplify_map_eq.
Qed.

Lemma tree_dict_mask atp f tree :
  tree_dict atp f tree !! "mask"
  = m ← merkle_tree_mask atp !! f;
    if bool_decide (m = []) then None else Some (string_t (bits_to_ascii m)).
Proof.
  unfold tree_dict.
  destruct (verified_leaf_hashes atp !! f) as [v|];
    destruct (merkle_tree_mask atp !! f) as [m|]; simpl;
    repeat case_bool_decide; by simplify_map_eq.
Qed.

Lemma tree_dict_keys atp f tree k :
  is_Some (tree_dict atp f tree !! k) → k ∈ ["hashes"; "verified"; "mask"].
Proof.
  unfold tree_dict. intros [x Hx].
  destruct (decide (k = "hashes")) as [->|?]; [key_in|].
  destruct (decide (k = "verified")) as [->|?]; [key_in|].
  destruct (decide (k = "mask")) as [->|?]; [key_in|].
  exfalso.
  destruct (verified_leaf_hashes atp !! f) as [v|];
    destruct (merkle_tree_mask atp !! f) as [m|];
    repeat case_bool_decide; by simplify_map_eq.
Qed.

(** X1. The resume data holds, under "trees", one dictionary per merkle tree,
    in file order. The dictionary of file [f] maps "hashes" to the
    concatenated nodes of its tree, "verified" and "mask" to the bits of
    [verified_leaf_hashes[f]] and [merkle_tree_mask[f]] as a string of '0'
    and '1' when the file has such a bitfield and it is not empty, and
    holds nothing else. *)
Theorem resume_trees atp :
  merkle_trees atp ≠ [] →
  ∃ l, entry_find "trees" (write_resume_data atp) = Some (list_t l)
     ∧ length l = length (merkle_trees atp)
     ∧ ∀ f tree, merkle_trees atp !! f = Some tree →
         ∃ d, l !! f = Some (dictionary_t d)
            ∧ d !! "hashes" = Some (string_t (concat_hashes tree))
            ∧ d !! "verified"
              = (v ← verified_leaf_hashes atp !! f;
                 if bool_decide (v = []) then None
                 else Some (string_t (bits_to_ascii v)))
            ∧ d !! "mask"
              = (m ← merkle_tree_mask atp !! f;
                 if bool_decide (m = []) then None
                 else Some (string_t (bits_to_ascii m)))
            ∧ ∀ k, is_Some (d !! k) → k ∈ ["hashes"; "verified"; "mask"].
Proof.
  intros Hne. exists (ret_trees_of atp).
  rewrite find_trees_resume. rewrite bool_decide_eq_false_2 by done.
  unfold ret_trees_of. rewrite write_trees_fst. simpl.
  split_and!; [done|by rewrite length_imap|].
  intros f tree Hf. exists (tree_dict atp f tree).
  rewrite list_lookup_imap, Hf. simpl.
  split_and!; [done|apply tree_dict_hashes|apply tree_dict_verified
              |apply tree_dict_mask|apply tree_dict_keys].
Qed.


(** *** The bit strings and the hash strings of a tree (lines 84-110) *)

Lemma string_length_app (s1 s2 : string) :
  String.length (s1 +:+ s2) = (String.length s1 + String.length s2)%nat.
Proof.
  induction s1 as [|a s1 IH]; [done|].
  change (S (String.length (s1 +:+ s2)) = S (String.length s1 + String.length s2)).
  by rewrite IH.
Qed.

Lemma bits_to_ascii_cons (bit : bool) (r : list bool) :
  bits_to_ascii (bit :: r)
  = String (if bit then "1"%char else "0"%char) (bits_to_ascii r).
Proof. by destruct bit. Qed.

(** X2. A bitfield is written with one character per bit, '1' for a set bit
    and '0' for a cleared one, in the order of the bits; two bitfields that
    are written as the same string are equal. *)
Theorem bits_to_ascii_faithful (bits : list bool) :
  String.length (bits_to_ascii bits) = length bits
  ∧ (∀ i, String.get i (bits_to_ascii bits)
          = (λ bit : bool, if bit then "1"%char else "0"%char) <$> bits !! i)
  ∧ (∀ bits', bits_to_ascii bits = bits_to_ascii bits' → bits = bits').
Proof.
  split_and!.
  - induction bits as [|bit r IH]; [done|].
    rewrite bits_to_ascii_cons. simpl. by rewrite IH.
  - induction bits as [|bit r IH]; intros i.
    + by destruct i.
    + rewrite bits_to_ascii_cons. destruct i as [|i]; [done|]. simpl. apply IH.
  - induction bits as [|bit r IH]; intros [|bit' r'].
    + done.
    + rewrite bits_to_ascii_cons. discriminate.
    + rewrite bits_to_ascii_cons. discriminate.
    + rewrite !bits_to_ascii_cons. intros [= Hc Hr].
      f_equal; [by destruct bit, bit'|by apply IH].
Qed.

Lemma string_app_inj_length (s1 s2 r1 r2 : string) :
  String.length s1 = String.length s2 →
  s1 +:+ r1 = s2 +:+ r2 → s1 = s2 ∧ r1 = r2.
Proof.
  revert s2. induction s1 as [|a s1 IH]; intros [|b s2] Hlen Heq;
    simpl in Hlen; try done.
  change (String a (s1 +:+ r1) = String b (s2 +:+ r2)) in Heq.
  injection Heq as -> Heq. destruct (IH s2) as [-> ->]; [lia|done|done].
Qed.

(** X3. When every node of a tree is a 32-byte digest, the "hashes" string
    of the tree has 32 bytes per node, and the nodes can be read back from
    it: two such trees with the same "hashes" string are equal. *)
Theorem hashes_faithful (tree : list string) :
  Forall (λ n, String.length n = 32%nat) tree →
  String.length (concat_hashes tree) = (32 * length tree)%nat
  ∧ ∀ tree', Forall (λ n, String.length n = 32%nat) tree' →
             concat_hashes tree = concat_hashes tree' → tree = tree'.
Proof.
  intros Htree. split.
  - induction Htree as [|n tree Hn _ IH]; [done|].
    simpl concat_hashes. rewrite string_length_app, Hn, IH. simpl length. lia.
  - induction Htree as [|n tree Hn _ IH]; intros tree' Htree' Heq.
    + destruct Htree' as [|n' tree' Hn' _]; [done|].
      simpl in Heq. apply (f_equal String.length) in Heq.
      rewrite string_length_app, Hn' in Heq. simpl in Heq. lia.
    + destruct Htree' as [|n' tree' Hn' Htree'].
      * simpl in Heq. apply (f_equal String.length) in Heq.
        rewrite string_length_app, Hn in Heq. simpl in Heq. lia.
      * simpl in Heq. apply string_app_inj_length in Heq as [-> Heq];
          [|congruence]. f_equal. by apply IH.
Qed.


(** *** What the keys of lines 267-364 hold *)

Lemma find_unfinished atp :
  entry_find "unfinished" (write_resume_data atp)
  = if bool_decide (unfinished_pieces atp = []) then None
    else Some (list_t (piece_struct <$> unfinished_pieces atp)).
Proof.
  rewrite write_resume_data_eq. unfold write_resume_state. find_skip_state.
  unfold when. case_bool_decide; simpl.
  - apply find_resume_state_base. key_in.
  - rewrite find_list_append_eq, entry_list_absent; [done|].
    apply find_resume_state_base. key_in.
Qed.

Lemma find_mapped_files atp :
  entry_find "mapped_files" (write_resume_data atp)
  = if bool_decide (renamed_files atp = []) then None
    else Some (list_t (write_renamed (renamed_files atp) [])).
Proof.
  rewrite write_resume_data_eq. unfold write_resume_state. find_skip_state.
  assert (entry_find "mapped_files"
            (write_resume_scalars atp
               (write_resume_lists atp (ret_trees_of atp) (write_torrent_fields atp)))
          = None) as Hbase by (apply find_resume_state_base; key_in).
  unfold when at 1. case_bool_decide; simpl.
  - find_skip_state. exact Hbase.
  - rewrite find_set_eq, entry_at_find. find_skip_state. by rewrite Hbase.
Qed.


(** *** Unfinished pieces (lines 267-283) *)

Lemma substring_prefix_length (n : nat) (s : string) :
  (n ≤ String.length s)%nat → String.length (String.substring 0 n s) = n.
Proof.
  revert s. induction n as [|n IH]; intros [|a s] Hn; simpl in *; try done; try lia.
  rewrite IH; [done|lia].
Qed.

Lemma substring_prefix_get (n j : nat) (s : string) :
  (j < n)%nat → String.get j (String.substring 0 n s) = String.get j s.
Proof.
  intros Hj. rewrite String.substring_correct1 by done. by rewrite Nat.add_0_r.
Qed.

(** X4. When there are unfinished pieces, "unfinished" is a list with one
    dictionary per piece, in the order of the map. Each dictionary has the
    two keys "piece", the index of the piece, and "bitmask", the first
    (n + 7) / 8 bytes of the buffer of its block bitfield of n bits. *)
Theorem resume_unfinished atp :
  unfinished_pieces atp ≠ [] →
  Forall (λ p, ((length p.2 + 7) / 8 ≤ String.length (bitfield_data p.2))%nat)
    (unfinished_pieces atp) →
  ∃ l, entry_find "unfinished" (write_resume_data atp) = Some (list_t l)
     ∧ length l = length (unfinished_pieces atp)
     ∧ ∀ i p, unfinished_pieces atp !! i = Some p →
         ∃ d s, l !! i = Some (dictionary_t d)
              ∧ d !! "piece" = Some (int_t p.1)
              ∧ d !! "bitmask" = Some (string_t s)
              ∧ String.length s = ((length p.2 + 7) / 8)%nat
              ∧ (∀ j, (j < String.length s)%nat →
                      String.get j s = String.get j (bitfield_data p.2))
              ∧ ∀ k, is_Some (d !! k) → k = "piece" ∨ k = "bitmask".
Proof.
  intros Hne Hbuf. eexists. rewrite find_unfinished.
  rewrite bool_decide_eq_false_2 by done.
  split_and!; [done|by rewrite length_fmap|].
  intros i p Hp. rewrite list_lookup_fmap, Hp. simpl.
  eapply Forall_lookup_1 in Hbuf; [|exact Hp]. simpl in Hbuf.
  unfold piece_struct, entry_set. simpl. eexists _, _.
  split_and!; [done|by simplify_map_eq|by simplify_map_eq| | |].
  - by apply substring_prefix_length.
  - intros j Hj. rewrite substring_prefix_length in Hj by done.
    by apply substring_prefix_get.
  - intros k [x Hx].
    destruct (decide (k = "piece")) as [->|?]; [by left|].
    destruct (decide (k = "bitmask")) as [->|?]; [by right|].
    by simplify_map_eq.
Qed.


(** *** Renamed files (lines 304-314) *)

Lemma write_renamed_length (ents : list (nat * string)) (fl : list entry) :
  length (write_renamed ents fl)
  = (length fl `max` max_list ((λ ent, S ent.1) <$> ents))%nat.
Proof.
  revert fl. induction ents as [|ent r IH]; intros fl; [simpl; lia|].
  cbn [write_renamed]. rewrite IH, length_insert, fmap_cons.
  change (max_list (S ent.1 :: ?l)) with (S ent.1 `max` max_list l)%nat.
  case_bool_decide.
  - rewrite resize_length by lia. lia.
  - lia.
Qed.

(** A slot that no entry names keeps what it held, or is filled with an
    undefined entry when the list grows over it. *)
Lemma write_renamed_other (ents : list (nat * string)) (fl : list entry) (j : nat) :
  j ∉ ents.*1 →
  write_renamed ents fl !! j
  = if decide (j < length fl)%nat then fl !! j
    else if decide (j < length (write_renamed ents fl))%nat
         then Some undefined_t else None.
Proof.
  revert fl. induction ents as [|ent r IH]; intros fl Hj; simpl.
  - case_decide; [done|]. by apply lookup_ge_None_2; lia.
  - apply not_elem_of_cons in Hj as [Hne Hj]. simpl in Hne.
    rewrite IH by done. rewrite length_insert.
    rewrite list_lookup_insert_ne by done.
    case_bool_decide as Hgrow.
    + rewrite resize_length, resize_lookup by lia.
      repeat case_decide; try done; try lia.
      exfalso. pose proof (write_renamed_length r
        (<[ent.1:=string_t ent.2]> (resize fl (ent.1 + 1)))) as Hl.
      rewrite length_insert, resize_length in Hl by lia. lia.
    + repeat case_decide; try done; lia.
Qed.

Lemma write_renamed_named (ents : list (nat * string)) (fl : list entry)
    (idx : nat) (name : string) :
  NoDup ents.*1 → (idx, name) ∈ ents →
  write_renamed ents fl !! idx = Some (string_t name).
Proof.
  revert fl. induction ents as [|ent r IH]; intros fl Hnd Hin.
  - by apply elem_of_nil in Hin.
  - rewrite fmap_cons in Hnd. apply NoDup_cons in Hnd as [Hfresh Hnd].
    apply elem_of_cons in Hin as [<-|Hin]; simpl.
    + rewrite write_renamed_other by done. rewrite length_insert.
      case_bool_decide.
      * rewrite resize_length by lia. rewrite decide_True by lia.
        apply list_lookup_insert_eq. rewrite resize_length by lia. lia.
      * rewrite decide_True by lia. apply list_lookup_insert_eq. lia.
    + by apply IH.
Qed.

Lemma max_list_succ (l : list nat) :
  l ≠ [] → max_list (S <$> l) = S (max_list l).
Proof.
  induction l as [|x l IH]; intros Hne; [done|].
  rewrite fmap_cons.
  change (max_list (S x :: ?r)) with (S x `max` max_list r)%nat.
  change (max_list (x :: l)) with (x `max` max_list l)%nat.
  destruct l as [|y l]; [simpl; lia|]. rewrite IH by done. lia.
Qed.

(** X5. When files were renamed, "mapped_files" is a list indexed by file: it
    has one slot per file index up to the highest one renamed, the slot of
    a renamed file holds its new name, and the slots of the files in
    between that were not renamed hold undefined entries. *)
Theorem resume_mapped_files atp :
  renamed_files atp ≠ [] →
  NoDup (renamed_files atp).*1 →
  ∃ l, entry_find "mapped_files" (write_resume_data atp) = Some (list_t l)
     ∧ length l = S (max_list (renamed_files atp).*1)
     ∧ (∀ idx name, (idx, name) ∈ renamed_files atp →
                    l !! idx = Some (string_t name))
     ∧ (∀ j, (j < length l)%nat → j ∉ (renamed_files atp).*1 →
             l !! j = Some undefined_t).
Proof.
  intros Hne Hnd. eexists. rewrite find_mapped_files.
  rewrite bool_decide_eq_false_2 by done.
  split_and!; [done| | |].
  - rewrite write_renamed_length. simpl.
    assert ((λ ent : nat * string, S ent.1) <$> renamed_files atp
            = S <$> (renamed_files atp).*1) as ->
      by (by rewrite <- list_fmap_compose).
    rewrite max_list_succ; [done|]. by destruct (renamed_files atp).
  - intros idx name Hin. by apply write_renamed_named.
  - intros j Hj Hout. rewrite write_renamed_other by done.
    rewrite decide_False by (simpl; lia). by rewrite decide_True.
Qed.


(** *** Peers (lines 316-341) *)

Lemma write_endpoints_split (ps : list endpoint) (ptr ptr6 : string) :
  write_endpoints ps ptr ptr6
  = (ptr +:+ foldr String.append ""
               (write_endpoint <$> filter (λ p, is_v6 p = false) ps),
     ptr6 +:+ foldr String.append ""
                (write_endpoint <$> filter (λ p, is_v6 p = true) ps)).
Proof.
  revert ptr ptr6. induction ps as [|p r IH]; intros ptr ptr6; simpl.
  - by rewrite !string_app_nil_r.
  - rewrite !filter_cons. destruct (is_v6 p) eqn:Hv6; rewrite IH.
    + rewrite decide_False, decide_True by done. simpl.
      by rewrite string_app_assoc.
    + rewrite decide_True, decide_False by done. simpl.
      by rewrite string_app_assoc.
Qed.

Lemma find_peer_lists (k4 k6 : string) (ps : list endpoint) e :
  k4 ≠ k6 → entry_find k4 e = None → entry_find k6 e = None →
  entry_find k4 (write_peer_lists k4 k6 ps e)
  = Some (string_t (foldr String.append ""
                      (write_endpoint <$> filter (λ p, is_v6 p = false) ps)))
  ∧ entry_find k6 (write_peer_lists k4 k6 ps e)
    = Some (string_t (foldr String.append ""
                        (write_endpoint <$> filter (λ p, is_v6 p = true) ps))).
Proof.
  intros Hne H4 H6. unfold write_peer_lists.
  rewrite write_endpoints_split.
  rewrite find_set_eq, find_set_ne, find_set_eq by done.
  rewrite !entry_at_find.
  rewrite find_string_append_eq.
  rewrite find_string_append_ne, find_string_append_eq by done.
  rewrite find_string_append_ne by done.
  rewrite H4, H6. done.
Qed.

(** X6. The peers are written as two strings, and so are the banned peers:
    the first key holds the serialised endpoints of the IPv4 peers and the
    second key those of the IPv6 peers, each in the order of the list. Both
    keys are written as soon as the list has a peer, also when all the peers
    are of one family; with no peer neither key is written. *)
Theorem resume_peers atp :
  let R := write_resume_data atp in
  let v4 ps := string_t (foldr String.append ""
                 (write_endpoint <$> filter (λ p, is_v6 p = false) ps)) in
  let v6 ps := string_t (foldr String.append ""
                 (write_endpoint <$> filter (λ p, is_v6 p = true) ps)) in
  entry_find "peers" R
    = (if bool_decide (peers atp = []) then None else Some (v4 (peers atp)))
  ∧ entry_find "peers6" R
    = (if bool_decide (peers atp = []) then None else Some (v6 (peers atp)))
  ∧ entry_find "banned_peers" R
    = (if bool_decide (banned_peers atp = []) then None
       else Some (v4 (banned_peers atp)))
  ∧ entry_find "banned_peers6" R
    = (if bool_decide (banned_peers atp = []) then None
       else Some (v6 (banned_peers atp))).
Proof.
  intros R v4 v6. subst R v4 v6.
  rewrite write_resume_data_eq. unfold write_resume_state.
  assert (∀ k, k ∈ state_keys →
            entry_find k
              (write_resume_scalars atp
                 (write_resume_lists atp (ret_trees_of atp)
                    (write_torrent_fields atp))) = None) as Hbase
    by (intros k Hk; by apply find_resume_state_base).
  split_and!; find_skip_state.
  - unfold when at 1. case_bool_decide; simpl.
    + find_skip_state. apply Hbase. key_in.
    + apply find_peer_lists; [done|find_skip_state; apply Hbase; key_in..].
  - unfold when at 1. case_bool_decide; simpl.
    + find_skip_state. apply Hbase. key_in.
    + apply find_peer_lists; [done|find_skip_state; apply Hbase; key_in..].
  - unfold when at 1. case_bool_decide; simpl.
    + find_skip_state. apply Hbase. key_in.
    + apply find_peer_lists; [done|find_skip_state; apply Hbase; key_in..].
  - unfold when at 1. case_bool_decide; simpl.
    + find_skip_state. apply Hbase. key_in.
    + apply find_peer_lists; [done|find_skip_state; apply Hbase; key_in..].
Qed.


(** *** Priorities (lines 348-364) *)

Lemma find_file_priority atp :
  entry_find "file_priority" (write_resume_data atp)
  = if bool_decide (file_priorities atp = []) then None
    else Some (list_t (int_t <$> file_priorities atp)).
Proof.
  rewrite write_resume_data_eq. unfold write_resume_state. find_skip_state.
  unfold when at 1. case_bool_decide; simpl.
  - find_skip_state. apply find_resume_state_base. key_in.
  - rewrite find_list_append_eq, entry_list_absent; [done|].
    find_skip_state. apply find_resume_state_base. key_in.
Qed.

Lemma find_piece_priority atp :
  entry_find "piece_priority" (write_resume_data atp)
  = if bool_decide (piece_priorities atp = []) then None
    else Some (string_t (String.string_of_list_ascii
                           (ascii_of_priority <$> piece_priorities atp))).
Proof.
  rewrite write_resume_data_eq. unfold write_resume_state.
  unfold when at 1. case_bool_decide; simpl.
  - find_skip_state. apply find_resume_state_base. key_in.
  - rewrite find_string_append_eq, entry_string_absent; [done|].
    find_skip_state. apply find_resume_state_base. key_in.
Qed.

(** X7. For priorities that are 8-bit values, as [download_priority_t]
    holds them: "file_priority" is the list of the file priorities as
    integers, in file order; "piece_priority" is a string with one byte per
    piece, the byte of piece [i] being its priority. Either key is left out
    when there are no such priorities. *)
Theorem resume_priorities atp :
  Forall (λ p, 0 ≤ p < 256) (file_priorities atp) →
  Forall (λ p, 0 ≤ p < 256) (piece_priorities atp) →
  entry_find "file_priority" (write_resume_data atp)
    = (if bool_decide (file_priorities atp = []) then None
       else Some (list_t (int_t <$> file_priorities atp)))
  ∧ (piece_priorities atp = [] →
     entry_find "piece_priority" (write_resume_data atp) = None)
  ∧ (piece_priorities atp ≠ [] →
     ∃ s, entry_find "piece_priority" (write_resume_data atp) = Some (string_t s)
        ∧ String.length s = length (piece_priorities atp)
        ∧ ∀ i p, piece_priorities atp !! i = Some p →
            ∃ c, String.get i s = Some c ∧ Z.of_N (Ascii.N_of_ascii c) = p).
Proof.
  intros _ Hrange. split_and!.
  - apply find_file_priority.
  - intros Hnil. rewrite find_piece_priority. by rewrite bool_decide_eq_true_2.
  - intros Hne. eexists. rewrite find_piece_priority.
    rewrite bool_decide_eq_false_2 by done.
    split_and!; [done|by rewrite string_length_of_list, length_fmap|].
    intros i p Hp. exists (ascii_of_priority p).
    rewrite string_get_of_list, list_lookup_fmap, Hp. split; [done|].
    eapply Forall_lookup_1 in Hrange; [|exact Hp]. simpl in Hrange.
    unfold ascii_of_priority. rewrite Z.mod_small by done.
    rewrite Ascii.N_ascii_embedding by lia. lia.
Qed.


(** *** The type of the entry returned *)

Lemma torrent_fields_shape atp :
  write_torrent_fields atp = undefined_t
  ∨ ∃ d, write_torrent_fields atp = dictionary_t d.
Proof.
  unfold write_torrent_fields, write_announce.
  destruct (trackers atp) as [|tr [|tr' trs]]; [|right; by eexists..].
  unfold when at 1. destruct (negb _); [right; by eexists|].
  unfold when at 1. destruct (negb _); [right; by eexists|].
  unfold when at 1. destruct (negb _); [right; by eexists|].
  unfold when at 1. destruct (_ && _); [right; by eexists|].
  destruct (ti atp) as [info|]; [|by left].
  unfold write_info.
  unfold when at 1. destruct (negb _); [right; by eexists|].
  unfold when at 1. destruct (negb _); [right; by eexists|].
  unfold when at 1. destruct (negb _); [right; by eexists|].
  right; by eexists.
Qed.

(** X11. With no metadata, no web seed, no name and no tracker,
    [write_torrent_file] writes nothing and returns the entry as it was
    constructed, an undefined entry rather than an empty dictionary; in
    every other case it returns a dictionary. [write_resume_data] always
    returns a dictionary. *)
Theorem torrent_file_undefined atp :
  (write_torrent_file atp = undefined_t
   ↔ ti atp = None ∧ url_seeds atp = [] ∧ http_seeds atp = []
     ∧ name atp = "" ∧ trackers atp = [])
  ∧ (write_torrent_file atp = undefined_t
     ∨ ∃ d, write_torrent_file atp = dictionary_t d)
  ∧ ∃ d, write_resume_data atp = dictionary_t d.
Proof.
  split_and!.
  - split.
    + intros Hu.
      pose proof (find_info_torrent atp) as Hinfo.
      pose proof (find_url_list_torrent atp) as Hurl.
      pose proof (find_httpseeds_torrent atp) as Hhttp.
      pose proof (find_name_torrent atp) as Hname.
      pose proof (find_announce_torrent atp) as Ha.
      pose proof (find_announce_list_torrent atp) as Hal.
      rewrite Hu in Hinfo, Hurl, Hhttp, Hname, Ha, Hal.
      rewrite find_undefined in Hinfo, Hurl, Hhttp, Hname, Ha, Hal.
      split_and!.
      * by destruct (ti atp).
      * destruct (bool_decide (url_seeds atp = [])) eqn:Hb;
          [by apply bool_decide_eq_true in Hb|done].
      * destruct (bool_decide (http_seeds atp = [])) eqn:Hb;
          [by apply bool_decide_eq_true in Hb|done].
      * destruct (bool_decide (name atp = "")) eqn:Hb;
          [by apply bool_decide_eq_true in Hb|done].
      * by destruct (trackers atp) as [|tr [|tr' trs]].
    + intros (Hti & Hurl & Hhttp & Hname & Htr).
      change (write_torrent_file atp) with (write_torrent_fields atp).
      unfold write_torrent_fields, write_announce.
      rewrite Hti, Hurl, Hhttp, Hname, Htr, (piece_layers_no_info atp Hti).
      unfold when. by rewrite andb_false_r.
  - apply torrent_fields_shape.
  - rewrite write_resume_data_eq. unfold write_resume_state.
    unfold when at 1. destruct (negb _); [by eexists|].
    unfold when at 1. destruct (negb _); [by eexists|].
    by eexists.
Qed.


(** *** The keys of the resume dictionary *)

Lemma find_resume_unknown atp k :
  k ∉ torrent_keys → k ∉ list_keys → k ∉ scalar_keys → k ∉ state_keys →
  entry_find k (write_resume_data atp) = None.
Proof.
  intros Ht Hl Hs Hst. rewrite find_resume_other by done.
  by apply find_torrent_fields_other.
Qed.

Lemma known_key_kind atp k :
  k ∈ torrent_keys ++ list_keys ++ scalar_keys ++ state_keys →
  k ∈ always_keys ∨ ∃ b, (k, b) ∈ optional_fields atp.
Proof.
  intros Hk.
  unfold torrent_keys, info_keys, list_keys, scalar_keys, state_keys in Hk.
  simpl in Hk.
  repeat (apply elem_of_cons in Hk as [->|Hk]); [..|by apply elem_of_nil in Hk].
  all: first
    [ left; unfold always_keys;
      solve [repeat first [apply list_elem_of_here | apply list_elem_of_further]]
    | right; eexists; unfold optional_fields;
      solve [repeat first [apply list_elem_of_here | apply list_elem_of_further]] ].
Qed.

(** X10. The resume dictionary has the keys that are written unconditionally,
    the conditional keys whose condition holds, and no other key. *)
Theorem resume_key_set atp k :
  is_Some (entry_find k (write_resume_data atp))
  ↔ k ∈ always_keys ∨ (k, true) ∈ optional_fields atp.
Proof.
  split.
  - intros Hsome.
    destruct (decide (k ∈ torrent_keys ++ list_keys ++ scalar_keys ++ state_keys))
      as [Hin|Hout].
    + destruct (known_key_kind atp k Hin) as [Ha|[b Hb]]; [by left|right].
      apply (optional_fields_present atp k b Hb) in Hsome. by subst b.
    + rewrite !not_elem_of_app in Hout. destruct Hout as (? & ? & ? & ?).
      rewrite find_resume_unknown in Hsome by done. by destruct Hsome.
  - intros [Ha|Ho].
    + by apply always_keys_present.
    + by apply (optional_fields_present atp k true Ho).
Qed.


(** *** When "piece layers" is written (lines 112-143) *)

(** X13. "piece layers" is written exactly when the parameters carry the
    metadata of the torrent and, among the files that have a merkle tree,
    one is neither a pad file nor as small as a piece. Its keys are the
    roots of the rebuilt trees of those files, and nothing else. *)
Theorem piece_layers_written atp :
  (is_Some (entry_find "piece layers" (write_resume_data atp))
   ↔ ∃ info f tree, ti atp = Some info
                  ∧ merkle_trees atp !! f = Some tree
                  ∧ has_piece_layer (files info) f = true)
  ∧ (∀ d k, entry_find "piece layers" (write_resume_data atp)
            = Some (dictionary_t d) →
       is_Some (d !! k)
       ↔ ∃ info f tree, ti atp = Some info
                      ∧ merkle_trees atp !! f = Some tree
                      ∧ has_piece_layer (files info) f = true
                      ∧ root (rebuilt_tree atp (files info) f tree) = k).
Proof.
  rewrite find_resume_torrent_key by (done || key_in).
  rewrite find_piece_layers_torrent.
  assert (∀ k, is_Some (piece_layers_of atp !! k)
               ↔ ∃ info f tree, ti atp = Some info
                      ∧ merkle_trees atp !! f = Some tree
                      ∧ has_piece_layer (files info) f = true
                      ∧ root (rebuilt_tree atp (files info) f tree) = k) as Hkeys.
  { intros k. destruct (ti atp) as [info|] eqn:Hti.
    - rewrite (piece_layer_key_present atp info) by done.
      rewrite writes_under_iff. split.
      + intros (g & tree & Hg & Hhas & Hroot). by exists info, g, tree.
      + intros (info' & g & tree & [= <-] & Hg & Hhas & Hroot). by exists g, tree.
    - rewrite (piece_layers_no_info atp Hti), lookup_empty. split.
      + by intros [x Hx].
      + by intros (info' & _ & _ & ? & _). }
  split.
  - case_bool_decide as Hempty.
    + split; [by intros [x Hx]|].
      intros (info & f & tree & Hti & Hf & Hhas). exfalso.
      assert (is_Some (piece_layers_of atp !! root (rebuilt_tree atp (files info) f tree)))
        as [x Hx] by (apply Hkeys; by exists info, f, tree).
      by rewrite Hempty, lookup_empty in Hx.
    + split; [|by eexists]. intros _.
      apply map_choose in Hempty as (k & x & Hx).
      destruct (proj1 (Hkeys k)) as (info & f & tree & ? & ? & ? & _); [by eexists|].
      by exists info, f, tree.
  - intros d k. case_bool_decide; [done|]. intros [= <-]. apply Hkeys.
Qed.

(** *** What the torrent-only output depends on *)

Lemma piece_layer_step_agree atp atp' f tree (pl : gmap string entry) :
  ti atp = ti atp' → merkle_tree_mask atp = merkle_tree_mask atp' →
  piece_layer_step atp f tree pl = piece_layer_step atp' f tree pl.
Proof.
  intros Hti Hmask. unfold piece_layer_step, rebuilt_tree, sparse_mask.
  by rewrite Hti, Hmask.
Qed.

Lemma write_trees_snd_agree atp atp' f trees rt rt' (pl : gmap string entry) :
  ti atp = ti atp' → merkle_tree_mask atp = merkle_tree_mask atp' →
  (write_trees atp f trees rt pl).2 = (write_trees atp' f trees rt' pl).2.
Proof.
  intros Hti Hmask. revert f rt rt' pl.
  induction trees as [|tree rest IH]; intros f rt rt' pl; simpl; [done|].
  rewrite (piece_layer_step_agree atp atp') by done. apply IH.
Qed.

(** X12. The torrent-only output is a function of the metadata, the merkle
    trees and their masks, the web seeds, the name and the trackers with
    their tiers: two parameter sets that agree on these give the same
    .torrent dictionary, whatever their resume state (bitfields, verified
    leaf hashes, peers, counters, flags, priorities). *)
Theorem torrent_file_fields_only atp atp' :
  ti atp = ti atp' →
  merkle_trees atp = merkle_trees atp' →
  merkle_tree_mask atp = merkle_tree_mask atp' →
  url_seeds atp = url_seeds atp' →
  http_seeds atp = http_seeds atp' →
  name atp = name atp' →
  trackers atp = trackers atp' →
  tracker_tiers atp = tracker_tiers atp' →
  write_torrent_file atp = write_torrent_file atp'.
Proof.
  intros Hti Htrees Hmask Hurl Hhttp Hname Htr Htiers.
  change (write_torrent_fields atp = write_torrent_fields atp').
  assert (piece_layers_of atp = piece_layers_of atp') as Hpl.
  { unfold piece_layers_of. rewrite Htrees. by apply write_trees_snd_agree. }
  unfold write_torrent_fields, write_announce.
  by rewrite Hti, Htrees, Hurl, Hhttp, Hname, Htr, Htiers, Hpl.
Qed.


(** *** The tier of a tracker (lines 172-183) *)

Lemma trackers_in_tier_elem (trs : list string) (tiers : list Z) (tier : Z)
    (i : nat) (tr : string) :
  trs !! i = Some tr →
  tr ∈ trackers_in_tier
         (Z.to_nat (match tiers !! i with
                    | Some t => clamp (size_t_of_int t) 0 1024
                    | None => from_option (λ t, clamp (size_t_of_int t) 0 1024)
                                tier (last tiers)
                    end)) trs tiers tier.
Proof.
  revert tiers tier i. induction trs as [|tr0 rest IH]; intros tiers tier i Hi;
    [done|].
  destruct i as [|i]; simpl in Hi.
  - injection Hi as ->. simpl. destruct tiers as [|t ts]; simpl.
    + rewrite bool_decide_eq_true_2 by done. apply list_elem_of_here.
    + rewrite bool_decide_eq_true_2 by done. apply list_elem_of_here.
  - cbn [trackers_in_tier]. apply elem_of_app. right.
    specialize (IH (tail tiers)
                  (match tiers with
                   | t :: _ => clamp (size_t_of_int t) 0 1024
                   | [] => tier
                   end) i Hi).
    destruct tiers as [|t ts]; simpl in *; [done|].
    destruct (ts !! i) as [t'|] eqn:Hts; [done|].
    destruct ts as [|t' ts']; [done|].
    rewrite last_cons_cons.
    destruct (last (t' :: ts')) eqn:Hl; [done|by apply last_None in Hl].
Qed.

(** X14. With two or more trackers, the tracker number [i] is in the slot of
    "announce-list" whose index is its tier: the tier listed for it in
    [tracker_tiers], converted to an unsigned size and clamped to 1024, or,
    when [tracker_tiers] is shorter than the list of trackers, the tier of
    the last tracker that has one (0 when none is listed). That slot is a
    list. *)
Theorem tracker_slot atp (i : nat) (tr : string) :
  (2 ≤ length (trackers atp))%nat →
  trackers atp !! i = Some tr →
  ∃ l slot,
    entry_find "announce-list" (write_torrent_file atp) = Some (list_t l)
    ∧ l !! Z.to_nat (tier_of_tracker (tracker_tiers atp) i) = Some (list_t slot)
    ∧ string_t tr ∈ slot.
Proof.
  intros Hlen Hi. rewrite find_announce_list_torrent.
  destruct (trackers atp) as [|tr0 [|tr1 trs]] eqn:Htrs; simpl in Hlen; try lia.
  rewrite <- Htrs in *. clear Htrs Hlen.
  set (j := Z.to_nat (tier_of_tracker (tracker_tiers atp) i)).
  pose proof (write_tiers_contents (trackers atp) (tracker_tiers atp) 0
                [list_t []] j ltac:(done)) as Hc.
  pose proof (trackers_in_tier_elem (trackers atp) (tracker_tiers atp) 0 i tr Hi)
    as Hin.
  fold (tier_of_tracker (tracker_tiers atp) i) in Hin. fold j in Hin.
  assert (string_t tr
          ∈ entry_list (default undefined_t
                          (write_tiers (trackers atp) (tracker_tiers atp) 0
                             [list_t []] !! j))) as Hslot.
  { rewrite Hc. apply elem_of_app. right. by apply list_elem_of_fmap_2. }
  destruct (write_tiers _ _ _ _ !! j) as [e|] eqn:He; simpl in Hslot.
  - destruct e as [| | |slot| |]; try by apply elem_of_nil in Hslot.
    by exists (write_tiers (trackers atp) (tracker_tiers atp) 0 [list_t []]), slot.
  - by apply elem_of_nil in Hslot.
Qed.

(** X15. The conversion of line 177 on a 32-bit tier: a tier in [0, 1024] is
    kept, a larger one becomes 1024, and a negative one, which the
    conversion to an unsigned size turns into a large value, becomes 1024
    as well. *)
Theorem tier_clamp_cases (t : Z) :
  - 2 ^ 31 ≤ t < 2 ^ 31 →
  clamp (size_t_of_int t) 0 1024 = if t <? 0 then 1024 else Z.min t 1024.
Proof.
  intros Ht. destruct (t <? 0) eqn:Hneg.
  - apply negative_tier_clamped. lia.
  - unfold clamp, size_t_of_int. rewrite Z.mod_small by lia.
    destruct (t <? 0) eqn:H0; [lia|]. destruct (1024 <? t) eqn:H1; lia.
Qed.

Lemma write_tiers_no_tiers (trs : list string) (l0 rest : list entry) :
  write_tiers trs [] 0 (list_t l0 :: rest)
  = list_t (l0 ++ (string_t <$> trs)) :: rest.
Proof.
  revert l0. induction trs as [|tr trs IH]; intros l0; simpl.
  - by rewrite app_nil_r.
  - rewrite IH. by rewrite <- app_assoc.
Qed.

(** X16. With two or more trackers and no tier given, "announce-list" is a
    single tier (tier 0) that holds all the trackers in their order. *)
Theorem announce_list_no_tiers atp :
  (2 ≤ length (trackers atp))%nat →
  tracker_tiers atp = [] →
  entry_find "announce-list" (write_torrent_file atp)
  = Some (list_t [list_t (string_t <$> trackers atp)]).
Proof.
  intros Hlen Htiers. rewrite find_announce_list_torrent, Htiers.
  destruct (trackers atp) as [|tr0 [|tr1 trs]] eqn:Htrs; simpl in Hlen; try lia.
  by rewrite write_tiers_no_tiers.
Qed.


(** *** The fields written unconditionally (lines 216-265 and 343-346) *)

Ltac find_scalar :=
  rewrite find_resume_scalar by key_in; unfold write_resume_scalars;
  find_skip; apply find_set_eq.

Ltac find_limit :=
  rewrite write_resume_data_eq; unfold write_resume_state;
  find_skip_state; apply find_set_eq.

Lemma find_flag_key atp (f : torrent_flag) :
  entry_find (flag_key f) (write_resume_data atp)
  = Some (entry_of_bool (has_flag (flags atp) f)).
Proof. destruct f; simpl flag_key; find_scalar. Qed.

(** X8. Each flag is written under its own key as the integer 1 when the
    flags of the parameters have a bit in common with the mask of the flag,
    and as 0 otherwise. (The keys "share_mode" and "super_seeding" are those
    of a build that has these features.) *)
Theorem resume_flags atp (f : torrent_flag) :
  entry_find (flag_key f) (write_resume_data atp)
  = Some (int_t (if Z.land (flags atp) (torrent_flags f) =? 0 then 0 else 1)).
Proof.
  rewrite find_flag_key. unfold entry_of_bool, has_flag.
  by destruct (Z.land (flags atp) (torrent_flags f) =? 0).
Qed.

Lemma fmap_string_t_inj (l l' : list string) :
  string_t <$> l = string_t <$> l' → l = l'.
Proof.
  revert l'. induction l as [|x l IH]; intros [|x' l']; simpl; try done.
  intros [= -> Hl]. f_equal. by apply IH.
Qed.

Lemma fmap_int_t_inj (l l' : list Z) : int_t <$> l = int_t <$> l' → l = l'.
Proof.
  revert l'. induction l as [|x l IH]; intros [|x' l']; simpl; try done.
  intros [= -> Hl]. f_equal. by apply IH.
Qed.

Lemma entry_of_bool_inj (b b' : bool) : entry_of_bool b = entry_of_bool b' → b = b'.
Proof. by destruct b, b'. Qed.

Lemma string_of_mode_inj (m m' : storage_mode_t) :
  match m with storage_mode_allocate => "allocate" | storage_mode_sparse => "sparse" end
  = match m' with storage_mode_allocate => "allocate" | storage_mode_sparse => "sparse" end
    :> string →
  m = m'.
Proof. by destruct m, m'. Qed.

(** X9. Nothing of the following is lost in the resume data: two parameter
    sets with the same resume dictionary have the same counters, times,
    limits, save path, info-hashes, storage mode, web seeds, name and file
    priorities, agree on every flag that is written, and either both lack
    the metadata of the torrent or both have it, with the same info
    section, comment, creation date and creator. *)
Theorem resume_data_retains atp atp' :
  write_resume_data atp = write_resume_data atp' →
  total_uploaded atp = total_uploaded atp'
  ∧ total_downloaded atp = total_downloaded atp'
  ∧ active_time atp = active_time atp'
  ∧ finished_time atp = finished_time atp'
  ∧ seeding_time atp = seeding_time atp'
  ∧ last_seen_complete atp = last_seen_complete atp'
  ∧ last_download atp = last_download atp'
  ∧ last_upload atp = last_upload atp'
  ∧ num_complete atp = num_complete atp'
  ∧ num_incomplete atp = num_incomplete atp'
  ∧ num_downloaded atp = num_downloaded atp'
  ∧ added_time atp = added_time atp'
  ∧ completed_time atp = completed_time atp'
  ∧ upload_limit atp = upload_limit atp'
  ∧ download_limit atp = download_limit atp'
  ∧ max_connections atp = max_connections atp'
  ∧ max_uploads atp = max_uploads atp'
  ∧ save_path atp = save_path atp'
  ∧ info_hashes_v1 atp = info_hashes_v1 atp'
  ∧ info_hashes_v2 atp = info_hashes_v2 atp'
  ∧ storage_mode atp = storage_mode atp'
  ∧ url_seeds atp = url_seeds atp'
  ∧ http_seeds atp = http_seeds atp'
  ∧ name atp = name atp'
  ∧ file_priorities atp = file_priorities atp'
  ∧ (∀ f, has_flag (flags atp) f = has_flag (flags atp') f)
  ∧ info_section <$> ti atp = info_section <$> ti atp'
  ∧ comment <$> ti atp = comment <$> ti atp'
  ∧ creation_date <$> ti atp = creation_date <$> ti atp'
  ∧ creator <$> ti atp = creator <$> ti atp'.
Proof.
  intros Heq.
  assert (∀ k v v', entry_find k (write_resume_data atp) = Some v →
                    entry_find k (write_resume_data atp') = Some v' → v = v')
    as Hsame.
  { intros k v v' Hv Hv'. rewrite Heq, Hv' in Hv. by injection Hv. }
  assert (∀ k (x x' : Z),
            entry_find k (write_resume_data atp) = Some (int_t x) →
            entry_find k (write_resume_data atp') = Some (int_t x') → x = x')
    as Hint.
  { intros k x x' Hx Hx'. by injection (Hsame _ _ _ Hx Hx'). }
  assert (∀ k (x x' : string),
            entry_find k (write_resume_data atp) = Some (string_t x) →
            entry_find k (write_resume_data atp') = Some (string_t x') → x = x')
    as Hstr.
  { intros k x x' Hx Hx'. by injection (Hsame _ _ _ Hx Hx'). }
  assert (info_section <$> ti atp = info_section <$> ti atp') as Hinfo.
  { assert (entry_find "info" (write_resume_data atp)
            = entry_find "info" (write_resume_data atp')) as Hn by (by rewrite Heq).
    rewrite !find_resume_torrent_key in Hn by (done || key_in).
    rewrite !find_info_torrent in Hn.
    destruct (ti atp) as [info|], (ti atp') as [info'|]; simpl in *; try done.
    by injection Hn as ->. }
  split_and!.
  - eapply (Hint "total_uploaded"); find_scalar.
  - eapply (Hint "total_downloaded"); find_scalar.
  - eapply (Hint "active_time"); find_scalar.
  - eapply (Hint "finished_time"); find_scalar.
  - eapply (Hint "seeding_time"); find_scalar.
  - eapply (Hint "last_seen_complete"); find_scalar.
  - eapply (Hint "last_download"); find_scalar.
  - eapply (Hint "last_upload"); find_scalar.
  - eapply (Hint "num_complete"); find_scalar.
  - eapply (Hint "num_incomplete"); find_scalar.
  - eapply (Hint "num_downloaded"); find_scalar.
  - eapply (Hint "added_time"); find_scalar.
  - eapply (Hint "completed_time"); find_scalar.
  - eapply (Hint "upload_rate_limit"); find_limit.
  - eapply (Hint "download_rate_limit"); find_limit.
  - eapply (Hint "max_connections"); find_limit.
  - eapply (Hint "max_uploads"); find_limit.
  - eapply (Hstr "save_path"); find_scalar.
  - eapply (Hstr "info-hash"); find_scalar.
  - eapply (Hstr "info-hash2"); find_scalar.
  - apply string_of_mode_inj. eapply (Hstr "allocation"); find_scalar.
  - pose proof (Hsame "url-list" _ _ (find_url_list_resume atp)
                  (find_url_list_resume atp')) as [= Hl].
    by apply fmap_string_t_inj.
  - pose proof (Hsame "httpseeds" _ _ (find_httpseeds_resume atp)
                  (find_httpseeds_resume atp')) as [= Hl].
    by apply fmap_string_t_inj.
  - assert (entry_find "name" (write_resume_data atp)
            = entry_find "name" (write_resume_data atp')) as Hn by (by rewrite Heq).
    rewrite !find_resume_torrent_key in Hn by (done || key_in).
    rewrite !find_name_torrent in Hn.
    repeat case_bool_decide; simplify_eq; congruence.
  - assert (entry_find "file_priority" (write_resume_data atp)
            = entry_find "file_priority" (write_resume_data atp')) as Hn
      by (by rewrite Heq).
    rewrite !find_file_priority in Hn.
    repeat case_bool_decide; simplify_eq; try congruence.
    by apply fmap_int_t_inj.
  - intros f. apply entry_of_bool_inj.
    eapply Hsame; apply find_flag_key.
  - exact Hinfo.
  - assert (entry_find "comment" (write_resume_data atp)
            = entry_find "comment" (write_resume_data atp')) as Hn by (by rewrite Heq).
    rewrite !find_resume_torrent_key in Hn by (done || key_in).
    rewrite !find_comment_torrent in Hn.
    destruct (ti atp) as [info|], (ti atp') as [info'|]; simpl in *; try done.
    f_equal. repeat case_bool_decide; simplify_eq; congruence.
  - assert (entry_find "creation date" (write_resume_data atp)
            = entry_find "creation date" (write_resume_data atp')) as Hn
      by (by rewrite Heq).
    rewrite !find_resume_torrent_key in Hn by (done || key_in).
    rewrite !find_creation_date_torrent in Hn.
    destruct (ti atp) as [info|], (ti atp') as [info'|]; simpl in *; try done.
    f_equal.
    destruct (creation_date info =? 0) eqn:H0, (creation_date info' =? 0) eqn:H0';
      simplify_eq; try done. lia.
  - assert (entry_find "created by" (write_resume_data atp)
            = entry_find "created by" (write_resume_data atp')) as Hn
      by (by rewrite Heq).
    rewrite !find_resume_torrent_key in Hn by (done || key_in).
    rewrite !find_created_by_torrent in Hn.
    destruct (ti atp) as [info|], (ti atp') as [info'|]; simpl in *; try done.
    f_equal. repeat case_bool_decide; simplify_eq; congruence.
Qed.

End WithExternals.
End CodecMore.

(** ** The further properties on the concrete build *)

Module CodecMoreExamples.
Import Entry Codec EntryFacts CodecFacts CodecMore.

#[local] Existing Instance sample_externals.

Lemma resume_trees_witness :
  ∃ l d, entry_find "trees" (write_resume_data busy_atp) = Some (list_t l)
       ∧ length l = 2%nat
       ∧ l !! 1%nat = Some (dictionary_t d)
       ∧ d !! "verified" = None
       ∧ d !! "mask" = Some (string_t "110").
Proof.
  destruct (resume_trees busy_atp) as (l & Hfind & Hlen & Hdict); [discriminate|].
  destruct (Hdict 1%nat dup_layer eq_refl) as (d & Hl & _ & Hv & Hm & _).
  exists l, d. split; [exact Hfind|]. split; [exact Hlen|]. split; [exact Hl|].
  split; [exact Hv|exact Hm].
Defined.

Lemma bits_to_ascii_faithful_witness :
  bits_to_ascii [true; true; false] = "110"
  ∧ ∀ bits', "110" = bits_to_ascii bits' → [true; true; false] = bits'.
Proof.
  split; [reflexivity|].
  destruct (bits_to_ascii_faithful [true; true; false]) as (_ & _ & Hinj).
  exact Hinj.
Defined.

Lemma hashes_faithful_witness : String.length (concat_hashes dup_layer) = 96%nat.
Proof.
  destruct (hashes_faithful dup_layer) as [Hlen _]; [repeat constructor|].
  exact Hlen.
Defined.

Lemma resume_unfinished_witness :
  ∃ l d s, entry_find "unfinished" (write_resume_data busy_atp) = Some (list_t l)
         ∧ length l = 1%nat
         ∧ l !! 0%nat = Some (dictionary_t d)
         ∧ d !! "piece" = Some (int_t 3)
         ∧ d !! "bitmask" = Some (string_t s)
         ∧ String.length s = 2%nat.
Proof.
  destruct (resume_unfinished busy_atp) as (l & Hfind & Hlen & Hdict).
  - discriminate.
  - repeat constructor.
  - destruct (Hdict 0%nat _ eq_refl) as (d & s & Hl & Hp & Hb & Hs & _).
    exists l, d, s. split; [exact Hfind|]. split; [exact Hlen|].
    split; [exact Hl|]. split; [exact Hp|]. split; [exact Hb|exact Hs].
Defined.

Lemma resume_mapped_files_witness :
  ∃ l, entry_find "mapped_files" (write_resume_data busy_atp) = Some (list_t l)
     ∧ length l = 3%nat
     ∧ l !! 2%nat = Some (string_t "c.bin")
     ∧ l !! 1%nat = Some undefined_t.
Proof.
  destruct (resume_mapped_files busy_atp) as (l & Hfind & Hlen & Hnamed & Hgap).
  - discriminate.
  - apply (bool_decide_unpack _). vm_compute. exact I.
  - exists l. split; [exact Hfind|]. split; [exact Hlen|]. split.
    + apply Hnamed. apply list_elem_of_further, list_elem_of_here.
    + apply Hgap.
      * rewrite Hlen. vm_compute. lia.
      * apply (bool_decide_unpack _). vm_compute. exact I.
Defined.

Lemma resume_priorities_witness :
  entry_find "file_priority" (write_resume_data busy_atp)
    = Some (list_t [int_t 4; int_t 0])
  ∧ ∃ s c, entry_find "piece_priority" (write_resume_data busy_atp)
             = Some (string_t s)
         ∧ String.length s = 6%nat
         ∧ String.get 5 s = Some c
         ∧ Z.of_N (Ascii.N_of_ascii c) = 255.
Proof.
  destruct (resume_priorities busy_atp) as (Hfile & _ & Hpiece).
  - repeat constructor; vm_compute; discriminate.
  - repeat constructor; vm_compute; discriminate.
  - split; [exact Hfile|].
    destruct Hpiece as (s & Hfind & Hlen & Hbytes); [discriminate|].
    destruct (Hbytes 5%nat 255 eq_refl) as (c & Hc & Hv).
    exists s, c. split; [exact Hfind|]. split; [exact Hlen|].
    split; [exact Hc|exact Hv].
Defined.

Lemma piece_layers_written_witness :
  is_Some (entry_find "piece layers" (write_resume_data busy_atp))
  ∧ ¬ is_Some (entry_find "piece layers" (write_resume_data default_atp)).
Proof.
  split.
  - destruct (piece_layers_written busy_atp) as [Hp _]. apply Hp.
    exists dup_info, 0%nat, dup_layer. split; [reflexivity|].
    split; reflexivity.
  - intros Hsome. destruct (piece_layers_written default_atp) as [Hp _].
    apply Hp in Hsome. destruct Hsome as (info & _ & _ & Hti & _). discriminate Hti.
Defined.

Lemma torrent_file_fields_only_witness :
  write_torrent_file one_have_atp = write_torrent_file pieces_atp.
Proof. apply torrent_file_fields_only; reflexivity. Defined.

Lemma tracker_slot_witness :
  ∃ l slot,
    entry_find "announce-list" (write_torrent_file busy_atp) = Some (list_t l)
    ∧ l !! 1024%nat = Some (list_t slot)
    ∧ string_t "http://c/announce" ∈ slot.
Proof.
  destruct (tracker_slot busy_atp 2 "http://c/announce")
    as (l & slot & Hfind & Hslot & Hin); [simpl; lia|reflexivity|].
  exists l, slot. split; [exact Hfind|]. split; [exact Hslot|exact Hin].
Defined.

Lemma tier_clamp_cases_witness :
  clamp (size_t_of_int (-1)) 0 1024 = 1024
  ∧ clamp (size_t_of_int 7) 0 1024 = 7
  ∧ clamp (size_t_of_int 5000) 0 1024 = 1024.
Proof.
  split; [apply (tier_clamp_cases (-1)); lia|].
  split; [apply (tier_clamp_cases 7); lia|apply (tier_clamp_cases 5000); lia].
Defined.

Lemma announce_list_no_tiers_witness :
  entry_find "announce-list"
    (write_torrent_file (atp_with None [] [] ["http://a/announce"; "http://b/announce"]
                           [] [] []))
  = Some (list_t [list_t [string_t "http://a/announce"; string_t "http://b/announce"]]).
Proof.
  apply (announce_list_no_tiers
           (atp_with None [] [] ["http://a/announce"; "http://b/announce"] [] [] []));
    [simpl; lia|reflexivity].
Defined.

Lemma resume_data_retains_witness :
  last_upload one_have_atp = last_upload one_verified_atp
  ∧ have_pieces one_have_atp ≠ have_pieces one_verified_atp.
Proof.
  split; [|discriminate].
  assert (write_resume_data one_have_atp = write_resume_data one_verified_atp)
    as Hsame by (vm_compute; reflexivity).
  pose proof (resume_data_retains one_have_atp one_verified_atp Hsame) as Hret.
  do 7 apply proj2 in Hret. exact (proj1 Hret).
Defined.

Lemma resume_key_set_witness :
  is_Some (entry_find "mapped_files" (write_resume_data busy_atp))
  ∧ is_Some (entry_find "save_path" (write_resume_data busy_atp)).
Proof.
  split.
  - apply (resume_key_set busy_atp "mapped_files"). right. vm_compute.
    repeat first [apply list_elem_of_here | apply list_elem_of_further].
  - apply (resume_key_set busy_atp "save_path"). left. vm_compute.
    repeat first [apply list_elem_of_here | apply list_elem_of_further].
Defined.

Lemma torrent_file_undefined_witness :
  write_torrent_file default_atp = undefined_t
  ∧ ∃ d, write_resume_data default_atp = dictionary_t d.
Proof.
  destruct (torrent_file_undefined default_atp) as ((_ & Hundef) & _ & Hdict).
  split; [|exact Hdict]. apply Hundef. repeat split.
Defined.

End CodecMoreExamples.

(** ** Further scenarios of the auto-manage scheduler *)

Module SchedMore.
Import Sched SchedFacts.

(** *** The limit scenarios (lines 327-505) *)


Lemma downloaders_step L s e :
  e = ev_tick ∨ e = ev_advance 60 ∨ (∃ i, e = ev_check_done i) →
  downloaders s → downloaders (step L s e).
Proof.
  intros [->|[->|[i ->]]] [Hlen Hall]; simpl.
  - pose proof (tick_static L s) as Hst. split.
    + by rewrite <- (Forall2_length _ _ _ Hst).
    + apply Forall_forall. intros t' Ht'.
      apply list_elem_of_lookup in Ht' as [i Hi].
      destruct (Forall2_lookup_r _ _ _ _ _ Hst Hi) as (t & Ht & Hs).
      destruct Hs as (_ & Hstate & _).
      rewrite Forall_forall in Hall. rewrite <- Hstate. apply Hall.
      by eapply list_elem_of_lookup_2.
  - done.
  - unfold complete_check. destruct (torrents s !! i) as [t|] eqn:Hi; [|done].
    rewrite Forall_forall in Hall.
    rewrite (Hall t) by (by eapply list_elem_of_lookup_2). simpl.
    split; [done|]. by apply Forall_forall.
Qed.

Lemma downloaders_tick_agree L L' s :
  dont_count_slow_torrents L = false → dont_count_slow_torrents L' = false →
  active_downloads L = active_downloads L' →
  cap_admits num_torrents L → cap_admits num_torrents L' →
  downloaders s → tick L s = tick L' s.
Proof.
  intros Hdc Hdc' Hd HL HL' [Hlen Hall]. rewrite Forall_forall in Hall.
  apply (tick_agree L L' s num_torrents); try done.
  - intros t _. unfold counts_against_class. by rewrite Hdc, Hdc'.
  - intros t Hst%Hall _. unfold class_of, is_finished. rewrite Hst. simpl. done.
Qed.

(** X18. TORRENT_TEST(download_limit): ten incomplete torrents added paused
    and auto-managed, slow torrents counted and [active_downloads = 3],
    under a global cap that leaves room for the ten torrents. Three torrents
    are resumed and none is paused, so the loop over the alerts ends with
    [num_started = 3] (line 494), and at the end every torrent is
    auto-managed and not finished and exactly three are not paused (lines
    496-503). The run posts no [state_changed] and no [torrent_paused]
    alert, so it does not reach the checks inside the loop. *)
Theorem download_limit_scenario (L : limits) :
  dont_count_slow_torrents L = false →
  active_downloads L = 3 →
  cap_admits num_torrents L →
  let ses := run_test L (replicate num_torrents (create_torrent true true false [])) in
  count_alerts is_resumed ses = 3%nat
  ∧ count_alerts is_paused_alert ses = 0%nat
  ∧ num_started (tally_alerts downloading (alerts ses)) = 3
  ∧ length (torrents ses) = 10%nat
  ∧ Forall (λ t, auto_managed t = true ∧ is_finished t = false) (torrents ses)
  ∧ num_unpaused ses = 3%nat.
Proof.
  intros Hdc Hd Hcap ses. subst ses.
  rewrite (run_test_agree downloaders L
             (with_limits false 3 (active_seeds default_settings) 1)).
  - split_and!; try by vm_compute. vm_compute. by repeat constructor.
  - intros s e. apply downloaders_step.
  - intros s. apply downloaders_tick_agree; try done. by left.
  - split; [vm_compute; lia|]. vm_compute. by repeat constructor.
Qed.


(** *** Force-stopped torrents (lines 569-621) *)



Lemma none_managed_step L s e :
  e = ev_tick ∨ e = ev_advance 60 ∨ (∃ i, e = ev_check_done i) →
  none_managed s → none_managed (step L s e).
Proof.
  intros [->|[->|[i ->]]] Hall; simpl.
  - by rewrite tick_all_forced.
  - done.
  - unfold complete_check. destruct (torrents s !! i) as [t|]; [|done].
    destruct (_ && _); [|done]. unfold none_managed. simpl.
    apply Forall_alter; [done|]. by intros t' _ Ht'.
Qed.

(** X19. TORRENT_TEST(paused_checking), lines 611-619: ten complete torrents
    added paused and not auto-managed, under any settings. At the end of
    the run each of the ten torrents is still waiting in a checking state,
    none is seeding, and each is still paused and not auto-managed. *)
Theorem paused_checking_scenario (L : limits) :
  let ses := run_test L (replicate num_torrents (create_torrent false true true [])) in
  length (torrents ses) = 10%nat
  ∧ Forall (λ t, is_seeding t = false ∧ is_checking (state t) = true
                 ∧ auto_managed t = false ∧ paused t = true)
      (torrents ses).
Proof.
  intros ses. subst ses.
  rewrite (run_test_agree none_managed L
             (with_limits true (active_downloads default_settings)
                (active_seeds default_settings) 1)).
  - split; vm_compute; by repeat constructor.
  - intros s e. apply none_managed_step.
  - intros s Hs. by rewrite !tick_all_forced.
  - vm_compute. by repeat constructor.
Qed.

End SchedMore.

(** ** The further scenarios under the settings of the tests *)

Module SchedMoreExamples.
Import Sched SchedFacts SchedMore.


Lemma download_limit_scenario_witness :
  count_alerts is_resumed
    (run_test (with_limits false 3 (active_seeds default_settings) 1)
       (replicate num_torrents (create_torrent true true false [])))
  = 3%nat
  ∧ num_unpaused
      (run_test (with_limits false 3 (active_seeds default_settings) 1)
         (replicate num_torrents (create_torrent true true false [])))
    = 3%nat.
Proof.
  destruct (download_limit_scenario
              (with_limits false 3 (active_seeds default_settings) 1))
    as (Hres & _ & _ & _ & _ & Hn); [reflexivity..|left; reflexivity|].
  split; [exact Hres|exact Hn].
Defined.


End SchedMoreExamples.
